(** * deep_learning: the FID script (test_2b.ipynb) and the training
      notebook (recitations/Week2-training.ipynb)

    The two notebooks are embedded shallowly.  Array and tensor entries
    (float64 / float32 in the Python code) are modelled as real numbers:
    the statements below are about the formulas the code evaluates, in exact
    arithmetic; rounding, NaN and complex results are outside that model.
    Where rounding decides a property, the body of [calculate_fid] is given
    once more on binary64 numbers (module [F64]).
    Routines of numpy, scipy and torch whose numerics are not part of the
    repository ([scipy.linalg.sqrtm]'s Schur iteration, the network's forward
    pass, autograd) are section variables. *)

From Stdlib Require Import Reals Lra Lia Psatz.
From Stdlib Require Import ZArith String Ascii DecimalString.
From Stdlib Require Import List Arith Bool Permutation.
From Stdlib Require Import ClassicalEpsilon.
From Stdlib Require Floats.
Import ListNotations.

Local Open Scope R_scope.

Set Implicit Arguments.
Set Warnings "-notation-for-abbreviation".

(** ** Python outcomes: a value or a raised exception *)

Inductive exn : Type :=
| ValueError (msg : string)
| ZeroDivisionError
| AttributeError (msg : string)
| InvalidRef.

Inductive outcome (A : Type) : Type :=
| Ok (a : A)
| Raise (e : exn).

Arguments Ok {A} a.
Arguments Raise {A} e.

Definition obind {A B} (o : outcome A) (k : A -> outcome B) : outcome B :=
  match o with
  | Ok a => k a
  | Raise e => Raise e
  end.

Definition omap {A B} (f : A -> B) (o : outcome A) : outcome B :=
  obind o (fun a => Ok (f a)).

(** Collect the outcomes of a list of computations, left to right; the first
    exception wins. *)
Fixpoint sequence {A} (l : list (outcome A)) : outcome (list A) :=
  match l with
  | [] => Ok []
  | o :: l' => obind o (fun a => obind (sequence l') (fun r => Ok (a :: r)))
  end.

(** ** numpy: values *)

(** A 1-D array, and a 2-D array as its list of rows. *)
Notation vec := (list R) (only parsing).
Notation mat := (list (list R)) (only parsing).

Module Np.


Definition nrows (M : mat) : nat := length M.
Definition ncols (M : mat) : nat := length (hd [] M).

(** [M] has shape (r, c). *)
Definition has_shape (r c : nat) (M : mat) : Prop :=
  length M = r /\ Forall (fun row => length row = c) M.

Definition is_square (n : nat) (M : mat) : Prop := has_shape n n M.

Definition squareb (M : mat) : bool :=
  forallb (fun row => length row =? length M)%nat M.

Fixpoint zip_with {A B C} (f : A -> B -> C) (u : list A) (v : list B) : list C :=
  match u, v with
  | a :: u', b :: v' => f a b :: zip_with f u' v'
  | _, _ => []
  end.

Definition broadcast_error : exn :=
  ValueError "operands could not be broadcast together".

(** numpy's broadcasting rule along one axis: equal lengths pair up
    elementwise, a length-1 operand is stretched, anything else raises. *)
Definition broadcast {A B C} (f : A -> B -> outcome C)
    (u : list A) (v : list B) : outcome (list C) :=
  if (length u =? length v)%nat then sequence (zip_with f u v)
  else match u, v with
       | [a], _ => sequence (map (f a) v)
       | _, [b] => sequence (map (fun x => f x b) u)
       | _, _ => Raise broadcast_error
       end.

Definition elementwise1 (f : R -> R -> R) : vec -> vec -> outcome vec :=
  broadcast (fun x y => Ok (f x y)).

Definition elementwise2 (f : R -> R -> R) : mat -> mat -> outcome mat :=
  broadcast (elementwise1 f).

(** [a - b] and [a + b] on 1-D and on 2-D arrays. *)
Definition subtract1 := elementwise1 Rminus.
Definition subtract2 := elementwise2 Rminus.
Definition add2 := elementwise2 Rplus.

(** [a ** 2] *)
Definition square1 (v : vec) : vec := map (fun x => x * x) v.

(** [c * M] for a Python number [c] *)
Definition scale2 (c : R) (M : mat) : mat := map (map (Rmult c)) M.

(** [np.sum] of a 1-D array *)
Definition sum (v : vec) : R := fold_right Rplus 0 v.

(** [np.trace]: the sum of the entries [M[i][i]], rows counted from [i]. *)
Fixpoint trace_from (i : nat) (M : mat) : R :=
  match M with
  | [] => 0
  | row :: M' => nth i row 0 + trace_from (S i) M'
  end.

Definition trace (M : mat) : R := trace_from 0 M.

Definition dot (u v : vec) : R := sum (zip_with Rmult u v).

(** The [c] columns of [M]. *)
Fixpoint columns (c : nat) (M : mat) : mat :=
  match c with
  | O => []
  | S c' => map (hd 0) M :: columns c' (map (@tl R) M)
  end.

Definition matmul_error : exn :=
  ValueError "matmul: Input operand 1 has a mismatch in its core dimension 0".

(** [A @ B] on 2-D arrays: the inner dimensions must agree. *)
Definition matmul (A B : mat) : outcome mat :=
  if (ncols A =? nrows B)%nat
  then Ok (map (fun row => map (dot row) (columns (ncols B) B)) A)
  else Raise matmul_error.

(** [M @ x] for a vector [x], used to state positive semi-definiteness. *)
Definition matvec (M : mat) (x : vec) : vec := map (fun row => dot row x) M.

Definition entry (M : mat) (i j : nat) : R := nth j (nth i M []) 0.

Definition symmetric (M : mat) : Prop :=
  forall i j, entry M i j = entry M j i.

Definition psd (n : nat) (M : mat) : Prop :=
  forall x : vec, length x = n -> 0 <= dot x (matvec M x).

End Np.

(** ** Python programs *)

(** A Python program over a state [S]: it returns a value or raises, and
    leaves a state behind in both cases. *)
Definition St (S A : Type) : Type := S -> outcome A * S.

Definition ret {S A} (a : A) : St S A := fun w => (Ok a, w).

Definition raise {S A} (e : exn) : St S A := fun w => (Raise e, w).

Definition bind {S A B} (m : St S A) (k : A -> St S B) : St S B :=
  fun w => match m w with
           | (Ok a, w') => k a w'
           | (Raise e, w') => (Raise e, w')
           end.

Definition lift {S A} (o : outcome A) : St S A := fun w => (o, w).

Notation "x <- m ;; k" := (bind m (fun x => k))
  (at level 61, m at next level, right associativity).
Notation "' pat <- m ;; k" := (bind m (fun x => match x with pat => k end))
  (at level 61, pat pattern, m at next level, right associativity).
Notation "m ;;; k" := (bind m (fun _ => k))
  (at level 61, right associativity).

(** [for x in xs: body x] *)
Fixpoint for_each {S A} (xs : list A) (body : A -> St S unit) : St S unit :=
  match xs with
  | [] => ret tt
  | x :: xs' => body x ;;; for_each xs' body
  end.

(** A [for] loop that updates one local variable [acc]. *)
Fixpoint for_fold {S A B} (xs : list A) (acc : B) (body : B -> A -> St S B)
    : St S B :=
  match xs with
  | [] => ret acc
  | x :: xs' => acc' <- body acc x ;; for_fold xs' acc' body
  end.

(** ** The Python heap

    numpy arrays are mutable heap objects and Python variables hold
    references to them.  1-D and 2-D arrays live in two typed stores, so a
    reference carries the rank of its array; [out] is the text written to
    standard output. *)

Record world : Type := World {
  vecs : list vec;
  mats : list mat;
  out : list string
}.

Definition vref := nat.
Definition mref := nat.

Bind Scope nat_scope with vref mref.

Definition Py (A : Type) : Type := St world A.

Definition get_vec (r : vref) : Py vec :=
  fun w => match nth_error (vecs w) r with
           | Some v => (Ok v, w)
           | None => (Raise InvalidRef, w)
           end.

Definition get_mat (r : mref) : Py mat :=
  fun w => match nth_error (mats w) r with
           | Some M => (Ok M, w)
           | None => (Raise InvalidRef, w)
           end.

(** Allocation of a fresh array: the new object goes to the end of its
    store, no existing object is touched. *)
Definition new_vec (v : vec) : Py vref :=
  fun w => (Ok (length (vecs w)), World (vecs w ++ [v]) (mats w) (out w)).

Definition new_mat (M : mat) : Py mref :=
  fun w => (Ok (length (mats w)), World (vecs w) (mats w ++ [M]) (out w)).

Definition print (s : string) : Py unit :=
  fun w => (Ok tt, World (vecs w) (mats w) (out w ++ [s])).

(** ** numpy: the operators of the script, on references

    Every operator the script uses is out of place: it reads its operands
    and returns a newly allocated array (or a number). *)

Module NpRef.

Definition subtract1 (a b : vref) : Py vref :=
  u <- get_vec a ;; v <- get_vec b ;;
  d <- lift (Np.subtract1 u v) ;; new_vec d.

Definition subtract2 (a b : mref) : Py mref :=
  A <- get_mat a ;; B <- get_mat b ;;
  D <- lift (Np.subtract2 A B) ;; new_mat D.

Definition add2 (a b : mref) : Py mref :=
  A <- get_mat a ;; B <- get_mat b ;;
  S <- lift (Np.add2 A B) ;; new_mat S.

Definition square1 (a : vref) : Py vref :=
  u <- get_vec a ;; new_vec (Np.square1 u).

Definition scale2 (c : R) (a : mref) : Py mref :=
  A <- get_mat a ;; new_mat (Np.scale2 c A).

Definition sum (a : vref) : Py R :=
  u <- get_vec a ;; ret (Np.sum u).

Definition trace (a : mref) : Py R :=
  A <- get_mat a ;; ret (Np.trace A).

Definition matmul (a b : mref) : Py mref :=
  A <- get_mat a ;; B <- get_mat b ;;
  P <- lift (Np.matmul A B) ;; new_mat P.

End NpRef.

(** ** scipy.linalg.sqrtm and the script *)

(** What scipy's numerical routine leaves behind for an input matrix: the
    computed root [X], the error estimate, and whether it gave up
    ("failed to find the matrix square root"). *)
Record sqrtm_core : Type := SqrtmCore {
  root : mat;
  errest : R;
  failflag : bool
}.

Definition sqrtm_shape_error : exn := ValueError "expected square matrix".

Definition sqrtm_failure_notice : string := "Failed to find a square root.".

(** ** Python's fixed-point formatting, [f"{x:.4f}"]

    The number is rounded to the nearest multiple of 1/10000, a tie going to
    the even one, and written with its four decimals. *)

Definition round_half_even (x : R) : Z :=
  let f := (up x - 1)%Z in
  if Rlt_dec (x - IZR f) (1 / 2) then f
  else if Rlt_dec (1 / 2) (x - IZR f) then (f + 1)%Z
  else if Z.even f then f else (f + 1)%Z.

Definition digit (n : Z) : ascii := ascii_of_nat (48 + Z.to_nat (n mod 10)).

(** The non-negative integer [n], read as a number of ten-thousandths. *)
Definition fixed4 (n : Z) : string :=
  (NilZero.string_of_uint (N.to_uint (Z.to_N (n / 10000))) ++ "."
   ++ String (digit (n / 1000)) (String (digit (n / 100))
        (String (digit (n / 10)) (String (digit n) ""))))%string.

Definition format_4f (x : R) : string :=
  if Rlt_dec x 0 then ("-" ++ fixed4 (round_half_even (- x * 10000)))%string
  else fixed4 (round_half_even (x * 10000)).

Definition newline : ascii := "010"%char.

Module Test2b.

(** The hard-coded statistics of the script. *)
Definition mu_real : vec := [0.5; 0.2; 0.7; 0.4].
Definition sigma_real : mat :=
  [ [0.2; 0.1; 0.05; 0.02];
    [0.1; 0.3; 0.1; 0.05];
    [0.05; 0.1; 0.4; 0.1];
    [0.02; 0.05; 0.1; 0.2] ].

Definition mu1 : vec := [0.4; 0.3; 0.5; 0.6].
Definition sigma1 : mat :=
  [ [0.7; 0.1; 0.05; 0.02];
    [0.1; 0.2; 0.1; 0.05];
    [0.05; 0.1; 0.3; 0.1];
    [0.02; 0.05; 0.1; 0.15] ].

Definition mu2 : vec := [0.7; 0.1; 0.3; 0.5].
Definition sigma2 : mat :=
  [ [0.4; 0.05; 0.05; 0.01];
    [0.05; 0.3; 0.1; 0.05];
    [0.05; 0.1; 0.2; 0.05];
    [0.01; 0.05; 0.05; 0.2] ].

(** The heap once the six arrays are built, with their references. *)
Definition script_world : world :=
  World [mu_real; mu1; mu2] [sigma_real; sigma1; sigma2] [].

(** ["Set I" if fid1 < fid2 else "Set II"], and the line printed last. *)
Definition better (fid1 fid2 : R) : string :=
  if Rlt_dec fid1 fid2 then "Set I" else "Set II".

Definition verdict (fid1 fid2 : R) : string :=
  ("Based on FID score, Fake Image " ++ better fid1 fid2 ++ " is better")%string.

Section Script.

(** The numerical core of [scipy.linalg.sqrtm] (Schur decomposition and the
    triangular square-root recurrence) is the library's; only its interface
    is modelled: it rejects an input that is not square, with [disp=True]
    (the default) it prints a notice when it failed and returns the root,
    with [disp=False] it prints nothing and returns the root together with
    the error estimate. *)
Variable scipy_sqrtm : mat -> sqrtm_core.

Definition sqrtm (a : mref) (disp : bool) : Py (mref * option R) :=
  A <- get_mat a ;;
  if Np.squareb A then
    X <- new_mat (root (scipy_sqrtm A)) ;;
    if disp then
      (if failflag (scipy_sqrtm A) then print sqrtm_failure_notice else ret tt) ;;;
      ret (X, None)
    else ret (X, Some (errest (scipy_sqrtm A)))
  else raise sqrtm_shape_error.

(** [calculate_fid] of test_2b.ipynb, statement by statement. *)
Definition calculate_fid (real_mu : vref) (real_sigma : mref)
    (x_mu : vref) (x_sigma : mref) : Py R :=
  diff <- NpRef.subtract1 real_mu x_mu ;;
  diff2 <- NpRef.square1 diff ;;
  mean_diff <- NpRef.sum diff2 ;;
  prod <- NpRef.matmul real_sigma x_sigma ;;
  '(covmean, _) <- sqrtm prod false ;;
  s <- NpRef.add2 real_sigma x_sigma ;;
  c2 <- NpRef.scale2 2 covmean ;;
  d <- NpRef.subtract2 s c2 ;;
  tr <- NpRef.trace d ;;
  ret (mean_diff + tr).

(** The value [calculate_fid] computes from the contents of its four
    arguments. *)
Definition sqrtm_value (A : mat) : outcome mat :=
  if Np.squareb A then Ok (root (scipy_sqrtm A)) else Raise sqrtm_shape_error.

Definition fid_value (a : vec) (A : mat) (b : vec) (B : mat)
    : outcome R :=
  obind (Np.subtract1 a b) (fun diff =>
  obind (Np.matmul A B) (fun prod =>
  obind (sqrtm_value prod) (fun covmean =>
  obind (Np.add2 A B) (fun s =>
  obind (Np.subtract2 s (Np.scale2 2 covmean)) (fun d =>
  Ok (Np.sum (Np.square1 diff) + Np.trace d)))))).

(** The two calls of the script, on the references of [script_world]. *)
Definition fid1 : Py R := calculate_fid 0 0 1 1.
Definition fid2 : Py R := calculate_fid 0 0 2 2.

(** The statements of the script after the six arrays are built; the
    result is the final value of the globals [fid1], [fid2] and [better]. *)
Definition script : Py (R * R * string) :=
  fid1 <- calculate_fid 0 0 1 1 ;;
  fid2 <- calculate_fid 0 0 2 2 ;;
  print ("FID between Real and Fake Set I: " ++ format_4f fid1) ;;;
  print ("FID between Real and Fake Set II: " ++ format_4f fid2) ;;;
  let better := better fid1 fid2 in
  print (String newline (verdict fid1 fid2)) ;;;
  ret (fid1, fid2, better).

End Script.

End Test2b.


(** ** Frames and simulation by values *)

Definition vec_at (w : world) (r : vref) (v : vec) : Prop :=
  nth_error (vecs w) r = Some v.

Definition mat_at (w : world) (r : mref) (M : mat) : Prop :=
  nth_error (mats w) r = Some M.

(** [w'] is [w] with fresh arrays allocated: every array of [w] is still
    there, unchanged and under the same reference, and nothing was printed. *)
Definition extends (w w' : world) : Prop :=
  exists nv nm,
    vecs w' = vecs w ++ nv /\ mats w' = mats w ++ nm /\ out w' = out w.

(** [sim m w o rel]: run from [w], the program [m] ends in a world that
    extends [w], raising exactly when the value-level outcome [o] raises,
    and otherwise returning something related to [o]'s value. *)
Definition sim {A V} (m : Py A) (w : world) (o : outcome V)
    (rel : world -> A -> V -> Prop) : Prop :=
  exists w', extends w w' /\
    match o with
    | Ok v => exists a, m w = (Ok a, w') /\ rel w' a v
    | Raise e => m w = (Raise e, w')
    end.

Definition same {A} (_ : world) (a v : A) : Prop := a = v.


(** ** The distance, in the words of the specification

    "squared Euclidean distance between the means plus the trace of
    (covariance_a + covariance_b - 2 x principal matrix square root of their
    product)", written with indexed sums over the common dimension. *)

Module FidSpec.

(** f 0 + f 1 + ... + f (n-1) *)
Fixpoint big_sum (n : nat) (f : nat -> R) : R :=
  match n with
  | O => 0
  | S k => f O + big_sum k (fun i => f (S i))
  end.

Definition squared_distance (a b : vec) : R :=
  big_sum (length a) (fun i => (nth i a 0 - nth i b 0) ^ 2).

(** The matrix product of two n x n matrices, entry by entry. *)
Definition product (n : nat) (A B : mat) : mat :=
  map (fun i =>
         map (fun j => big_sum n (fun k => Np.entry A i k * Np.entry B k j))
             (seq 0 n))
      (seq 0 n).

Definition diagonal_sum (n : nat) (M : nat -> nat -> R) : R :=
  big_sum n (fun i => M i i).

(** [sqrt_of] stands for the principal matrix square root. *)
Definition fid (sqrt_of : mat -> mat) (n : nat)
    (a : vec) (A : mat) (b : vec) (B : mat) : R :=
  squared_distance a b +
  diagonal_sum n (fun i j =>
                    Np.entry A i j + Np.entry B i j
                    - 2 * Np.entry (sqrt_of (product n A B)) i j).

End FidSpec.

(** ** Contracts of the library square root *)


(** On the square of a symmetric positive semi-definite n x n matrix the
    routine returns that matrix: it is the principal square root there. *)
Definition principal_on_psd (core : mat -> sqrtm_core) (n : nat) : Prop :=
  forall X P,
    Np.is_square n X -> Np.symmetric X -> Np.psd n X ->
    Np.matmul X X = Ok P -> root (core P) = X.

(** ** Square-root routines to run the script on

    [sqrtm_entrywise] takes entrywise roots: it is the principal square root
    on diagonal matrices with non-negative entries.  [sqrtm_2x2] is the
    principal square root of 2 x 2 matrices.  [sqrtm_gives_up] reports
    failure, which is what scipy's recurrence does on a matrix such
    as [[0, 1], [0, 0]] that has no square root. *)

Definition sqrtm_entrywise (M : mat) : sqrtm_core :=
  SqrtmCore (map (map sqrt) M) 0 false.

(** The closed form of the principal square root of a 2 x 2 matrix:
    (M + sqrt(det M) I) / sqrt(tr M + 2 sqrt(det M)). *)
Definition sqrtm_2x2 (M : mat) : sqrtm_core :=
  match M with
  | [ [a; b]; [c; d] ] =>
      let s := sqrt (a * d - b * c) in
      let t := sqrt (a + d + 2 * s) in
      SqrtmCore [ [(a + s) / t; b / t]; [c / t; (d + s) / t] ] 0 false
  | _ => sqrtm_entrywise M
  end.

Definition sqrtm_gives_up (M : mat) : sqrtm_core :=
  SqrtmCore M 1 true.

Definition nilpotent : mat := [ [0; 1]; [0; 0] ].
Definition identity2 : mat := [ [1; 0]; [0; 1] ].

Definition diagonal_world : world :=
  World [ [1; 2]; [0; 0] ] [ [ [4; 0]; [0; 9] ]; identity2 ] [].

Definition psd_world : world := World [ [1; 2] ] [ [ [2; 1]; [1; 2] ] ] [].

Definition nilpotent_world : world :=
  World [ [0; 0] ] [ nilpotent; identity2 ] [].

Definition mismatch_world : world :=
  World [ [1; 2; 3]; [1; 2] ] [ identity2; identity2 ] [].

(** ** torch: parameters, gradients, optimizers, data loading

    A tensor is the list of its entries.  The parameters of the model are
    objects shared by the model and the optimizer: both read and write the
    one list [parameters] of the session. *)

Notation tensor := (list R) (only parsing).

Module Torch.

Record param : Type := Param {
  data : tensor;
  grad : option tensor
}.

(** [loss.backward()] adds the new gradient to [p.grad], or sets it when
    [p.grad] is [None]. *)
Definition accumulate (p : param) (g : tensor) : param :=
  Param (data p)
        (Some (match grad p with
               | None => g
               | Some g0 => Np.zip_with Rplus g0 g
               end)).

Fixpoint accumulate_all (ps : list param) (gs : list tensor)
    : list param :=
  match ps, gs with
  | p :: ps', g :: gs' => accumulate p g :: accumulate_all ps' gs'
  | _, _ => ps
  end.

(** [optimizer.zero_grad()]: every gradient is reset to [None]. *)
Definition zero_grad (ps : list param) : list param :=
  map (fun p => Param (data p) None) ps.

(** [p.add_(g, alpha=a)] *)
Definition add_alpha (w g : tensor) (a : R) : tensor :=
  Np.zip_with (fun wi gi => wi + a * gi) w g.

Record sgd_defaults : Type := SgdDefaults {
  lr : R;
  momentum : R;
  dampening : R;
  weight_decay : R;
  nesterov : bool;
  maximize : bool
}.

Record SGD : Type := Sgd {
  defaults : sgd_defaults;
  momentum_buffers : list (option tensor)
}.

(** [optim.SGD(params, lr=...)]: every other hyperparameter keeps its
    default. *)
Definition optim_SGD (learning_rate : R) : SGD :=
  Sgd (SgdDefaults learning_rate 0 0 0 false false) [].

(** Modelled from the spec: the optimizer's update is the library's
    gradient descent ("library-provided automatic differentiation and
    parameter-update mechanics"); torch.optim.SGD is not under src.  This is
    its documented update of one parameter: the gradient, negated when
    maximizing, plus weight decay, through the momentum buffer, is added to
    the parameter in place with factor -lr.  A parameter without gradient
    is skipped. *)
Definition sgd_param (h : sgd_defaults) (buf : option tensor) (p : param)
    : option tensor * param :=
  match grad p with
  | None => (buf, p)
  | Some g =>
      let g0 := if maximize h then map Ropp g else g in
      let g1 := if Req_dec_T (weight_decay h) 0 then g0
                else Np.zip_with Rplus g0 (map (Rmult (weight_decay h)) (data p)) in
      if Req_dec_T (momentum h) 0
      then (buf, Param (add_alpha (data p) g1 (- lr h)) (Some g))
      else
        let b := match buf with
                 | None => g1
                 | Some b0 =>
                     Np.zip_with Rplus (map (Rmult (momentum h)) b0)
                                 (map (Rmult (1 - dampening h)) g1)
                 end in
        let g2 := if nesterov h
                  then Np.zip_with Rplus g1 (map (Rmult (momentum h)) b)
                  else b in
        (Some b, Param (add_alpha (data p) g2 (- lr h)) (Some g))
  end.

Fixpoint sgd_params (h : sgd_defaults) (bufs : list (option tensor))
    (ps : list param) : list (option tensor) * list param :=
  match ps with
  | [] => ([], [])
  | p :: ps' =>
      let '(b', p') := sgd_param h (hd None bufs) p in
      let '(bs, qs) := sgd_params h (tl bufs) ps' in
      (b' :: bs, p' :: qs)
  end.

(** [optimizer.step()] for SGD. *)
Definition sgd_step (o : SGD) (ps : list param) : SGD * list param :=
  let '(bs, qs) := sgd_params (defaults o) (momentum_buffers o) ps in
  (Sgd (defaults o) bs, qs).

(** [torch.allclose(a, b)] with its default tolerances. *)
Definition close (a b : R) : bool :=
  if Rle_dec (Rabs (a - b)) (1e-8 + 1e-5 * Rabs b) then true else false.

Definition allclose (a b : tensor) : bool :=
  forallb (fun x => x) (Np.zip_with close a b).

(** The batches a [DataLoader] yields for the sample order [l]: samples
    are collected into [batch]; a full batch is yielded; what is left at the
    end is yielded only without [drop_last]. *)
Fixpoint batch_sampler {A} (batch_size : nat) (drop_last : bool)
    (batch : list A) (l : list A) : list (list A) :=
  match l with
  | [] => if drop_last || (length batch =? 0)%nat then [] else [batch]
  | x :: l' =>
      let batch' := batch ++ [x] in
      if (length batch' =? batch_size)%nat
      then batch' :: batch_sampler batch_size drop_last [] l'
      else batch_sampler batch_size drop_last batch' l'
  end.

End Torch.

(** ** The training notebook *)

(** The library calls of a training run, in the order they happen. *)
Inductive event : Type :=
| EvTrainMode                      (* model.train() *)
| EvToDevice                       (* tensor.to(device=..., dtype=...) *)
| EvZeroGrad                       (* optimizer.zero_grad() *)
| EvForward                        (* model(x) *)
| EvLoss (item : R)                (* loss_fn(y_pred, y) *)
| EvBackward                       (* loss.backward() *)
| EvStep                           (* optimizer.step() *)
| EvPostfix (item : R)             (* pbar.set_postfix_str(...) *)
| EvScheduler (metric : option R)  (* lr_scheduler.step(...) *)
| EvPrint (text : string).

Module Week2.

Import Torch.

Section Training.

(** The data, the network, the loss and automatic differentiation are the
    framework's. *)
Variables input label logits : Type.
Variable cast_input : input -> input.       (* .to(device, torch.float32) *)
Variable cast_label : label -> label.       (* .to(device, torch.long) *)
Variable network : list tensor -> list input -> logits.
Variable criterion : logits -> list label -> R.
Variable autograd : list tensor -> list input -> list label -> list tensor.

(** The optimizer and the learning-rate scheduler. *)
Variable opt : Type.
Variable opt_step : opt -> list param -> opt * list param.
Variable sched : Type.
Variable is_plateau : sched -> bool.  (* isinstance(.., ReduceLROnPlateau) *)
Variable plateau_step : sched -> R -> opt -> sched * opt.
Variable plain_step : sched -> opt -> sched * opt.

(** The order the sampler draws for the k-th pass over the data. *)
Variable permutation : nat -> list (input * label) -> list (input * label).

Record session : Type := Session {
  parameters : list param;
  optimizer : opt;
  lr_scheduler : option sched;
  training : bool;
  passes : nat;
  events : list event
}.

Definition Tr (A : Type) : Type := St session A.

Definition log (e : event) : Tr unit :=
  fun s => (Ok tt, Session (parameters s) (optimizer s) (lr_scheduler s)
                           (training s) (passes s) (events s ++ [e])).

Definition model_train : Tr unit :=
  fun s => (Ok tt, Session (parameters s) (optimizer s) (lr_scheduler s)
                           true (passes s) (events s ++ [EvTrainMode])).

Definition x_to (x : list input) : Tr (list input) :=
  log EvToDevice ;;; ret (map cast_input x).

Definition y_to (y : list label) : Tr (list label) :=
  log EvToDevice ;;; ret (map cast_label y).

Definition optimizer_zero_grad : Tr unit :=
  fun s => (Ok tt, Session (zero_grad (parameters s)) (optimizer s)
                           (lr_scheduler s) (training s) (passes s)
                           (events s ++ [EvZeroGrad])).

(** A prediction remembers what it was computed from. *)
Record prediction : Type := Prediction {
  output : logits;
  from_parameters : list tensor;
  from_input : list input
}.

(** A loss: its number, and the gradient [backward] will deliver. *)
Record loss_tensor : Type := Loss {
  item : R;
  gradient : list tensor
}.

Definition model_call (x : list input) : Tr prediction :=
  fun s =>
    let ws := map data (parameters s) in
    (Ok (Prediction (network ws x) ws x),
     Session (parameters s) (optimizer s) (lr_scheduler s) (training s)
             (passes s) (events s ++ [EvForward])).

Definition loss_fn (y_pred : prediction) (y : list label) : Tr loss_tensor :=
  let l := Loss (criterion (output y_pred) y)
                (autograd (from_parameters y_pred) (from_input y_pred) y) in
  log (EvLoss (item l)) ;;; ret l.

Definition backward (l : loss_tensor) : Tr unit :=
  fun s => (Ok tt, Session (accumulate_all (parameters s) (gradient l))
                           (optimizer s) (lr_scheduler s) (training s)
                           (passes s) (events s ++ [EvBackward])).

Definition optimizer_step : Tr unit :=
  fun s =>
    let '(o, ps) := opt_step (optimizer s) (parameters s) in
    (Ok tt, Session ps o (lr_scheduler s) (training s) (passes s)
                    (events s ++ [EvStep])).

Definition set_postfix_str (v : R) : Tr unit := log (EvPostfix v).

Record DataLoader : Type := Loader {
  dataset : list (input * label);
  batch_size : nat;
  shuffle : bool;
  drop_last : bool
}.

(** One pass over the loader: the batches, each collated into (x, y). *)
Definition iterate (loader : DataLoader) : Tr (list (list input * list label)) :=
  fun s =>
    let order := if shuffle loader then permutation (passes s) (dataset loader)
                 else dataset loader in
    (Ok (map (fun b => (map fst b, map snd b))
             (batch_sampler (batch_size loader) (drop_last loader) [] order)),
     Session (parameters s) (optimizer s) (lr_scheduler s) (training s)
             (S (passes s)) (events s)).

(** [train_epoch] of the notebook. *)
Definition train_epoch (train_loader : DataLoader) : Tr unit :=
  model_train ;;;
  batch_pbar <- iterate train_loader ;;
  for_each batch_pbar (fun '(x, y) =>
    x <- x_to x ;;
    y <- y_to y ;;
    optimizer_zero_grad ;;;
    y_pred <- model_call x ;;
    loss <- loss_fn y_pred y ;;
    backward loss ;;;
    optimizer_step ;;;
    set_postfix_str (item loss)).

(** [a /= n] for a float [a] and an int [n]. *)
Definition py_div (a : R) (n : nat) : Tr R :=
  if (n =? 0)%nat then raise ZeroDivisionError else ret (a / INR n).

Definition scheduler_step (metric : R) : Tr unit :=
  fun s =>
    match lr_scheduler s with
    | Some sc =>
        if is_plateau sc
        then let '(sc', o) := plateau_step sc metric (optimizer s) in
             (Ok tt, Session (parameters s) o (Some sc') (training s)
                             (passes s) (events s ++ [EvScheduler (Some metric)]))
        else let '(sc', o) := plain_step sc (optimizer s) in
             (Ok tt, Session (parameters s) o (Some sc') (training s)
                             (passes s) (events s ++ [EvScheduler None]))
    | None => (Ok tt, s)
    end.

(** The body of the epoch loop of [train]; it returns the value it reports
    as the running average train loss. *)
Definition train_one_epoch (train_loader : DataLoader) : Tr R :=
  batches <- iterate train_loader ;;
  running_avg_train_loss <-
    for_fold batches 0 (fun running_avg_train_loss '(x, y) =>
      x <- x_to x ;;
      y <- y_to y ;;
      optimizer_zero_grad ;;;
      y_pred <- model_call x ;;
      loss <- loss_fn y_pred y ;;
      backward loss ;;;
      optimizer_step ;;;
      ret (running_avg_train_loss + item loss * INR (length x))) ;;
  running_avg_train_loss <-
    py_div running_avg_train_loss (length (dataset train_loader)) ;;
  scheduler_step running_avg_train_loss ;;;
  set_postfix_str running_avg_train_loss ;;;
  ret running_avg_train_loss.

(** [train] of the notebook. *)
Definition train (train_loader : DataLoader) (n_epochs : nat) : Tr unit :=
  for_each (seq 0 n_epochs) (fun epoch =>
    train_one_epoch train_loader ;;; ret tt).

End Training.

End Week2.

(** ** The cell that compares a manual gradient step with [optimizer.step()] *)

Module Week2Sgd.

Import Torch Week2.

Section Cell.

Variable sched : Type.

(** [model[1].weight]: the first parameter of the model. *)
Definition weight : St (session SGD sched) param :=
  fun s => match nth_error (parameters s) 0 with
           | Some p => (Ok p, s)
           | None => (Raise InvalidRef, s)
           end.

(** [t.clone()], where [t] may be [None] *)
Definition clone (t : option tensor) : St (session SGD sched) tensor :=
  match t with
  | Some v => ret v
  | None => raise (AttributeError "'NoneType' object has no attribute 'clone'")
  end.

(** [w_before - 0.001 * w_before_grad] *)
Definition manual_step (w_before w_before_grad : tensor) : tensor :=
  Np.zip_with Rminus w_before (map (Rmult 0.001) w_before_grad).

Definition same_thing : string := "Both did the same thing!".

Definition manual_update_cell : St (session SGD sched) tensor :=
  p <- weight ;;
  w_before <- clone (Some (data p)) ;;
  w_before_grad <- clone (grad p) ;;
  let w_after := manual_step w_before w_before_grad in
  @optimizer_step SGD sgd_step sched ;;;
  p' <- weight ;;
  (if allclose w_after (data p') then @log SGD sched (EvPrint same_thing)
   else ret tt) ;;;
  ret w_after.

End Cell.

End Week2Sgd.

(** ** A one-weight regression to run the notebook on

    Inputs and labels are numbers, the model is y = w * x, the loss is the
    mean squared error, and its gradient is written out. *)

Module Toy.

Import Torch Week2.

Definition mean (v : tensor) : R := Np.sum v / INR (length v).

Definition network (ws : list tensor) (x : list R) : list R :=
  map (Rmult (nth 0 (nth 0 ws []) 0)) x.

Definition criterion (y_pred : list R) (y : list R) : R :=
  mean (Np.square1 (Np.zip_with Rminus y_pred y)).

Definition autograd (ws : list tensor) (x y : list R) : list tensor :=
  [ [ mean (Np.zip_with (fun xi yi => 2 * (nth 0 (nth 0 ws []) 0 * xi - yi) * xi)
                        x y) ] ].

Definition cast (v : R) : R := v.

Definition no_shuffle (k : nat) (l : list (R * R)) : list (R * R) := l.

(** Three samples of y = 2 x, batches of two, the last one dropped. *)
Definition loader : DataLoader R R :=
  Loader [ (1, 2); (2, 4); (3, 6) ] 2 true true.

Definition start : session SGD unit :=
  Session [ Param [1] None ] (optim_SGD 0.001) None false 0 [].

(** A session right after [loss.backward()]. *)
Definition after_backward : session SGD unit :=
  Session [ Param [1; 2] (Some [10; -20]); Param [0] None ]
          (optim_SGD 0.001) None true 1 [EvForward; EvLoss 3; EvBackward].

End Toy.

(** The library calls of one iteration of the batch loop of [train_epoch],
    and of [train], for a batch whose loss is [l]. *)
Definition batch_calls (l : R) : list event :=
  [EvToDevice; EvToDevice; EvZeroGrad; EvForward; EvLoss l; EvBackward;
   EvStep; EvPostfix l].

Definition step_calls (l : R) : list event :=
  [EvToDevice; EvToDevice; EvZeroGrad; EvForward; EvLoss l; EvBackward;
   EvStep].

(** What one epoch of [train] leaves in the trace: the losses of its
    batches, the scheduler's call if there is one, and the reported running
    average. *)
Record epoch_log : Type := EpochLog {
  losses : list R;
  scheduler_calls : list event;
  reported : R
}.

Definition epoch_calls (ep : epoch_log) : list event :=
  flat_map step_calls (losses ep) ++ scheduler_calls ep
  ++ [EvPostfix (reported ep)].

(** The sum over the batches of an epoch of (mean batch loss * batch size). *)
Definition processed_total (B : nat) (ep : epoch_log) : R :=
  Np.sum (map (fun l => l * INR B) (losses ep)).

(** An epoch over N samples in batches of B: N / B batches were processed,
    the report divides their total by N, and it is below the mean over the
    (N / B) * B processed samples when that mean is positive. *)
Definition undercounted (N B : nat) (ep : epoch_log) : Prop :=
  length (losses ep) = (N / B)%nat /\
  reported ep = processed_total B ep / INR N /\
  (0 < processed_total B ep / INR (N / B * B) ->
   reported ep < processed_total B ep / INR (N / B * B)).

(** In a trace, every [optimizer.step()] comes right after a
    [loss.backward()]. *)
Definition step_follows_backward (trace : list event) : Prop :=
  forall i, nth_error trace i = Some EvStep ->
            exists j, i = S j /\ nth_error trace j = Some EvBackward.

Module ToyRun.

Import Torch Week2.

(** No scheduler is installed in the toy run; these stand for its calls. *)
Definition is_plateau (sc : unit) : bool := false.
Definition plateau_step (sc : unit) (metric : R) (o : SGD) : unit * SGD := (sc, o).
Definition plain_step (sc : unit) (o : SGD) : unit * SGD := (sc, o).

Definition train_epoch : DataLoader R R -> St (session SGD unit) unit :=
  Week2.train_epoch Toy.cast Toy.cast Toy.network Toy.criterion Toy.autograd
                    sgd_step Toy.no_shuffle.

Definition train_one_epoch : DataLoader R R -> St (session SGD unit) R :=
  Week2.train_one_epoch Toy.cast Toy.cast Toy.network Toy.criterion
                        Toy.autograd sgd_step is_plateau plateau_step
                        plain_step Toy.no_shuffle.

Definition train : DataLoader R R -> nat -> St (session SGD unit) unit :=
  Week2.train Toy.cast Toy.cast Toy.network Toy.criterion Toy.autograd
              sgd_step is_plateau plateau_step plain_step Toy.no_shuffle.

End ToyRun.

(** ** Eigenvalues of 4 x 4 matrices, and the principal square root

    The script applies [sqrtm] to two 4 x 4 products.  The principal square
    root of M is the square root of M with no eigenvalue on the closed
    negative real axis; eigenvalues are the roots of the characteristic
    polynomial det (t I - X). *)

Module Spectral.

Definition det3 (a b c d e f g h i : R) : R :=
  a * (e * i - f * h) - b * (d * i - f * g) + c * (d * h - e * g).

(** The determinant of the 4 x 4 array with entries [m i j], expanded along
    its first row. *)
Definition det4 (m : nat -> nat -> R) : R :=
  m 0%nat 0%nat * det3 (m 1%nat 1%nat) (m 1%nat 2%nat) (m 1%nat 3%nat)
                       (m 2%nat 1%nat) (m 2%nat 2%nat) (m 2%nat 3%nat)
                       (m 3%nat 1%nat) (m 3%nat 2%nat) (m 3%nat 3%nat)
  - m 0%nat 1%nat * det3 (m 1%nat 0%nat) (m 1%nat 2%nat) (m 1%nat 3%nat)
                         (m 2%nat 0%nat) (m 2%nat 2%nat) (m 2%nat 3%nat)
                         (m 3%nat 0%nat) (m 3%nat 2%nat) (m 3%nat 3%nat)
  + m 0%nat 2%nat * det3 (m 1%nat 0%nat) (m 1%nat 1%nat) (m 1%nat 3%nat)
                         (m 2%nat 0%nat) (m 2%nat 1%nat) (m 2%nat 3%nat)
                         (m 3%nat 0%nat) (m 3%nat 1%nat) (m 3%nat 3%nat)
  - m 0%nat 3%nat * det3 (m 1%nat 0%nat) (m 1%nat 1%nat) (m 1%nat 2%nat)
                         (m 2%nat 0%nat) (m 2%nat 1%nat) (m 2%nat 2%nat)
                         (m 3%nat 0%nat) (m 3%nat 1%nat) (m 3%nat 2%nat).

(** The entries of t I. *)
Definition diag (t : R) (i j : nat) : R := if (i =? j)%nat then t else 0.

(** det (t I - X) for the array [x] of entries of X. *)
Definition charpoly (x : nat -> nat -> R) (t : R) : R :=
  det4 (fun i j => diag t i j - x i j).

(** The entries of the product of two 4 x 4 arrays, and the trace. *)
Definition times (x y : nat -> nat -> R) (i j : nat) : R :=
  x i 0%nat * y 0%nat j
  + (x i 1%nat * y 1%nat j + (x i 2%nat * y 2%nat j + (x i 3%nat * y 3%nat j + 0))).

Definition tr4 (x : nat -> nat -> R) : R :=
  x 0%nat 0%nat + (x 1%nat 1%nat + (x 2%nat 2%nat + (x 3%nat 3%nat + 0))).

(** The 4 x 4 array with entries [f i j], as a list of rows. *)
Definition mat4 (f : nat -> nat -> R) : mat :=
  map (fun i => map (f i) [0; 1; 2; 3]%nat) [0; 1; 2; 3]%nat.

(** [X] has no eigenvalue s <= 0. *)
Definition no_nonpositive_eigenvalue (X : mat) : Prop :=
  forall s, s <= 0 -> charpoly (Np.entry X) s <> 0.

(** [X] is a square root of the 4 x 4 matrix [M] with no eigenvalue on the
    closed negative real axis, as the principal square root is.  (Where the
    eigenvalues of [M] are positive reals, those of a square root are real,
    and this says that they are all positive.) *)
Definition principal_root (M X : mat) : Prop :=
  Np.is_square 4 X /\ Np.matmul X X = Ok M /\ no_nonpositive_eigenvalue X.

End Spectral.

(** The library routine, given the product [A @ B], returns its principal
    square root. *)
Definition principal_on_product (core : mat -> sqrtm_core) (A B : mat) : Prop :=
  forall P, Np.matmul A B = Ok P -> Spectral.principal_root P (root (core P)).

(** The principal square root as a function: a principal root of [M] when
    there is one. *)
Definition sqrtm_ideal (M : mat) : sqrtm_core :=
  SqrtmCore (epsilon (inhabits []) (Spectral.principal_root M)) 0 false.


(** ** Polynomials in a matrix

    The principal square root of a matrix M with four positive eigenvalues
    l1 < l2 < l3 < l4 is p(M) for the cubic p with p(l_k) = sqrt(l_k). *)

Module MatrixPoly.

Import Spectral.

Record cubic : Type := Cubic { k0 : R; k1 : R; k2 : R; k3 : R }.

Definition eval (p : cubic) (t : R) : R :=
  k0 p + k1 p * t + k2 p * t ^ 2 + k3 p * t ^ 3.

Definition quartic (s1 s2 s3 s4 u : R) : R :=
  u ^ 4 - s1 * u ^ 3 + s2 * u ^ 2 - s3 * u + s4.

(** The cubic through (l1, v1), ..., (l4, v4), by Lagrange's formula. *)
Definition lagrange (l1 l2 l3 l4 v1 v2 v3 v4 : R) : cubic :=
  let w1 := v1 / ((l1 - l2) * (l1 - l3) * (l1 - l4)) in
  let w2 := v2 / ((l2 - l1) * (l2 - l3) * (l2 - l4)) in
  let w3 := v3 / ((l3 - l1) * (l3 - l2) * (l3 - l4)) in
  let w4 := v4 / ((l4 - l1) * (l4 - l2) * (l4 - l3)) in
  Cubic (- (w1 * (l2 * l3 * l4) + w2 * (l1 * l3 * l4)
            + w3 * (l1 * l2 * l4) + w4 * (l1 * l2 * l3)))
        (w1 * (l2 * l3 + l2 * l4 + l3 * l4) + w2 * (l1 * l3 + l1 * l4 + l3 * l4)
         + w3 * (l1 * l2 + l1 * l4 + l2 * l4) + w4 * (l1 * l2 + l1 * l3 + l2 * l3))
        (- (w1 * (l2 + l3 + l4) + w2 * (l1 + l3 + l4)
            + w3 * (l1 + l2 + l4) + w4 * (l1 + l2 + l3)))
        (w1 + w2 + w3 + w4).

(** The cubic that takes each of l1, ..., l4 to its square root. *)
Definition root_cubic (l1 l2 l3 l4 : R) : cubic :=
  lagrange l1 l2 l3 l4 (sqrt l1) (sqrt l2) (sqrt l3) (sqrt l4).

(** The product of two cubics modulo the quartic with coefficients
    s1, ..., s4. *)
Definition mulmod (s1 s2 s3 s4 : R) (g h : cubic) : cubic :=
  let p0 := k0 g * k0 h in
  let p1 := k0 g * k1 h + k1 g * k0 h in
  let p2 := k0 g * k2 h + k1 g * k1 h + k2 g * k0 h in
  let p3 := k0 g * k3 h + k1 g * k2 h + k2 g * k1 h + k3 g * k0 h in
  let p4 := k1 g * k3 h + k2 g * k2 h + k3 g * k1 h in
  let p5 := k2 g * k3 h + k3 g * k2 h in
  let p6 := k3 g * k3 h in
  let a5 := s1 * s1 - s2 in
  let b5 := s3 - s1 * s2 in
  let c5 := s1 * s3 - s4 in
  let d5 := - (s1 * s4) in
  Cubic (p0 - p4 * s4 + p5 * d5 + p6 * (- (a5 * s4)))
        (p1 + p4 * s3 + p5 * c5 + p6 * (a5 * s3 + d5))
        (p2 - p4 * s2 + p5 * b5 + p6 * (c5 - a5 * s2))
        (p3 + p4 * s1 + p5 * a5 + p6 * (a5 * s1 + b5)).

(** p(M), from the entries of M, M^2 and M^3. *)
Definition poly_at (T1 T2 T3 : mat) (p : cubic) (i j : nat) : R :=
  k0 p * diag 1 i j + k1 p * Np.entry T1 i j + k2 p * Np.entry T2 i j
  + k3 p * Np.entry T3 i j.

End MatrixPoly.
(** The characteristic polynomial of sigma_real @ sigma1. *)
Definition chi_1 (u : R) : R :=
  u ^ 4 - 0.4208 * u ^ 3 + 0.04511966 * u ^ 2
  - 0.001357336 * u + 0.0000117775940625.

(** The square and the cube of sigma_real @ sigma1. *)
Definition square_1 : mat :=
  [[0.03120941; 0.0139624; 0.0151018; 0.0071726];
   [0.0306084; 0.01768625; 0.021604; 0.0103983];
   [0.0289198; 0.020784; 0.03110125; 0.0148634];
   [0.0126264; 0.0092208; 0.0136584; 0.00683641]].

Definition cube_1 : mat :=
  [[0.007464586589; 0.00387418006; 0.00468578827; 0.00224117711];
   [0.00829338726; 0.004712127625; 0.0060314231; 0.002894449495];
   [0.00912490037; 0.0056977071; 0.007789191125; 0.00374350071];
   [0.00401451364; 0.00251638352; 0.00344179376; 0.001659210789]].

(** The characteristic polynomial of sigma_real @ sigma2. *)
Definition chi_2 (u : R) : R :=
  u ^ 4 - 0.3404 * u ^ 3 + 0.03076604 * u ^ 2
  - 0.0010221946 * u + 0.00001122201.

(** The square and the cube of sigma_real @ sigma2. *)
Definition square_2 : mat :=
  [[0.01213654; 0.0118677; 0.0088722; 0.0046644];
   [0.0149971; 0.0199115; 0.014779; 0.0082442];
   [0.0140042; 0.0196415; 0.0170265; 0.0096301];
   [0.0062035; 0.0091822; 0.0078397; 0.00526554]].

Definition cube_2 : mat :=
  [[0.002272118608; 0.00268957249; 0.00209158339; 0.00115791897];
   [0.00334399892; 0.00427251655; 0.00334756505; 0.00188541019];
   [0.00336822484; 0.0044218918; 0.0035702838; 0.00203200472];
   [0.0015523432; 0.00206958369; 0.00167421519; 0.000976268058]].

(** ** The script on other arrays

    The three lines the script prints once both distances are computed. *)

Definition script_lines (fid1 fid2 : R) : list string :=
  [ ("FID between Real and Fake Set I: " ++ format_4f fid1)%string;
    ("FID between Real and Fake Set II: " ++ format_4f fid2)%string;
    String newline (Test2b.verdict fid1 fid2) ].

(** [np.diag(d)]: the square matrix with [d] on its diagonal. *)
Definition diag_of (d : vec) : mat :=
  map (fun i => map (fun j => if (i =? j)%nat then nth i d 0 else 0)
                    (seq 0 (length d)))
      (seq 0 (length d)).

(** In exact arithmetic: on a diagonal matrix with non-negative entries the
    routine returns the entrywise roots, the principal square root there. *)
Definition principal_on_diagonal (core : mat -> sqrtm_core) : Prop :=
  forall d, Forall (fun x => 0 <= x) d ->
            root (core (diag_of d)) = diag_of (map sqrt d).

(** Worlds to run on: two equal fake sets, and a one-element second mean
    next to its stretched copy. *)
Definition tie_world : world :=
  World [ [1; 2]; [0; 0]; [0; 0] ] [ [ [4; 0]; [0; 9] ]; identity2; identity2 ] [].

Definition stretch_world : world :=
  World [ [1; 2]; [3]; [3; 3] ] [ [ [4; 0]; [0; 9] ]; identity2 ] [].

(** ** [print_tensor_info] of the training notebook *)

Module Inspect.

(** What the function reads of a tensor: [str] of its dtype and of its
    device, its shape and its [requires_grad] flag. *)
Record tensor_info : Type := TensorInfo {
  shape : list nat;
  dtype : string;
  device : string;
  requires_grad : bool
}.

(** A Python object: a [torch.Tensor] (or an instance of a subclass), or
    anything else, of which only [type(obj).__name__] matters. *)
Inductive object : Type :=
| Tensor (t : tensor_info)
| Other (type_name : string).

Definition isinstance_Tensor (o : object) : bool :=
  match o with Tensor _ => true | Other _ => false end.

Definition type_name_of (o : object) : string :=
  match o with Tensor _ => "Tensor" | Other n => n end.

(** [obj.field]: only tensors have the four attributes. *)
Definition getattr {A} (field : string) (proj : tensor_info -> A)
    (o : object) : Py A :=
  match o with
  | Tensor t => ret (proj t)
  | Other n =>
      raise (AttributeError ("'" ++ n ++ "' object has no attribute '"
                             ++ field ++ "'"))
  end.

Definition str_nat (n : nat) : string := NilZero.string_of_uint (Nat.to_uint n).

Fixpoint join (sep : string) (l : list string) : string :=
  match l with
  | [] => ""
  | [s] => s
  | s :: l' => s ++ sep ++ join sep l'
  end.

(** [str(tensor.shape)], as in torch.Size([1, 16, 16]) *)
Definition str_Size (shape : list nat) : string :=
  "torch.Size([" ++ join ", " (map str_nat shape) ++ "])".

Definition str_bool (b : bool) : string := if b then "True" else "False".

(** [n * s] for a string [s] *)
Fixpoint str_times (n : nat) (s : string) : string :=
  match n with
  | O => ""
  | S k => s ++ str_times k s
  end.

Definition print_tensor_info (name : string) (tensor : object) : Py unit :=
  print name ;;;
  print (str_times 20 "-") ;;;
  if negb (isinstance_Tensor tensor) then
    print ("It is " ++ type_name_of tensor ++ "!") ;;;
    print (str_times 20 "=" ++ String newline "") ;;;
    ret tt
  else
    shape <- getattr "shape" shape tensor ;;
    print ("shape: " ++ str_Size shape) ;;;
    dtype <- getattr "dtype" dtype tensor ;;
    print ("dtype: " ++ dtype) ;;;
    device <- getattr "device" device tensor ;;
    print ("device: " ++ device) ;;;
    requires_grad <- getattr "requires_grad" requires_grad tensor ;;
    print ("requires_grad: " ++ str_bool requires_grad) ;;;
    print (str_times 20 "=" ++ String newline "").

End Inspect.

(** ** The data viewer of the training notebook (class ImageDataViz)

    The viewer is an object with the attributes [data], [n_samples] and
    [index] once constructed, and [fig], [ax] and [img] only once [show]
    has run.  The widgets and the plot are the libraries'; of matplotlib the
    title, the axis switch and the array held by the image are kept. *)

Module Viz.

Inductive exception : Type :=
| IndexError (msg : string)
| AttributeError (msg : string)
| TraitError (msg : string).

Inductive result (A : Type) : Type :=
| Return (a : A)
| Raised (e : exception).

Arguments Return {A} a.
Arguments Raised {A} e.

(** An array: its shape and the entry at each index. *)
Record ndarray : Type := NdArray {
  shape : list nat;
  at_index : list nat -> R
}.

(** [x.moveaxis(0, -1)]: the first axis becomes the last one. *)
Definition moveaxis_0_last (x : ndarray) : ndarray :=
  match shape x with
  | [] => x
  | d :: rest =>
      NdArray (rest ++ [d])
              (fun idx => at_index x (last idx 0%nat :: removelast idx))
  end.

(** The index in the array before [squeeze] of the entry at [idx] after. *)
Fixpoint unsqueezed (shape idx : list nat) : list nat :=
  match shape with
  | [] => []
  | d :: shape' =>
      if (d =? 1)%nat then 0%nat :: unsqueezed shape' idx
      else match idx with
           | i :: idx' => i :: unsqueezed shape' idx'
           | [] => []
           end
  end.

(** [x.squeeze()]: every axis of length 1 is removed. *)
Definition squeeze (x : ndarray) : ndarray :=
  NdArray (filter (fun d => negb (d =? 1)%nat) (shape x))
          (fun idx => at_index x (unsqueezed (shape x) idx)).

(** [x.numpy()] keeps shape and entries. *)
Definition numpy (x : ndarray) : ndarray := x.

(** [seq[i]] for a Python sequence: a negative index counts from the end,
    an index out of range raises.  torchvision's USPS indexes its samples
    this way. *)
Definition getitem {A} (l : list A) (i : Z) : result A :=
  let n := Z.of_nat (length l) in
  let k := if (i <? 0)%Z then (i + n)%Z else i in
  if ((0 <=? k) && (k <? n))%Z
  then match nth_error l (Z.to_nat k) with
       | Some a => Return a
       | None => Raised (IndexError "index out of range")
       end
  else Raised (IndexError "index out of range").

(** [f'{y}'] for an int *)
Definition str_int (y : Z) : string := NilZero.string_of_int (Z.to_int y).

Record axes : Type := Axes {
  title : string;
  axis_on : bool
}.

Record slider : Type := Slider {
  value : Z;
  min : Z;
  max : Z;
  step : Z;
  description : string
}.

Record ImageDataViz : Type := Object {
  data : list (ndarray * Z);
  n_samples : Z;
  index : slider;
  fig : option unit;
  ax : option axes;
  img : option ndarray
}.

(** A method: it returns or raises, and leaves the object behind. *)
Definition Method (A : Type) : Type := ImageDataViz -> result A * ImageDataViz.

Definition mret {A} (a : A) : Method A := fun self => (Return a, self).

Definition mbind {A B} (m : Method A) (k : A -> Method B) : Method B :=
  fun self => match m self with
              | (Return a, self') => k a self'
              | (Raised e, self') => (Raised e, self')
              end.

Declare Scope viz_scope.
Notation "x <- m ;; k" := (mbind m (fun x => k))
  (at level 61, m at next level, right associativity) : viz_scope.
Notation "' pat <- m ;; k" := (mbind m (fun x => match x with pat => k end))
  (at level 61, pat pattern, m at next level, right associativity) : viz_scope.
Notation "m ;;; k" := (mbind m (fun _ => k))
  (at level 61, right associativity) : viz_scope.
Local Open Scope viz_scope.

Definition no_attribute (name : string) : exception :=
  AttributeError ("'ImageDataViz' object has no attribute '" ++ name ++ "'").

(** [self.data[i]] *)
Definition data_getitem (i : Z) : Method (ndarray * Z) :=
  fun self => (getitem (data self) i, self).

(** [self.index] *)
Definition get_index : Method slider := fun self => (Return (index self), self).

(** [self.img.set_data(image)] *)
Definition img_set_data (image : ndarray) : Method unit :=
  fun self =>
    match img self with
    | Some _ => (Return tt,
                 Object (data self) (n_samples self) (index self) (fig self)
                        (ax self) (Some image))
    | None => (Raised (no_attribute "img"), self)
    end.

(** [self.ax.set_title(t)] *)
Definition ax_set_title (t : string) : Method unit :=
  fun self =>
    match ax self with
    | Some a => (Return tt,
                 Object (data self) (n_samples self) (index self) (fig self)
                        (Some (Axes t (axis_on a))) (img self))
    | None => (Raised (no_attribute "ax"), self)
    end.

(** [self.fig, self.ax = plt.subplots()]: a new figure with empty axes. *)
Definition subplots : Method unit :=
  fun self => (Return tt,
               Object (data self) (n_samples self) (index self) (Some tt)
                      (Some (Axes "" true)) (img self)).

(** [self.img = self.ax.imshow(image)] *)
Definition ax_imshow (image : ndarray) : Method unit :=
  fun self =>
    match ax self with
    | Some _ => (Return tt,
                 Object (data self) (n_samples self) (index self) (fig self)
                        (ax self) (Some image))
    | None => (Raised (no_attribute "ax"), self)
    end.

(** [self.ax.axis('off')] *)
Definition ax_axis_off : Method unit :=
  fun self =>
    match ax self with
    | Some a => (Return tt,
                 Object (data self) (n_samples self) (index self) (fig self)
                        (Some (Axes (title a) false)) (img self))
    | None => (Raised (no_attribute "ax"), self)
    end.

Definition update (index : Z) : Method unit :=
  '(x, y) <- data_getitem index ;;
  let image := numpy (squeeze (moveaxis_0_last x)) in
  img_set_data image ;;;
  ax_set_title ("Label: " ++ str_int y).

Section Widgets.

(** [widgets.IntSlider(value=, min=, max=, step=, description=)] and
    [widgets.interact(f, index=slider)] are ipywidgets'. *)
Variable IntSlider : Z -> Z -> Z -> Z -> string -> result slider.
Variable interact : (Z -> Method unit) -> slider -> Method unit.

Definition init (data : list (ndarray * Z)) : result ImageDataViz :=
  let n_samples := Z.of_nat (length data) in
  match IntSlider 0 0 (n_samples - 1) 1 "Index" with
  | Return index => Return (Object data n_samples index None None None)
  | Raised e => Raised e
  end.

Definition show : Method unit :=
  subplots ;;;
  '(x, y) <- data_getitem 0 ;;
  let image := numpy (squeeze (moveaxis_0_last x)) in
  ax_imshow image ;;;
  ax_axis_off ;;;
  ax_set_title ("Label: " ++ str_int y) ;;;
  index <- get_index ;;
  interact update index.

End Widgets.

(** The user drags the slider through the positions [positions]: each one
    becomes the slider's value and calls [update]. *)
Definition slide_to (i : Z) : Method unit :=
  fun self =>
    let s := index self in
    (Return tt,
     Object (data self) (n_samples self)
            (Slider i (min s) (max s) (step s) (description s))
            (fig self) (ax self) (img self)).

Fixpoint drag (positions : list Z) : Method unit :=
  match positions with
  | [] => mret tt
  | i :: positions' => slide_to i ;;; update i ;;; drag positions'
  end.

(** What the documentation of ipywidgets says of the two library calls, as
    far as the viewer relies on it: a slider built on a non-empty range has
    that range, and [interact] renders once, with the slider's value. *)
Definition slider_range_kept
    (IntSlider : Z -> Z -> Z -> Z -> string -> result slider) : Prop :=
  forall v lo hi st d, (lo <= v <= hi)%Z ->
    IntSlider v lo hi st d = Return (Slider v lo hi st d).

Definition renders_once
    (interact : (Z -> Method unit) -> slider -> Method unit) : Prop :=
  forall f s self self',
    f (value s) self = (Return tt, self') ->
    interact f s self = (Return tt, self').

(** The object shows sample number [i] of its data. *)
Definition displays (self : ImageDataViz) (i : nat) : Prop :=
  exists x y,
    nth_error (data self) i = Some (x, y) /\
    img self = Some (numpy (squeeze (moveaxis_0_last x))) /\
    ax self = Some (Axes ("Label: " ++ str_int y) false).

(** Library calls to run the viewer on. *)
Definition int_slider (v lo hi st : Z) (d : string) : result slider :=
  if (hi <? lo)%Z then Raised (TraitError "setting max < min")
  else Return (Slider (Z.max lo (Z.min v hi)) lo hi st d).

Definition interact_once (f : Z -> Method unit) (s : slider) : Method unit :=
  f (value s).

(** Two grayscale 2 x 2 images, labelled 7 and 3. *)
Definition gray (v : R) : ndarray := NdArray [1; 2; 2]%nat (fun _ => v).

Definition two_samples : list (ndarray * Z) := [ (gray 0, 7%Z); (gray 1, 3%Z) ].

End Viz.

(** ** More of the training loops *)

(** The batches the loader yields on its k-th pass. *)
Definition batches_of {input label : Type}
    (permutation : nat -> list (input * label) -> list (input * label))
    (loader : Week2.DataLoader input label) (k : nat)
    : list (list (input * label)) :=
  Torch.batch_sampler (Week2.batch_size loader) (Week2.drop_last loader) []
    (if Week2.shuffle loader then permutation k (Week2.dataset loader)
     else Week2.dataset loader).

(** The sum over the batches of (batch loss * batch size). *)
Definition weighted_total (losses : list R) (sizes : list nat) : R :=
  Np.sum (Np.zip_with (fun l k => l * INR k) losses sizes).

(** The call [train] makes to the scheduler at the end of an epoch whose
    running average is [metric]. *)
Definition scheduler_call {sched : Type} (is_plateau : sched -> bool)
    (lr_scheduler : option sched) (metric : R) : list event :=
  match lr_scheduler with
  | Some sc => if is_plateau sc then [EvScheduler (Some metric)]
               else [EvScheduler None]
  | None => []
  end.

(** [isinstance(lr_scheduler, ReduceLROnPlateau)] does not change when the
    scheduler is stepped. *)
Definition class_kept {sched opt : Type} (is_plateau : sched -> bool)
    (plateau_step : sched -> R -> opt -> sched * opt)
    (plain_step : sched -> opt -> sched * opt) : Prop :=
  (forall sc m o, is_plateau (fst (plateau_step sc m o)) = is_plateau sc) /\
  (forall sc o, is_plateau (fst (plain_step sc o)) = is_plateau sc).

(** An epoch whose batches have the sizes [sizes] reports the mean of its
    batch losses weighted by batch size, over [N] samples in all. *)
Definition exact_average (N B : nat) (ep : epoch_log) : Prop :=
  exists sizes : list nat,
    length sizes = length (losses ep) /\
    list_sum sizes = N /\
    Forall (fun k => (0 < k <= B)%nat) sizes /\
    reported ep = weighted_total (losses ep) sizes / INR N.

Module ToyRun2.

Import Torch Week2.

(** A scheduler for the toy run: a flag that says whether it is a
    ReduceLROnPlateau, and the metrics it was given. *)
Definition scheduler : Type := (bool * list R)%type.

Definition is_plateau (sc : scheduler) : bool := fst sc.

Definition plateau_step (sc : scheduler) (metric : R) (o : SGD)
    : scheduler * SGD := ((fst sc, snd sc ++ [metric]), o).

Definition plain_step (sc : scheduler) (o : SGD) : scheduler * SGD := (sc, o).

Definition train_epoch : DataLoader R R -> St (session SGD scheduler) unit :=
  Week2.train_epoch Toy.cast Toy.cast Toy.network Toy.criterion Toy.autograd
                    sgd_step Toy.no_shuffle.

Definition train : DataLoader R R -> nat -> St (session SGD scheduler) unit :=
  Week2.train Toy.cast Toy.cast Toy.network Toy.criterion Toy.autograd
              sgd_step is_plateau plateau_step plain_step Toy.no_shuffle.

(** Three samples of y = 2 x in batches of two, nothing dropped; the same
    in batches of four with the incomplete batch dropped; and no sample at
    all. *)
Definition loader_all : DataLoader R R :=
  Loader [ (1, 2); (2, 4); (3, 6) ] 2 false false.

Definition loader_small : DataLoader R R :=
  Loader [ (1, 2); (2, 4); (3, 6) ] 4 false true.

Definition loader_empty : DataLoader R R := Loader [] 2 false false.

Definition start : session SGD scheduler :=
  Session [ Param [1] None ] (optim_SGD 0.001) (Some (true, [])) false 0 [].

(** The same session with a gradient left over on the weight. *)
Definition start_stale : session SGD scheduler :=
  Session [ Param [1] (Some [100]) ] (optim_SGD 0.001) (Some (true, []))
          false 0 [].

(** A session without scheduler whose model is in training mode. *)
Definition start_training : session SGD scheduler :=
  Session [ Param [1] None ] (optim_SGD 0.001) None true 0 [].

End ToyRun2.

(** From [s] to [s'] the model's mode is untouched and [model.train()] is
    not among the calls made. *)
Definition keeps_mode {opt sched : Type} (s s' : Week2.session opt sched)
    : Prop :=
  Week2.training s' = Week2.training s /\
  exists calls,
    Week2.events s' = Week2.events s ++ calls /\ ~ In EvTrainMode calls.

(** ** [calculate_fid] on binary64 numbers

    The arrays of the script hold IEEE 754 binary64 numbers.  This is the
    body of [calculate_fid] once more, operator by operator as in
    [Test2b.fid_value], with every arithmetic operation rounded as the
    hardware rounds it.  Sums are accumulated from left to right; on the
    one-element arrays used below the order of a sum does not matter. *)

Module F64.

Import Floats.

Local Open Scope float_scope.

Definition subtract1 : list float -> list float -> outcome (list float) :=
  Np.broadcast (fun x y => Ok (x - y)).

Definition elementwise2 (f : float -> float -> float)
    : list (list float) -> list (list float) -> outcome (list (list float)) :=
  Np.broadcast (Np.broadcast (fun x y => Ok (f x y))).

Definition add2 := elementwise2 PrimFloat.add.
Definition subtract2 := elementwise2 PrimFloat.sub.

(** [a ** 2] *)
Definition square1 (v : list float) : list float := map (fun x => x * x) v.

(** [c * M] for a Python number [c] *)
Definition scale2 (c : float) (M : list (list float)) : list (list float) :=
  map (map (PrimFloat.mul c)) M.

(** [np.sum] of a 1-D array *)
Definition sum (v : list float) : float := fold_left PrimFloat.add v 0.

Fixpoint diagonal_from (i : nat) (M : list (list float)) : list float :=
  match M with
  | [] => []
  | row :: M' => nth i row 0 :: diagonal_from (S i) M'
  end.

(** [np.trace] *)
Definition trace (M : list (list float)) : float := sum (diagonal_from 0 M).

Definition dot (u v : list float) : float := sum (Np.zip_with PrimFloat.mul u v).

Fixpoint columns (c : nat) (M : list (list float)) : list (list float) :=
  match c with
  | O => []
  | S c' => map (hd 0) M :: columns c' (map (@tl float) M)
  end.

(** [A @ B] *)
Definition matmul (A B : list (list float)) : outcome (list (list float)) :=
  if (length (hd [] A) =? length B)%nat
  then Ok (map (fun row => map (dot row) (columns (length (hd [] B)) B)) A)
  else Raise Np.matmul_error.

Definition squareb (M : list (list float)) : bool :=
  forallb (fun row => length row =? length M)%nat M.

Section Script.

(** The numerical core of [scipy.linalg.sqrtm], on binary64 matrices. *)
Variable scipy_sqrtm : list (list float) -> list (list float).

(** [covmean, _ = sqrtm(a, disp=False)] *)
Definition sqrtm (a : list (list float)) : outcome (list (list float)) :=
  if squareb a then Ok (scipy_sqrtm a) else Raise sqrtm_shape_error.

Definition calculate_fid (real_mu : list float) (real_sigma : list (list float))
    (x_mu : list float) (x_sigma : list (list float)) : outcome float :=
  obind (subtract1 real_mu x_mu) (fun diff =>
  let mean_diff := sum (square1 diff) in
  obind (matmul real_sigma x_sigma) (fun prod =>
  obind (sqrtm prod) (fun covmean =>
  obind (add2 real_sigma x_sigma) (fun s =>
  obind (subtract2 s (scale2 2 covmean)) (fun d =>
  let fid := mean_diff + trace d in
  Ok fid))))).

End Script.

(** On a diagonal matrix with non-negative entries, a 1 x 1 matrix among
    them, the Schur form is the matrix itself and [sqrtm] takes the square
    roots of the diagonal entries, each correctly rounded. *)
Definition sqrtm_diagonal (M : list (list float)) : list (list float) :=
  map (map PrimFloat.sqrt) M.

(** A variance so small that its square underflows to zero, and two
    variances close to 3/2. *)
Definition tiny : float := 0x1p-600.
Definition variance_a : float := 0x1.8000000000058p+0.
Definition variance_b : float := 0x1.8000000000051p+0.

End F64.
(** ** Running heap programs: frames and simulation by values *)

Lemma extends_refl w : extends w w.
Proof. exists [], []. now rewrite !app_nil_r. Qed.

Lemma extends_trans w1 w2 w3 : extends w1 w2 -> extends w2 w3 -> extends w1 w3.
Proof.
  intros (nv & nm & Hv & Hm & Ho) (nv' & nm' & Hv' & Hm' & Ho').
  exists (nv ++ nv'), (nm ++ nm').
  rewrite Hv', Hm', Ho', Hv, Hm, Ho, !app_assoc. auto.
Qed.

Lemma nth_error_app_some {A} (l l' : list A) i x :
  nth_error l i = Some x -> nth_error (l ++ l') i = Some x.
Proof.
  intros H. rewrite nth_error_app1; auto.
  apply nth_error_Some. congruence.
Qed.

Lemma vec_at_extends w w' r v : extends w w' -> vec_at w r v -> vec_at w' r v.
Proof.
  intros (nv & nm & Hv & _) H. unfold vec_at. rewrite Hv.
  now apply nth_error_app_some.
Qed.

Lemma mat_at_extends w w' r M : extends w w' -> mat_at w r M -> mat_at w' r M.
Proof.
  intros (nv & nm & _ & Hm & _) H. unfold mat_at. rewrite Hm.
  now apply nth_error_app_some.
Qed.

Lemma sim_bind {A V B U} (m : Py A) (k : A -> Py B) w (o : outcome V)
    (f : V -> outcome U) rel rel' :
  sim m w o rel ->
  (forall w' a v, o = Ok v -> extends w w' -> rel w' a v ->
                  sim (k a) w' (f v) rel') ->
  sim (bind m k) w (obind o f) rel'.
Proof.
  intros (w1 & E1 & H1) Hk. destruct o as [v|e]; simpl.
  - destruct H1 as (a & Hm & Hr).
    destruct (Hk w1 a v eq_refl E1 Hr) as (w2 & E2 & H2).
    exists w2. split; [eapply extends_trans; eauto|].
    unfold bind. rewrite Hm. exact H2.
  - exists w1. split; auto. unfold bind. now rewrite H1.
Qed.

Lemma sim_ret {A} (a : A) w : sim (ret a) w (Ok a) (@same A).
Proof. exists w. split; [apply extends_refl|]. exists a. now split. Qed.

Lemma sim_lift {A} (o : outcome A) w : sim (lift o) w o (@same A).
Proof.
  exists w. split; [apply extends_refl|]. destruct o; auto.
  exists a. now split.
Qed.

Lemma sim_get_vec w r v : vec_at w r v -> sim (get_vec r) w (Ok v) (@same _).
Proof.
  intros H. exists w. split; [apply extends_refl|]. exists v.
  unfold get_vec. rewrite H. now split.
Qed.

Lemma sim_get_mat w r M : mat_at w r M -> sim (get_mat r) w (Ok M) (@same _).
Proof.
  intros H. exists w. split; [apply extends_refl|]. exists M.
  unfold get_mat. rewrite H. now split.
Qed.

Lemma sim_new_vec w v : sim (new_vec v) w (Ok v) vec_at.
Proof.
  exists (World (vecs w ++ [v]) (mats w) (out w)). split.
  - exists [v], []. simpl. now rewrite app_nil_r.
  - exists (length (vecs w)). split; auto.
    unfold vec_at; simpl. rewrite nth_error_app2, Nat.sub_diag; auto.
Qed.

Lemma sim_new_mat w M : sim (new_mat M) w (Ok M) mat_at.
Proof.
  exists (World (vecs w) (mats w ++ [M]) (out w)). split.
  - exists [], [M]. simpl. now rewrite app_nil_r.
  - exists (length (mats w)). split; auto.
    unfold mat_at; simpl. rewrite nth_error_app2, Nat.sub_diag; auto.
Qed.

(** One lemma per numpy operator: on references to [u], [v] it behaves as
    the value-level operator on [u], [v]. *)
Section OperatorSim.

Variable w : world.

Ltac run_gets :=
  unfold bind, get_vec, get_mat, lift, ret;
  repeat match goal with
         | H : vec_at w _ _ |- _ => unfold vec_at in H; rewrite H
         | H : mat_at w _ _ |- _ => unfold mat_at in H; rewrite H
         end.

Ltac fresh_vec v :=
  exists (World (vecs w ++ [v]) (mats w) (out w)); split;
  [ exists [v], []; simpl; now rewrite app_nil_r
  | exists (length (vecs w)); split; auto;
    unfold vec_at; simpl; rewrite nth_error_app2, Nat.sub_diag; auto ].

Ltac fresh_mat M :=
  exists (World (vecs w) (mats w ++ [M]) (out w)); split;
  [ exists [], [M]; simpl; now rewrite app_nil_r
  | exists (length (mats w)); split; auto;
    unfold mat_at; simpl; rewrite nth_error_app2, Nat.sub_diag; auto ].

Ltac no_alloc := exists w; split; [apply extends_refl|]; auto.

Lemma sim_subtract1 a b u v :
  vec_at w a u -> vec_at w b v ->
  sim (NpRef.subtract1 a b) w (Np.subtract1 u v) vec_at.
Proof.
  intros Ha Hb. unfold sim, NpRef.subtract1. run_gets.
  destruct (Np.subtract1 u v) as [d|e]; [fresh_vec d | no_alloc].
Qed.

Lemma sim_subtract2 a b A B :
  mat_at w a A -> mat_at w b B ->
  sim (NpRef.subtract2 a b) w (Np.subtract2 A B) mat_at.
Proof.
  intros Ha Hb. unfold sim, NpRef.subtract2. run_gets.
  destruct (Np.subtract2 A B) as [D|e]; [fresh_mat D | no_alloc].
Qed.

Lemma sim_add2 a b A B :
  mat_at w a A -> mat_at w b B ->
  sim (NpRef.add2 a b) w (Np.add2 A B) mat_at.
Proof.
  intros Ha Hb. unfold sim, NpRef.add2. run_gets.
  destruct (Np.add2 A B) as [D|e]; [fresh_mat D | no_alloc].
Qed.

Lemma sim_matmul a b A B :
  mat_at w a A -> mat_at w b B ->
  sim (NpRef.matmul a b) w (Np.matmul A B) mat_at.
Proof.
  intros Ha Hb. unfold sim, NpRef.matmul. run_gets.
  destruct (Np.matmul A B) as [D|e]; [fresh_mat D | no_alloc].
Qed.

Lemma sim_square1 a u :
  vec_at w a u -> sim (NpRef.square1 a) w (Ok (Np.square1 u)) vec_at.
Proof.
  intros Ha. unfold sim, NpRef.square1. run_gets. fresh_vec (Np.square1 u).
Qed.

Lemma sim_scale2 c a A :
  mat_at w a A -> sim (NpRef.scale2 c a) w (Ok (Np.scale2 c A)) mat_at.
Proof.
  intros Ha. unfold sim, NpRef.scale2. run_gets. fresh_mat (Np.scale2 c A).
Qed.

Lemma sim_sum a u :
  vec_at w a u -> sim (NpRef.sum a) w (Ok (Np.sum u)) (@same R).
Proof.
  intros Ha. unfold sim, NpRef.sum. run_gets. no_alloc.
  exists (Np.sum u). now split.
Qed.

Lemma sim_trace a A :
  mat_at w a A -> sim (NpRef.trace a) w (Ok (Np.trace A)) (@same R).
Proof.
  intros Ha. unfold sim, NpRef.trace. run_gets. no_alloc.
  exists (Np.trace A). now split.
Qed.

(** [sqrtm(a, disp=False)]: the root of the contents of [a] (or the shape
    error), and nothing printed. *)
Lemma sim_sqrtm_quiet core a A :
  mat_at w a A ->
  sim (Test2b.sqrtm core a false) w (Test2b.sqrtm_value core A)
      (fun w' r X => mat_at w' (fst r) X).
Proof.
  intros Ha. unfold sim, Test2b.sqrtm, Test2b.sqrtm_value. run_gets.
  destruct (Np.squareb A).
  - unfold new_mat.
    exists (World (vecs w) (mats w ++ [root (core A)]) (out w)). split.
    + exists [], [root (core A)]. simpl. now rewrite app_nil_r.
    + eexists. split; [reflexivity|].
      unfold mat_at; simpl. rewrite nth_error_app2, Nat.sub_diag; auto.
  - unfold raise. no_alloc.
Qed.

End OperatorSim.

Lemma sim_bind_ok {A V B U} (m : Py A) (k : A -> Py B) w (v : V)
    (o : outcome U) rel rel' :
  sim m w (Ok v) rel ->
  (forall w' a, extends w w' -> rel w' a v -> sim (k a) w' o rel') ->
  sim (bind m k) w o rel'.
Proof.
  intros H Hk.
  apply (@sim_bind A V B U m k w (Ok v) (fun _ => o) rel rel' H).
  intros w' a v' [= <-] E Hr. now apply Hk.
Qed.

(** Run on references to [a], [A], [b], [B], [calculate_fid] returns (or
    raises) what [fid_value] says, in a world that extends the initial one. *)
Lemma calculate_fid_sim core w rm rs xm xs a A b B :
  vec_at w rm a -> mat_at w rs A -> vec_at w xm b -> mat_at w xs B ->
  sim (Test2b.calculate_fid core rm rs xm xs) w
      (Test2b.fid_value core a A b B) (@same R).
Proof.
  intros Ha HA Hb HB. unfold Test2b.calculate_fid, Test2b.fid_value.
  eapply sim_bind; [now apply sim_subtract1|].
  intros w1 diff d _ E1 Hd.
  eapply sim_bind_ok; [apply sim_square1, Hd|]. intros w2 diff2 E2 Hd2.
  eapply sim_bind_ok; [apply sim_sum, Hd2|]. intros w3 mean_diff E3 ->.
  assert (E13 : extends w w3) by eauto using extends_trans.
  eapply sim_bind;
    [apply sim_matmul; eauto using mat_at_extends|].
  intros w4 prod P _ E4 HP.
  eapply sim_bind; [apply sim_sqrtm_quiet, HP|].
  intros w5 [covmean est] X _ E5 HX. simpl in HX.
  assert (E15 : extends w w5) by eauto using extends_trans.
  eapply sim_bind; [apply sim_add2; eauto using mat_at_extends|].
  intros w6 s S _ E6 HS.
  eapply sim_bind_ok;
    [apply sim_scale2; eauto using mat_at_extends|].
  intros w7 c2 E7 Hc2.
  eapply sim_bind; [apply sim_subtract2; eauto using mat_at_extends|].
  intros w8 dref D _ E8 HD.
  eapply sim_bind_ok; [apply sim_trace, HD|]. intros w9 tr E9 ->.
  apply sim_ret.
Qed.

(** ** Facts about the value-level numpy operators *)

Module NpFacts.

Import Np FidSpec.

Lemma big_sum_ext n f g :
  (forall i, (i < n)%nat -> f i = g i) -> big_sum n f = big_sum n g.
Proof.
  revert f g. induction n as [|n IH]; intros f g H; simpl; auto.
  rewrite (H O) by lia. f_equal. apply IH. intros i Hi. apply H. lia.
Qed.

Lemma big_sum_zero n f :
  (forall i, (i < n)%nat -> f i = 0) -> big_sum n f = 0.
Proof.
  revert f. induction n as [|n IH]; intros f H; simpl; auto.
  rewrite (H O) by lia. rewrite IH; [lra|]. intros i Hi. apply H. lia.
Qed.

Lemma zip_with_length {A B C} (f : A -> B -> C) u v :
  length u = length v -> length (zip_with f u v) = length u.
Proof.
  revert v. induction u as [|a u IH]; intros [|b v] H; simpl in *;
    try discriminate; auto.
Qed.

Lemma nth_zip_with {A B C} (f : A -> B -> C) u v i da db dc :
  (i < length u)%nat -> (i < length v)%nat ->
  nth i (zip_with f u v) dc = f (nth i u da) (nth i v db).
Proof.
  revert v i. induction u as [|a u IH]; intros [|b v] [|i]; simpl; try lia; auto.
  intros Hu Hv. apply IH; lia.
Qed.

Lemma zip_with_swap {A B C} (f : A -> B -> C) u v :
  zip_with f u v = zip_with (fun y x => f x y) v u.
Proof.
  revert v. induction u as [|a u IH]; intros [|b v]; simpl; auto.
  now rewrite IH.
Qed.

Lemma zip_with_ext {A B C} (f g : A -> B -> C) u v :
  (forall x y, f x y = g x y) -> zip_with f u v = zip_with g u v.
Proof.
  intros H. revert v. induction u as [|a u IH]; intros [|b v]; simpl; auto.
  now rewrite H, IH.
Qed.

Lemma map_ext_pointwise {A B} (f g : A -> B) l :
  (forall x, f x = g x) -> map f l = map g l.
Proof. intros H. induction l; simpl; auto. now rewrite H, IHl. Qed.

Lemma sequence_map_Ok {A B} (g : A -> B) l :
  sequence (map (fun x => Ok (g x)) l) = Ok (map g l).
Proof. induction l as [|x l IH]; simpl; auto. now rewrite IH. Qed.

Lemma sequence_zip_Ok {A B C} (g : A -> B -> C) u v :
  sequence (zip_with (fun x y => Ok (g x y)) u v) = Ok (zip_with g u v).
Proof.
  revert v. induction u as [|a u IH]; intros [|b v]; simpl; auto.
  now rewrite IH.
Qed.

(** *** Broadcasting *)

Lemma broadcast_ext {A B C} (f g : A -> B -> outcome C) u v :
  (forall x y, f x y = g x y) -> broadcast f u v = broadcast g u v.
Proof.
  intros H. unfold broadcast.
  rewrite (zip_with_ext f g u v H).
  destruct (length u =? length v)%nat; auto.
  destruct u as [|a [|a' u]], v as [|b [|b' v]]; auto;
    f_equal; apply map_ext_pointwise; intros; apply H.
Qed.

Lemma broadcast_swap {A B C} (f : A -> B -> outcome C) u v :
  broadcast f u v = broadcast (fun y x => f x y) v u.
Proof.
  unfold broadcast. rewrite (Nat.eqb_sym (length v)).
  destruct (length u =? length v)%nat eqn:E.
  - now rewrite zip_with_swap.
  - destruct u as [|a [|a' u]], v as [|b [|b' v]]; auto; discriminate.
Qed.

(** With equal lengths broadcasting is plain elementwise pairing. *)
Lemma elementwise1_same_length f (u v : vec) :
  length u = length v -> elementwise1 f u v = Ok (zip_with f u v).
Proof.
  intros H. unfold elementwise1, broadcast.
  rewrite (proj2 (Nat.eqb_eq _ _) H). apply sequence_zip_Ok.
Qed.

Lemma sequence_zip_rows f (A B : mat) c :
  Forall (fun row => length row = c) A ->
  Forall (fun row => length row = c) B ->
  sequence (zip_with (elementwise1 f) A B) = Ok (zip_with (zip_with f) A B).
Proof.
  intros HA. revert B. induction HA as [|ra A Hra HA IH]; intros [|rb B] HB;
    simpl; auto.
  inversion HB as [|? ? Hrb HB']; subst.
  rewrite elementwise1_same_length by congruence. simpl.
  now rewrite (IH B HB').
Qed.

Lemma elementwise2_same_shape f (A B : mat) r c :
  has_shape r c A -> has_shape r c B ->
  elementwise2 f A B = Ok (zip_with (zip_with f) A B).
Proof.
  intros [HlA HA] [HlB HB]. unfold elementwise2, broadcast.
  rewrite (proj2 (Nat.eqb_eq _ _)) by congruence.
  eapply sequence_zip_rows; eauto.
Qed.

(** *** Sums, columns and the matrix product *)

Lemma nth_map_in {A B} (g : A -> B) l i d d' :
  (i < length l)%nat -> nth i (map g l) d' = g (nth i l d).
Proof.
  intros H. rewrite (nth_indep (map g l) d' (g d)) by now rewrite length_map.
  apply map_nth.
Qed.

Lemma sum_zip_with f n (u v : vec) :
  length u = n -> length v = n ->
  sum (zip_with f u v) = big_sum n (fun k => f (nth k u 0) (nth k v 0)).
Proof.
  revert u v. induction n as [|n IH]; intros [|x u] [|y v]; simpl;
    try discriminate; auto.
  intros [= Hu] [= Hv]. f_equal. now apply IH.
Qed.

Lemma sum_map g (u : vec) :
  sum (map g u) = big_sum (length u) (fun k => g (nth k u 0)).
Proof. induction u as [|x u IH]; simpl; auto. now rewrite <- IH. Qed.

Lemma columns_length c (M : mat) : length (columns c M) = c.
Proof. revert M. induction c as [|c IH]; intros M; simpl; auto. Qed.

Lemma nth_columns c (M : mat) j :
  (j < c)%nat -> nth j (columns c M) [] = map (fun row => nth j row 0) M.
Proof.
  revert M j. induction c as [|c IH]; intros M [|j] H; simpl; try lia.
  - apply map_ext_pointwise. now intros [|x row].
  - rewrite IH by lia. rewrite map_map.
    apply map_ext_pointwise. intros [|x row]; simpl; auto. now destruct j.
Qed.

Lemma has_shape_row r c (M : mat) i :
  has_shape r c M -> (i < r)%nat -> length (nth i M []) = c.
Proof.
  intros [Hl HF] Hi. rewrite Forall_forall in HF. apply HF, nth_In. lia.
Qed.

Lemma square_ncols n (M : mat) : is_square n M -> (0 < n)%nat -> ncols M = n.
Proof.
  intros H Hn. unfold ncols.
  replace (hd [] M) with (nth 0 M []) by now destruct M.
  eapply has_shape_row; eauto.
Qed.

Lemma square_squareb n (M : mat) : is_square n M -> squareb M = true.
Proof.
  intros [Hl HF]. unfold squareb. apply forallb_forall. intros row Hin.
  rewrite Forall_forall in HF. apply Nat.eqb_eq. rewrite (HF row Hin). lia.
Qed.

Lemma product_square n A B : is_square n (product n A B).
Proof.
  split.
  - unfold product. now rewrite length_map, length_seq.
  - apply Forall_forall. intros row Hin. unfold product in Hin.
    apply in_map_iff in Hin. destruct Hin as (i & <- & _).
    now rewrite length_map, length_seq.
Qed.

(** On square matrices [@] is the matrix product of the textbook. *)
Lemma matmul_square n A B :
  is_square n A -> is_square n B -> matmul A B = Ok (product n A B).
Proof.
  intros HA HB. unfold matmul.
  destruct n as [|n].
  - destruct HA as [HlA _], HB as [HlB _].
    apply length_zero_iff_nil in HlA, HlB. now subst.
  - rewrite (square_ncols HA), (square_ncols HB) by lia.
    unfold nrows. rewrite (proj1 HB), Nat.eqb_refl. f_equal.
    apply (nth_ext _ _ [] []).
    + unfold product. rewrite !length_map, length_seq. apply HA.
    + rewrite length_map. intros i Hi. rewrite (proj1 HA) in Hi.
      rewrite nth_map_in with (d := []) by (rewrite (proj1 HA); lia).
      unfold product. rewrite nth_map_in with (d := O) by now rewrite length_seq.
      rewrite seq_nth, Nat.add_0_l by lia.
      apply (nth_ext _ _ 0 0).
      * now rewrite !length_map, columns_length, length_seq.
      * rewrite length_map, columns_length. intros j Hj.
        rewrite nth_map_in with (d := []) by now rewrite columns_length.
        rewrite nth_map_in with (d := O) by now rewrite length_seq.
        rewrite seq_nth, Nat.add_0_l by lia.
        rewrite nth_columns by lia. unfold dot.
        rewrite (@sum_zip_with Rmult (S n)).
        -- apply big_sum_ext. intros k Hk. unfold entry. f_equal.
           rewrite nth_map_in with (d := []); auto.
           rewrite (proj1 HB). lia.
        -- eapply has_shape_row; eauto.
        -- rewrite length_map. apply HB.
Qed.

(** *** Shapes and entries of elementwise results *)

Lemma zip_with2_shape f r c (A B : mat) :
  has_shape r c A -> has_shape r c B -> has_shape r c (zip_with (zip_with f) A B).
Proof.
  intros [HlA HA] [HlB HB]. split.
  - rewrite zip_with_length; congruence.
  - subst r. revert B HlB HB.
    induction HA as [|ra A Hra HA IH]; intros [|rb B] HlB HB; simpl;
      try discriminate; constructor.
    + inversion HB; subst. rewrite zip_with_length; congruence.
    + inversion HB; subst. apply IH; auto.
Qed.

Lemma scale2_shape k r c (M : mat) : has_shape r c M -> has_shape r c (scale2 k M).
Proof.
  intros [Hl HF]. split.
  - unfold scale2. now rewrite length_map.
  - apply Forall_forall. intros row Hin. unfold scale2 in Hin.
    apply in_map_iff in Hin. destruct Hin as (row' & <- & Hin').
    rewrite length_map. rewrite Forall_forall in HF. auto.
Qed.

Lemma entry_zip_with2 f r c (A B : mat) i j :
  has_shape r c A -> has_shape r c B -> (i < r)%nat -> (j < c)%nat ->
  entry (zip_with (zip_with f) A B) i j = f (entry A i j) (entry B i j).
Proof.
  intros HA HB Hi Hj. unfold entry.
  rewrite (nth_zip_with _ _ _ [] [] [])
    by (rewrite ?(proj1 HA), ?(proj1 HB); lia).
  apply nth_zip_with.
  - now rewrite (has_shape_row HA Hi).
  - now rewrite (has_shape_row HB Hi).
Qed.

Lemma entry_scale2 k r c (M : mat) i j :
  has_shape r c M -> (i < r)%nat -> (j < c)%nat ->
  entry (scale2 k M) i j = k * entry M i j.
Proof.
  intros HM Hi Hj. unfold entry, scale2.
  rewrite nth_map_in with (d := []) by (rewrite (proj1 HM); lia).
  apply nth_map_in. now rewrite (has_shape_row HM Hi).
Qed.

Lemma trace_from_big_sum i (M : mat) :
  trace_from i M = big_sum (length M) (fun k => entry M k (i + k)).
Proof.
  revert i. induction M as [|row M IH]; intros i; simpl; auto.
  unfold entry at 1. simpl. rewrite Nat.add_0_r. f_equal.
  rewrite IH. apply big_sum_ext. intros k _. unfold entry. simpl.
  now rewrite Nat.add_succ_r.
Qed.

Lemma trace_big_sum n (M : mat) :
  length M = n -> trace M = big_sum n (fun k => entry M k k).
Proof. intros <-. unfold trace. now rewrite trace_from_big_sum. Qed.

End NpFacts.

(** ** [fid_value] against the specification's formula *)

Module FidFacts.

Import Np FidSpec NpFacts.

Lemma map_zip_with {A B C D} (g : C -> D) (f : A -> B -> C) u v :
  map g (zip_with f u v) = zip_with (fun x y => g (f x y)) u v.
Proof.
  revert v. induction u as [|a u IH]; intros [|b v]; simpl; auto.
  now rewrite IH.
Qed.

Lemma broadcast_Ok_map {A B C D} (g : C -> D) (f : A -> B -> C) u v :
  broadcast (fun x y => Ok (g (f x y))) u v
  = omap (map g) (broadcast (fun x y => Ok (f x y)) u v).
Proof.
  unfold broadcast. destruct (length u =? length v)%nat.
  - rewrite !sequence_zip_Ok. simpl. now rewrite map_zip_with.
  - destruct u as [|a [|a' u]], v as [|b [|b' v]]; auto;
      rewrite ?(sequence_map_Ok (fun y => g (f a y))),
              ?(sequence_map_Ok (fun y => f a y)),
              ?(sequence_map_Ok (fun x => g (f x b))),
              ?(sequence_map_Ok (fun x => f x b)); simpl;
      now rewrite ?map_map.
Qed.

Lemma subtract1_swap (a b : vec) :
  subtract1 b a = omap (map Ropp) (subtract1 a b).
Proof.
  unfold subtract1, elementwise1.
  rewrite broadcast_swap, <- broadcast_Ok_map.
  apply broadcast_ext. intros x y. f_equal. lra.
Qed.

Lemma elementwise1_comm f (u v : vec) :
  (forall x y, f x y = f y x) -> elementwise1 f u v = elementwise1 f v u.
Proof.
  intros H. unfold elementwise1. rewrite broadcast_swap.
  apply broadcast_ext. intros x y. now rewrite H.
Qed.

Lemma add2_comm (A B : mat) : add2 A B = add2 B A.
Proof.
  unfold add2, elementwise2. rewrite broadcast_swap.
  apply broadcast_ext. intros x y. apply elementwise1_comm. intros; lra.
Qed.

Lemma sum_square1_opp (d : vec) :
  sum (square1 (map Ropp d)) = sum (square1 d).
Proof.
  unfold square1. rewrite map_map. f_equal.
  apply map_ext_pointwise. intros x. lra.
Qed.

(** Swapping the two distributions leaves the value unchanged as soon as
    the two products agree. *)
Lemma fid_value_swap core (a b : vec) (A B : mat) :
  matmul A B = matmul B A ->
  Test2b.fid_value core a A b B = Test2b.fid_value core b B a A.
Proof.
  intros H. unfold Test2b.fid_value.
  rewrite (subtract1_swap a b), <- H, (add2_comm B A).
  destruct (subtract1 a b) as [d|e]; simpl; auto.
  now rewrite sum_square1_opp.
Qed.

Lemma sum_square1_distance (a b : vec) :
  length a = length b ->
  sum (square1 (zip_with Rminus a b)) = squared_distance a b.
Proof.
  intros H. unfold square1, squared_distance.
  rewrite sum_map, zip_with_length by auto.
  apply big_sum_ext. intros i Hi.
  rewrite (nth_zip_with Rminus a b 0 0 0) by lia. simpl. ring.
Qed.

(** With equal dimensions nothing is broadcast and nothing raises: the value
    is the specification's formula. *)
Lemma fid_value_spec core n (a b : vec) (A B : mat) :
  length a = length b -> is_square n A -> is_square n B ->
  is_square n (root (core (product n A B))) ->
  Test2b.fid_value core a A b B
  = Ok (FidSpec.fid (fun M => root (core M)) n a A b B).
Proof.
  intros Hab HA HB HX. unfold Test2b.fid_value.
  unfold subtract1. rewrite (elementwise1_same_length Rminus a b Hab). simpl.
  rewrite (matmul_square HA HB). simpl.
  unfold Test2b.sqrtm_value. rewrite (square_squareb (product_square n A B)).
  simpl. unfold add2. rewrite (elementwise2_same_shape Rplus HA HB). simpl.
  set (X := root (core (product n A B))) in *.
  assert (HS : has_shape n n (zip_with (zip_with Rplus) A B))
    by now apply zip_with2_shape.
  assert (HX2 : has_shape n n (scale2 2 X)) by now apply scale2_shape.
  unfold subtract2. rewrite (elementwise2_same_shape Rminus HS HX2). simpl.
  f_equal. unfold FidSpec.fid. f_equal.
  - now apply sum_square1_distance.
  - rewrite (@trace_big_sum n) by apply (zip_with2_shape Rminus HS HX2).
    unfold diagonal_sum. apply big_sum_ext. intros i Hi.
    rewrite (entry_zip_with2 Rminus HS HX2 Hi Hi).
    rewrite (entry_zip_with2 Rplus HA HB Hi Hi).
    now rewrite (entry_scale2 2 HX Hi Hi).
Qed.

Lemma fid_same_distribution sqrt_of n (mu : vec) (sigma : mat) :
  sqrt_of (product n sigma sigma) = sigma ->
  FidSpec.fid sqrt_of n mu sigma mu sigma = 0.
Proof.
  intros H. unfold FidSpec.fid, squared_distance, diagonal_sum. rewrite H.
  rewrite !big_sum_zero; [lra| |]; intros i _; simpl; ring.
Qed.

Lemma sim_same_result {A} (m : Py A) w o :
  sim m w o (@same A) -> fst (m w) = o.
Proof.
  intros (w' & _ & H). destruct o as [v|e].
  - destruct H as (a & -> & ->). reflexivity.
  - now rewrite H.
Qed.

End FidFacts.

(** ** The claims about [calculate_fid] *)

Import Np.




(** C3, amended.  Identical distributions, in exact arithmetic: for a
    symmetric positive semi-definite sigma, and sqrtm returning the exact
    principal root (sigma itself for sigma @ sigma),
    calculate_fid(mu, sigma, mu, sigma) is zero.  The call passes the same
    two array objects twice.  Computed in binary64 the result is zero only
    up to rounding, and not zero at all when sigma @ sigma underflows. *)
Theorem calculate_fid_identical core w rm rs n (mu : vec) (sigma : mat) :
  vec_at w rm mu -> mat_at w rs sigma ->
  is_square n sigma -> symmetric sigma -> psd n sigma ->
  principal_on_psd core n ->
  fst (Test2b.calculate_fid core rm rs rm rs w) = Ok 0.
Proof.
  intros Hmu Hsig Hsq Hsym Hpsd Hcore.
  rewrite (FidFacts.sim_same_result (calculate_fid_sim core Hmu Hsig Hmu Hsig)).
  assert (HX : root (core (FidSpec.product n sigma sigma)) = sigma)
    by (apply Hcore; auto using NpFacts.matmul_square).
  rewrite (@FidFacts.fid_value_spec core n) by (rewrite ?HX; auto).
  f_equal. now apply FidFacts.fid_same_distribution.
Qed.

(** A symmetric positive semi-definite 2 x 2 matrix has non-negative
    diagonal and determinant. *)
Lemma psd_2x2 (x y z : R) :
  psd 2 [ [x; y]; [y; z] ] -> 0 <= x /\ 0 <= z /\ 0 <= x * z - y * y.
Proof.
  intros H.
  pose proof (H [1; 0] eq_refl) as H10.
  pose proof (H [0; 1] eq_refl) as H01.
  pose proof (H [z; - y] eq_refl) as Hz.
  pose proof (H [- y; x] eq_refl) as Hx.
  pose proof (H [1; - y] eq_refl) as Hy.
  cbv [dot matvec Np.sum zip_with map fold_right] in *.
  assert (0 <= x) by lra. assert (0 <= z) by lra.
  repeat split; auto.
  destruct (Rle_lt_or_eq_dec 0 x) as [Hpos|Hzero]; auto; [nra|].
  destruct (Rle_lt_or_eq_dec 0 z) as [Hpos|Hzero']; auto; [nra|].
  subst. nra.
Qed.

Lemma sqrtm_2x2_principal : principal_on_psd sqrtm_2x2 2.
Proof.
  intros X P [Hl HF] Hsym Hpsd HP.
  destruct X as [|r1 [|r2 [|? ?]]]; try discriminate.
  inversion HF as [|? ? H1 HF']; subst. inversion HF' as [|? ? H2 _]; subst.
  destruct r1 as [|x [|y [|? ?]]]; try discriminate.
  destruct r2 as [|y' [|z [|? ?]]]; try discriminate.
  assert (y' = y) by (symmetry; exact (Hsym 0%nat 1%nat)). subst y'.
  destruct (psd_2x2 Hpsd) as (Hx & Hz & Hdet).
  unfold matmul in HP. simpl in HP. injection HP as <-.
  cbv [dot Np.sum zip_with map fold_right sqrtm_2x2 root].
  replace ((x * x + (y * y + 0)) * (y * y + (z * z + 0))
           - (x * y + (y * z + 0)) * (y * x + (z * y + 0)))
    with ((x * z - y * y) * (x * z - y * y)) by ring.
  rewrite sqrt_square by exact Hdet.
  replace (x * x + (y * y + 0) + (y * y + (z * z + 0)) + 2 * (x * z - y * y))
    with ((x + z) * (x + z)) by ring.
  rewrite sqrt_square by lra.
  destruct (Req_dec_T (x + z) 0) as [E|E].
  - assert (x = 0) by lra. assert (z = 0) by lra. subst.
    assert (y = 0) by nra. subst.
    rewrite E. unfold Rdiv. rewrite Rinv_0.
    repeat (f_equal; try ring).
  - repeat (f_equal; try (field; exact E)).
Qed.

Lemma calculate_fid_identical_witness :
  fst (Test2b.calculate_fid sqrtm_2x2 0 0 0 0 psd_world) = Ok 0.
Proof.
  apply (@calculate_fid_identical sqrtm_2x2 psd_world
           0%nat 0%nat 2%nat [1; 2] [ [2; 1]; [1; 2] ]).
  - reflexivity.
  - reflexivity.
  - split; [reflexivity | repeat constructor].
  - intros [|[|[|i]]] [|[|[|j]]]; reflexivity.
  - intros [|x [|y [|? ?]]] H; try discriminate.
    cbv [dot matvec Np.sum zip_with map fold_right].
    pose proof (pow2_ge_0 (x + y)). nra.
  - exact sqrtm_2x2_principal.
Defined.

(** C4.  Swapping the two distributions does not change the result when the
    covariances commute: calculate_fid(a, A, b, B) and calculate_fid(b, B,
    a, A) return the same value (or raise the same exception). *)
Theorem calculate_fid_swap core w rm rs xm xs (a b : vec) (A B : mat) :
  vec_at w rm a -> mat_at w rs A -> vec_at w xm b -> mat_at w xs B ->
  matmul A B = matmul B A ->
  fst (Test2b.calculate_fid core rm rs xm xs w)
  = fst (Test2b.calculate_fid core xm xs rm rs w).
Proof.
  intros Ha HA Hb HB Hcomm.
  rewrite (FidFacts.sim_same_result (calculate_fid_sim core Ha HA Hb HB)).
  rewrite (FidFacts.sim_same_result (calculate_fid_sim core Hb HB Ha HA)).
  now apply FidFacts.fid_value_swap.
Qed.

Lemma calculate_fid_swap_witness :
  fst (Test2b.calculate_fid sqrtm_entrywise 0 0 1 1 diagonal_world)
  = fst (Test2b.calculate_fid sqrtm_entrywise 1 1 0 0 diagonal_world).
Proof.
  apply (@calculate_fid_swap sqrtm_entrywise diagonal_world
           0%nat 0%nat 1%nat 1%nat
           [1; 2] [0; 0] [ [4; 0]; [0; 9] ] identity2).
  - reflexivity.
  - reflexivity.
  - reflexivity.
  - reflexivity.
  - unfold matmul, identity2. simpl.
    cbv [dot Np.sum zip_with map fold_right].
    repeat (f_equal; try lra).
Defined.

(** ** The hard-coded covariance matrices *)

Lemma sigma_real_symmetric : symmetric Test2b.sigma_real.
Proof.
  intros i j. unfold entry.
  do 5 (try destruct i as [|i]); do 5 (try destruct j as [|j]);
    reflexivity.
Qed.

Lemma sigma1_symmetric : symmetric Test2b.sigma1.
Proof.
  intros i j. unfold entry.
  do 5 (try destruct i as [|i]); do 5 (try destruct j as [|j]);
    reflexivity.
Qed.

Lemma sigma2_symmetric : symmetric Test2b.sigma2.
Proof.
  intros i j. unfold entry.
  do 5 (try destruct i as [|i]); do 5 (try destruct j as [|j]);
    reflexivity.
Qed.

Ltac quadratic_form :=
  cbv [dot matvec Np.sum zip_with map fold_right
       Test2b.sigma_real Test2b.sigma1 Test2b.sigma2].

(** Each quadratic form is a positive combination of squares (the pivots of
    the elimination are all positive). *)
Lemma sigma_real_psd : psd 4 Test2b.sigma_real.
Proof.
  intros x Hx.
  destruct x as [|x1 [|x2 [|x3 [|x4 [|? ?]]]]]; try discriminate.
  quadratic_form.
  pose proof (pow2_ge_0 (x1 + 1/2 * x2 + 1/4 * x3 + 1/10 * x4)).
  pose proof (pow2_ge_0 (x2 + 3/10 * x3 + 4/25 * x4)).
  pose proof (pow2_ge_0 (x3 + 83/365 * x4)).
  pose proof (pow2_ge_0 x4).
  lra.
Qed.

Lemma sigma1_psd : psd 4 Test2b.sigma1.
Proof.
  intros x Hx.
  destruct x as [|x1 [|x2 [|x3 [|x4 [|? ?]]]]]; try discriminate.
  quadratic_form.
  pose proof (pow2_ge_0 (x1 + 1/7 * x2 + 1/14 * x3 + 1/35 * x4)).
  pose proof (pow2_ge_0 (x2 + 1/2 * x3 + 33/130 * x4)).
  pose proof (pow2_ge_0 (x3 + 3/10 * x4)).
  pose proof (pow2_ge_0 x4).
  lra.
Qed.

Lemma sigma2_psd : psd 4 Test2b.sigma2.
Proof.
  intros x Hx.
  destruct x as [|x1 [|x2 [|x3 [|x4 [|? ?]]]]]; try discriminate.
  quadratic_form.
  pose proof (pow2_ge_0 (x1 + 1/8 * x2 + 1/8 * x3 + 1/40 * x4)).
  pose proof (pow2_ge_0 (x2 + 15/47 * x3 + 39/235 * x4)).
  pose proof (pow2_ge_0 (x3 + 78/385 * x4)).
  pose proof (pow2_ge_0 x4).
  lra.
Qed.

(** C5.  The three hard-coded 4x4 covariance matrices are symmetric and
    positive semi-definite. *)
Theorem covariances_symmetric_psd :
  (is_square 4 Test2b.sigma_real /\ symmetric Test2b.sigma_real
   /\ psd 4 Test2b.sigma_real) /\
  (is_square 4 Test2b.sigma1 /\ symmetric Test2b.sigma1
   /\ psd 4 Test2b.sigma1) /\
  (is_square 4 Test2b.sigma2 /\ symmetric Test2b.sigma2
   /\ psd 4 Test2b.sigma2).
Proof.
  repeat split; try reflexivity; try (repeat constructor; fail).
  - apply sigma_real_symmetric.
  - apply sigma_real_psd.
  - apply sigma1_symmetric.
  - apply sigma1_psd.
  - apply sigma2_symmetric.
  - apply sigma2_psd.
Qed.

(** ** The two distances of the script

    What the script computes is exact up to the trace of the library's
    square root: the squared distances of the means are 0.10 and 0.22 and
    the traces of the covariances are 1.1, 1.35 and 1.1. *)

Lemma fid_value_1 core :
  is_square 4 (root (core (FidSpec.product 4 Test2b.sigma_real Test2b.sigma1))) ->
  Test2b.fid_value core Test2b.mu_real Test2b.sigma_real Test2b.mu1 Test2b.sigma1
  = Ok (2.55 - 2 * FidSpec.big_sum 4 (fun i =>
          entry (root (core (FidSpec.product 4 Test2b.sigma_real Test2b.sigma1)))
                i i)).
Proof.
  intros Hcore.
  rewrite (@FidFacts.fid_value_spec core 4);
    try reflexivity; try (split; [reflexivity | repeat constructor]);
    try exact Hcore.
  f_equal. unfold FidSpec.fid, FidSpec.squared_distance, FidSpec.diagonal_sum.
  set (X := root (core _)).
  cbn [FidSpec.big_sum length Test2b.mu_real Test2b.mu1 nth
       Test2b.sigma_real Test2b.sigma1 entry]. lra.
Qed.

Lemma script_fid1 core :
  is_square 4 (root (core (FidSpec.product 4 Test2b.sigma_real Test2b.sigma1))) ->
  fst (Test2b.fid1 core Test2b.script_world)
  = Ok (2.55 - 2 * FidSpec.big_sum 4 (fun i =>
          entry (root (core (FidSpec.product 4 Test2b.sigma_real Test2b.sigma1)))
                i i)).
Proof.
  intros Hcore. unfold Test2b.fid1.
  rewrite (FidFacts.sim_same_result
             (@calculate_fid_sim core Test2b.script_world 0 0 1 1
                Test2b.mu_real Test2b.sigma_real Test2b.mu1 Test2b.sigma1
                eq_refl eq_refl eq_refl eq_refl)).
  now apply fid_value_1.
Qed.

Lemma fid_value_2 core :
  is_square 4 (root (core (FidSpec.product 4 Test2b.sigma_real Test2b.sigma2))) ->
  Test2b.fid_value core Test2b.mu_real Test2b.sigma_real Test2b.mu2 Test2b.sigma2
  = Ok (2.42 - 2 * FidSpec.big_sum 4 (fun i =>
          entry (root (core (FidSpec.product 4 Test2b.sigma_real Test2b.sigma2)))
                i i)).
Proof.
  intros Hcore.
  rewrite (@FidFacts.fid_value_spec core 4);
    try reflexivity; try (split; [reflexivity | repeat constructor]);
    try exact Hcore.
  f_equal. unfold FidSpec.fid, FidSpec.squared_distance, FidSpec.diagonal_sum.
  set (X := root (core _)).
  cbn [FidSpec.big_sum length Test2b.mu_real Test2b.mu2 nth
       Test2b.sigma_real Test2b.sigma2 entry]. lra.
Qed.

Lemma script_fid2 core :
  is_square 4 (root (core (FidSpec.product 4 Test2b.sigma_real Test2b.sigma2))) ->
  fst (Test2b.fid2 core Test2b.script_world)
  = Ok (2.42 - 2 * FidSpec.big_sum 4 (fun i =>
          entry (root (core (FidSpec.product 4 Test2b.sigma_real Test2b.sigma2)))
                i i)).
Proof.
  intros Hcore. unfold Test2b.fid2.
  rewrite (FidFacts.sim_same_result
             (@calculate_fid_sim core Test2b.script_world 0 0 2 2
                Test2b.mu_real Test2b.sigma_real Test2b.mu2 Test2b.sigma2
                eq_refl eq_refl eq_refl eq_refl)).
  now apply fid_value_2.
Qed.

(** The last line names Set I exactly when the first distance is the
    smaller one. *)
Lemma verdict_set_I (f1 f2 : R) :
  f1 < f2 <->
  Test2b.verdict f1 f2 = "Based on FID score, Fake Image Set I is better"%string.
Proof.
  unfold Test2b.verdict, Test2b.better.
  destruct (Rlt_dec f1 f2); split; intros H; auto; try contradiction.
  discriminate.
Qed.

(** *** The printed numbers *)

Lemma round_half_even_near x n :
  IZR n - 1 / 2 < x < IZR n + 1 / 2 -> round_half_even x = n.
Proof.
  intros H. unfold round_half_even.
  destruct (archimed x) as [U1 U2].
  set (f := (up x - 1)%Z).
  assert (Ef : IZR f = IZR (up x) - 1) by (unfold f; rewrite minus_IZR; lra).
  assert (Hf : (f = n - 1 \/ f = n)%Z).
  { assert (L : IZR (n - 2) < IZR f) by (rewrite minus_IZR; lra).
    apply lt_IZR in L.
    assert (U : IZR f < IZR (n + 1)) by (rewrite plus_IZR; lra).
    apply lt_IZR in U. lia. }
  clearbody f. clear Ef U1 U2.
  destruct Hf as [-> | ->]; [rewrite minus_IZR|];
    repeat match goal with
           | |- context [Rlt_dec ?a ?b] => destruct (Rlt_dec a b)
           end; try lra; lia.
Qed.

Lemma format_4f_shows x n :
  IZR n - 1 / 2 < x * 10000 < IZR n + 1 / 2 -> 0 <= x ->
  format_4f x = fixed4 n.
Proof.
  intros H Hx. unfold format_4f. destruct (Rlt_dec x 0); [lra|].
  now rewrite (@round_half_even_near _ n H).
Qed.

(** ** Effects of [calculate_fid] *)

Lemma sim_same_world {A} (m : Py A) w o :
  sim m w o (@same A) -> extends w (snd (m w)).
Proof.
  intros (w' & E & H). destruct o as [v|e].
  - destruct H as (a & -> & _). exact E.
  - now rewrite H.
Qed.

(** C7.  [calculate_fid] only reads its arguments and allocates fresh
    arrays: after the call every array that existed before, the four inputs
    among them, is unchanged under its reference, nothing has been printed,
    and the result depends on the contents of the four inputs only, so two
    calls on equal inputs return equal results. *)
Theorem calculate_fid_pure core w rm rs xm xs (a b : vec) (A B : mat) :
  vec_at w rm a -> mat_at w rs A -> vec_at w xm b -> mat_at w xs B ->
  let w' := snd (Test2b.calculate_fid core rm rs xm xs w) in
  extends w w' /\
  (vec_at w' rm a /\ mat_at w' rs A /\ vec_at w' xm b /\ mat_at w' xs B) /\
  (forall w2 rm2 rs2 xm2 xs2,
      vec_at w2 rm2 a -> mat_at w2 rs2 A ->
      vec_at w2 xm2 b -> mat_at w2 xs2 B ->
      fst (Test2b.calculate_fid core rm2 rs2 xm2 xs2 w2)
      = fst (Test2b.calculate_fid core rm rs xm xs w)).
Proof.
  intros Ha HA Hb HB w'.
  pose proof (calculate_fid_sim core Ha HA Hb HB) as Hsim.
  assert (E : extends w w') by exact (sim_same_world Hsim).
  split; [exact E|]. split.
  - repeat split; eauto using vec_at_extends, mat_at_extends.
  - intros w2 rm2 rs2 xm2 xs2 Ha2 HA2 Hb2 HB2.
    rewrite (FidFacts.sim_same_result Hsim).
    exact (FidFacts.sim_same_result (calculate_fid_sim core Ha2 HA2 Hb2 HB2)).
Qed.

Lemma calculate_fid_pure_witness :
  let w' := snd (Test2b.calculate_fid sqrtm_entrywise 0 0 1 1 diagonal_world) in
  extends diagonal_world w' /\
  (vec_at w' 0 [1; 2] /\ mat_at w' 0 [ [4; 0]; [0; 9] ]
   /\ vec_at w' 1 [0; 0] /\ mat_at w' 1 identity2) /\
  (forall w2 rm2 rs2 xm2 xs2,
      vec_at w2 rm2 [1; 2] -> mat_at w2 rs2 [ [4; 0]; [0; 9] ] ->
      vec_at w2 xm2 [0; 0] -> mat_at w2 xs2 identity2 ->
      fst (Test2b.calculate_fid sqrtm_entrywise rm2 rs2 xm2 xs2 w2)
      = fst (Test2b.calculate_fid sqrtm_entrywise 0 0 1 1 diagonal_world)).
Proof.
  apply (@calculate_fid_pure sqrtm_entrywise diagonal_world
           0%nat 0%nat 1%nat 1%nat
           [1; 2] [0; 0] [ [4; 0]; [0; 9] ] identity2); reflexivity.
Defined.

(** ** Failures *)

Ltac first_failure :=
  split;
  [ intros H; inversion H; subst; clear H; eauto 15
  | intros H;
    repeat match goal with
           | H : _ \/ _ |- _ => destruct H
           | H : exists _, _ |- _ => destruct H
           | H : _ /\ _ |- _ => destruct H
           | H : Ok _ = Ok _ |- _ => inversion H; subst; clear H
           end; congruence ].

(** C6, as the code has it.  Every exception of a library call goes through
    [calculate_fid] unchanged: the call raises [e] exactly when the first
    failing library call, on the values that reach it, raised [e].  And the
    call never prints: [sqrtm] is called with [disp=False], so it returns
    its error estimate, which the code drops, in place of printing. *)
Theorem calculate_fid_propagates core w rm rs xm xs (a b : vec) (A B : mat) :
  vec_at w rm a -> mat_at w rs A -> vec_at w xm b -> mat_at w xs B ->
  out (snd (Test2b.calculate_fid core rm rs xm xs w)) = out w /\
  forall e,
    fst (Test2b.calculate_fid core rm rs xm xs w) = Raise e <->
    (subtract1 a b = Raise e \/
     exists diff, subtract1 a b = Ok diff /\
       (matmul A B = Raise e \/
        exists P, matmul A B = Ok P /\
          (Test2b.sqrtm_value core P = Raise e \/
           exists X, Test2b.sqrtm_value core P = Ok X /\
             (add2 A B = Raise e \/
              exists S, add2 A B = Ok S /\
                subtract2 S (scale2 2 X) = Raise e)))).
Proof.
  intros Ha HA Hb HB.
  pose proof (calculate_fid_sim core Ha HA Hb HB) as Hsim. split.
  - destruct (sim_same_world Hsim) as (nv & nm & _ & _ & Ho). exact Ho.
  - intros e. rewrite (FidFacts.sim_same_result Hsim).
    unfold Test2b.fid_value.
    destruct (subtract1 a b) as [diff|e1]; simpl; [|first_failure].
    destruct (matmul A B) as [P|e2]; simpl; [|first_failure].
    destruct (Test2b.sqrtm_value core P) as [X|e3] eqn:E3; simpl;
      [|first_failure].
    destruct (add2 A B) as [S|e4]; simpl; [|first_failure].
    destruct (subtract2 S (scale2 2 X)) as [D|e5] eqn:E5; simpl;
      first_failure.
Qed.

Lemma calculate_fid_propagates_witness :
  out (snd (Test2b.calculate_fid sqrtm_entrywise 0 0 1 1 mismatch_world))
  = out mismatch_world /\
  forall e,
    fst (Test2b.calculate_fid sqrtm_entrywise 0 0 1 1 mismatch_world) = Raise e <->
    (subtract1 [1; 2; 3] [1; 2] = Raise e \/
     exists diff, subtract1 [1; 2; 3] [1; 2] = Ok diff /\
       (matmul identity2 identity2 = Raise e \/
        exists P, matmul identity2 identity2 = Ok P /\
          (Test2b.sqrtm_value sqrtm_entrywise P = Raise e \/
           exists X, Test2b.sqrtm_value sqrtm_entrywise P = Ok X /\
             (add2 identity2 identity2 = Raise e \/
              exists S, add2 identity2 identity2 = Ok S /\
                subtract2 S (scale2 2 X) = Raise e)))).
Proof.
  apply (@calculate_fid_propagates sqrtm_entrywise mismatch_world
           0%nat 0%nat 1%nat 1%nat [1; 2; 3] [1; 2] identity2 identity2);
    reflexivity.
Defined.

(** The shape mismatch of the witness does surface, as numpy's own error. *)
Lemma shape_mismatch_raises :
  fst (Test2b.calculate_fid sqrtm_entrywise 0 0 1 1 mismatch_world)
  = Raise broadcast_error.
Proof. reflexivity. Qed.

(** [[0, 1], [0, 0]] has no square root at all, so a routine can only give
    up on it. *)
Lemma nilpotent_has_no_square_root (X : mat) :
  is_square 2 X -> matmul X X <> Ok nilpotent.
Proof.
  intros [Hl HF] H.
  destruct X as [|r1 [|r2 [|? ?]]]; try discriminate.
  inversion HF as [|? ? H1 HF']; subst. inversion HF' as [|? ? H2 _]; subst.
  destruct r1 as [|a [|b [|? ?]]]; try discriminate.
  destruct r2 as [|c [|d [|? ?]]]; try discriminate.
  unfold matmul, nilpotent in H. simpl in H.
  cbv [dot Np.sum zip_with map fold_right] in H.
  injection H as H11 H12 H21 H22.
  assert (Hc : c = 0) by nra.
  subst c. assert (a = 0) by nra. assert (d = 0) by nra. subst. lra.
Qed.

(** C6, as the claim states it, fails on a product that has no square
    root: the routine gives up, the library's default call prints its
    notice, and [calculate_fid] returns a number and prints nothing. *)
Lemma sqrtm_failure_unreported :
  matmul nilpotent identity2 = Ok nilpotent /\
  failflag (sqrtm_gives_up nilpotent) = true /\
  out (snd (Test2b.sqrtm sqrtm_gives_up 0 true nilpotent_world))
  = [sqrtm_failure_notice] /\
  (exists v, fst (Test2b.calculate_fid sqrtm_gives_up 0 0 0 1 nilpotent_world)
             = Ok v) /\
  out (snd (Test2b.calculate_fid sqrtm_gives_up 0 0 0 1 nilpotent_world)) = [].
Proof.
  split; [|split; [|split; [|split]]].
  - unfold matmul, nilpotent, identity2. simpl.
    cbv [dot Np.sum zip_with map fold_right].
    repeat (f_equal; try lra).
  - reflexivity.
  - reflexivity.
  - eexists. reflexivity.
  - reflexivity.
Qed.

(** ** The optimizer step *)

Module SgdFacts.

Import Torch Week2 Week2Sgd.

Lemma sgd_param_plain h buf w g :
  momentum h = 0 -> weight_decay h = 0 -> maximize h = false ->
  sgd_param h buf (Param w (Some g))
  = (buf, Param (add_alpha w g (- lr h)) (Some g)).
Proof.
  intros Hm Hw Hx. unfold sgd_param. simpl. rewrite Hx.
  destruct (Req_dec_T (weight_decay h) 0) as [_|Hn]; [|contradiction].
  destruct (Req_dec_T (momentum h) 0) as [_|Hn]; [|contradiction].
  reflexivity.
Qed.

Lemma sgd_params_nth h bufs ps i p :
  nth_error ps i = Some p ->
  nth_error (snd (sgd_params h bufs ps)) i
  = Some (snd (sgd_param h (nth i bufs None) p)).
Proof.
  revert bufs i. induction ps as [|q ps IH]; intros bufs [|i] H;
    simpl in *; try discriminate.
  - injection H as ->.
    replace (nth 0 bufs None) with (hd None bufs) by now destruct bufs.
    destruct (sgd_param h (hd None bufs) p), (sgd_params h (tl bufs) ps).
    reflexivity.
  - specialize (IH (tl bufs) i H).
    replace (nth (S i) bufs None) with (nth i (tl bufs) None)
      by (destruct bufs; simpl; auto; now destruct i).
    destruct (sgd_param h (hd None bufs) q), (sgd_params h (tl bufs) ps).
    exact IH.
Qed.

Lemma sgd_step_nth o ps i p :
  nth_error ps i = Some p ->
  nth_error (snd (sgd_step o ps)) i
  = Some (snd (sgd_param (defaults o) (nth i (momentum_buffers o) None) p)).
Proof.
  intros H. unfold sgd_step.
  pose proof (sgd_params_nth (defaults o) (momentum_buffers o) ps i H) as E.
  destruct (sgd_params (defaults o) (momentum_buffers o) ps). exact E.
Qed.

Lemma add_alpha_manual w g :
  add_alpha w g (Ropp 0.001) = Np.zip_with (fun wi gi => wi - 0.001 * gi) w g.
Proof.
  unfold add_alpha. apply NpFacts.zip_with_ext. intros; lra.
Qed.

Lemma manual_step_entries w g :
  manual_step w g = Np.zip_with (fun wi gi => wi - 0.001 * gi) w g.
Proof.
  unfold manual_step. revert g.
  induction w as [|x w IH]; intros [|y g]; simpl; auto. now rewrite IH.
Qed.

Lemma close_refl a : close a a = true.
Proof.
  unfold close. destruct (Rle_dec _ _) as [_|H]; auto.
  exfalso. apply H. replace (a - a) with 0 by ring. rewrite Rabs_R0.
  pose proof (Rabs_pos a). lra.
Qed.

Lemma allclose_refl a : allclose a a = true.
Proof.
  unfold allclose. induction a as [|x a IH]; simpl; auto.
  now rewrite close_refl.
Qed.

End SgdFacts.

Import Torch Week2 Week2Sgd.

(** C9.  For an SGD optimizer built with lr = 0.001 and nothing else, one
    [optimizer.step()] replaces every parameter w that has a gradient g by
    w - 0.001 * g, entry by entry, which is the notebook's manual update;
    run on a weight with a gradient, the comparison cell finds the two equal
    and prints its message. *)
Theorem sgd_step_is_manual_update (sched : Type) (s : session SGD sched) :
  defaults (optimizer s) = defaults (optim_SGD 0.001) ->
  (forall i w g,
      nth_error (parameters s) i = Some (Param w (Some g)) ->
      nth_error (snd (sgd_step (optimizer s) (parameters s))) i
      = Some (Param (Np.zip_with (fun wi gi => wi - 0.001 * gi) w g) (Some g))
      /\ manual_step w g = Np.zip_with (fun wi gi => wi - 0.001 * gi) w g) /\
  (forall w g rest,
      parameters s = Param w (Some g) :: rest ->
      exists s',
        manual_update_cell s = (Ok (manual_step w g), s') /\
        nth_error (parameters s') 0 = Some (Param (manual_step w g) (Some g)) /\
        events s' = events s ++ [EvStep; EvPrint same_thing]).
Proof.
  intros Hd.
  assert (Hstep : forall i w g,
             nth_error (parameters s) i = Some (Param w (Some g)) ->
             nth_error (snd (sgd_step (optimizer s) (parameters s))) i
             = Some (Param (manual_step w g) (Some g))).
  { intros i w g H. rewrite (SgdFacts.sgd_step_nth _ _ _ H), Hd.
    rewrite SgdFacts.sgd_param_plain by reflexivity.
    cbn [snd lr defaults optim_SGD].
    now rewrite SgdFacts.add_alpha_manual, SgdFacts.manual_step_entries. }
  split.
  - intros i w g H. split; [|apply SgdFacts.manual_step_entries].
    rewrite (Hstep i w g H). now rewrite SgdFacts.manual_step_entries.
  - intros w g rest Hp.
    assert (H0 : nth_error (parameters s) 0 = Some (Param w (Some g)))
      by now rewrite Hp.
    specialize (Hstep 0%nat w g H0).
    unfold manual_update_cell, bind, weight, clone, optimizer_step, ret, log.
    rewrite H0. simpl.
    destruct (sgd_step (optimizer s) (parameters s)) as [o ps]. simpl in *.
    rewrite Hstep. simpl. rewrite SgdFacts.allclose_refl.
    eexists. split; [reflexivity|]. simpl. split; auto.
    now rewrite <- app_assoc.
Qed.

Lemma sgd_step_is_manual_update_witness :
  (forall i w g,
      nth_error (parameters Toy.after_backward) i = Some (Param w (Some g)) ->
      nth_error (snd (sgd_step (optimizer Toy.after_backward)
                               (parameters Toy.after_backward))) i
      = Some (Param (Np.zip_with (fun wi gi => wi - 0.001 * gi) w g) (Some g))
      /\ manual_step w g = Np.zip_with (fun wi gi => wi - 0.001 * gi) w g) /\
  (forall w g rest,
      parameters Toy.after_backward = Param w (Some g) :: rest ->
      exists s',
        manual_update_cell Toy.after_backward = (Ok (manual_step w g), s') /\
        nth_error (parameters s') 0 = Some (Param (manual_step w g) (Some g)) /\
        events s' = events Toy.after_backward ++ [EvStep; EvPrint same_thing]).
Proof.
  apply (@sgd_step_is_manual_update unit Toy.after_backward). reflexivity.
Defined.

(** ** The training loops *)

Lemma step_follows_backward_blocks (losses : list R) :
  step_follows_backward (flat_map batch_calls losses).
Proof.
  induction losses as [|l ls IH]; intros i H.
  - destruct i; discriminate.
  - simpl in H.
    do 8 (try (destruct i as [|i]; [try discriminate|])).
    + exists 5%nat. split; reflexivity.
    + destruct (IH i H) as (j & -> & Hj).
      exists (8 + j)%nat. split; [reflexivity | exact Hj].
Qed.

Lemma step_follows_backward_cons e trace :
  e <> EvStep -> step_follows_backward trace ->
  step_follows_backward (e :: trace).
Proof.
  intros He H [|i] Hi; simpl in Hi.
  - congruence.
  - destruct (H i Hi) as (j & -> & Hj). exists (S j). split; auto.
Qed.

(** With [drop_last] every yielded batch is full, and there are
    (collected + remaining) / batch_size of them. *)
Lemma batch_sampler_drop_last {A} (B : nat) (l batch : list A) :
  (0 < B)%nat -> (length batch < B)%nat ->
  Forall (fun b => length b = B) (batch_sampler B true batch l) /\
  length (batch_sampler B true batch l) = ((length batch + length l) / B)%nat.
Proof.
  intros HB. revert batch. induction l as [|x l IH]; intros batch Hk; simpl.
  - split; [constructor|]. rewrite Nat.add_0_r. symmetry.
    now apply Nat.div_small.
  - assert (Hlen : length (batch ++ [x]) = S (length batch))
      by (rewrite length_app; simpl; lia).
    destruct (length (batch ++ [x]) =? B)%nat eqn:E.
    + apply Nat.eqb_eq in E. destruct (IH [] HB) as [HF Hn].
      split; [now constructor|]. simpl. rewrite Hn. simpl.
      replace (length batch + S (length l))%nat with (1 * B + length l)%nat
        by lia.
      rewrite Nat.div_add_l by lia. reflexivity.
    + apply Nat.eqb_neq in E.
      destruct (IH (batch ++ [x])) as [HF Hn]; [lia|].
      split; [exact HF|]. rewrite Hn. f_equal. lia.
Qed.

Lemma dropped_samples N B :
  (0 < B)%nat -> (N mod B <> 0)%nat -> (N / B * B < N)%nat /\ (0 < N)%nat.
Proof.
  intros HB Hmod. pose proof (Nat.div_mod_eq N B). split; [lia|].
  destruct N; [|lia]. now rewrite Nat.Div0.mod_0_l in Hmod.
Qed.

(** Dividing a positive total by more samples than were summed gives less
    than the mean over the summed ones. *)
Lemma average_undercount (total : R) (P N : nat) :
  (P < N)%nat -> 0 < total / INR P -> total / INR N < total / INR P.
Proof.
  intros HPN Hpos. destruct P as [|P].
  - simpl in Hpos. unfold Rdiv in Hpos. rewrite Rinv_0 in Hpos. lra.
  - assert (HP : 0 < INR (S P)) by (apply lt_0_INR; lia).
    assert (HN : INR (S P) < INR N) by now apply lt_INR.
    assert (Hinv : 0 < / INR (S P)) by now apply Rinv_0_lt_compat.
    unfold Rdiv in *.
    assert (Htot : 0 < total) by nra.
    apply Rmult_lt_compat_l; [exact Htot|].
    apply Rinv_lt_contravar; nra.
Qed.

Section TrainingFacts.

Variables input label logits : Type.
Variable cast_input : input -> input.
Variable cast_label : label -> label.
Variable network : list tensor -> list input -> logits.
Variable criterion : logits -> list label -> R.
Variable autograd : list tensor -> list input -> list label -> list tensor.
Variable opt : Type.
Variable opt_step : opt -> list param -> opt * list param.
Variable sched : Type.
Variable is_plateau : sched -> bool.
Variable plateau_step : sched -> R -> opt -> sched * opt.
Variable plain_step : sched -> opt -> sched * opt.
Variable permutation : nat -> list (input * label) -> list (input * label).

Local Notation state := (session opt sched) (only parsing).

Lemma for_each_events {A L} (body : A -> St state unit)
    (calls : L -> list event) (good : L -> Prop) :
  (forall a s, exists l s',
      body a s = (Ok tt, s') /\ events s' = events s ++ calls l /\ good l) ->
  forall xs s, exists ls s',
      for_each xs body s = (Ok tt, s') /\ length ls = length xs /\
      events s' = events s ++ flat_map calls ls /\ Forall good ls.
Proof.
  intros Hbody. induction xs as [|a xs IH]; intros s.
  - exists [], s. simpl. now rewrite app_nil_r.
  - destruct (Hbody a s) as (l & s1 & H1 & E1 & G1).
    destruct (IH s1) as (ls & s2 & H2 & Hlen & E2 & G2).
    exists (l :: ls), s2. simpl. unfold bind. rewrite H1, H2.
    split; [reflexivity|]. split; [now rewrite Hlen|].
    split; [now rewrite E2, E1, <- app_assoc | now constructor].
Qed.

(** C8.  [train_epoch] puts the model in training mode and then, for every
    batch the loader yields, calls in this order: move x, move y to the
    device, optimizer.zero_grad, model(x), loss_fn, loss.backward,
    optimizer.step, and the progress-bar update; so each optimizer.step
    comes right after the loss.backward of its batch. *)
Theorem train_epoch_order (train_loader : DataLoader input label) (s : state) :
  exists (losses : list R) (s' : state),
    train_epoch cast_input cast_label network criterion autograd opt_step
                permutation train_loader s = (Ok tt, s') /\
    length losses
    = length (batch_sampler (batch_size train_loader) (drop_last train_loader) []
                (if shuffle train_loader
                 then permutation (passes s) (dataset train_loader)
                 else dataset train_loader)) /\
    events s' = events s ++ EvTrainMode :: flat_map batch_calls losses /\
    step_follows_backward (EvTrainMode :: flat_map batch_calls losses).
Proof.
  unfold train_epoch.
  set (body := fun '(x, y) => _).
  assert (Hbody : forall a s0, exists l s1,
             body a s0 = (Ok tt, s1) /\
             events s1 = events s0 ++ batch_calls l /\ True).
  { intros [x y] s0. unfold body, bind, x_to, y_to, log, optimizer_zero_grad,
      model_call, loss_fn, backward, optimizer_step, set_postfix_str, ret.
    simpl. destruct (opt_step _ _) as [o ps]. simpl.
    eexists. eexists. split; [reflexivity|]. simpl.
    now rewrite <- !app_assoc. }
  unfold bind at 1. unfold model_train at 1. unfold bind at 1.
  unfold iterate at 1.
  match goal with
  | |- context [for_each ?xs body ?s0] =>
      destruct (for_each_events body batch_calls (fun _ => True) Hbody xs s0)
        as (ls & s2 & H2 & Hlen & E2 & _)
  end.
  exists ls, s2. split; [exact H2|]. split.
  - rewrite Hlen. now rewrite length_map.
  - split.
    + rewrite E2. simpl. now rewrite <- app_assoc.
    + apply step_follows_backward_cons; [discriminate|].
      apply step_follows_backward_blocks.
Qed.

Lemma for_fold_running {A} (ok : A -> Prop) (B : nat)
    (body : R -> A -> St state R) :
  (forall acc a s, ok a -> exists l s',
      body acc a s = (Ok (acc + l * INR B), s') /\
      events s' = events s ++ step_calls l /\
      lr_scheduler s' = lr_scheduler s) ->
  forall xs acc s, Forall ok xs -> exists ls s',
      for_fold xs acc body s
      = (Ok (acc + Np.sum (map (fun l => l * INR B) ls)), s') /\
      length ls = length xs /\
      events s' = events s ++ flat_map step_calls ls /\
      lr_scheduler s' = lr_scheduler s.
Proof.
  intros Hbody. induction xs as [|a xs IH]; intros acc s HF.
  - exists [], s. simpl. rewrite app_nil_r, Rplus_0_r. auto.
  - inversion HF as [|? ? Ha HF']; subst.
    destruct (Hbody acc a s Ha) as (l & s1 & H1 & E1 & L1).
    destruct (IH (acc + l * INR B) s1 HF') as (ls & s2 & H2 & Hlen & E2 & L2).
    exists (l :: ls), s2. simpl. unfold bind. rewrite H1, H2.
    split; [f_equal; f_equal; lra|]. split; [now rewrite Hlen|].
    split; [|congruence]. now rewrite E2, E1, <- app_assoc.
Qed.

(** One epoch of [train], from any state. *)
Lemma train_one_epoch_report
    (train_loader : DataLoader input label) (s : state) :
  let N := length (dataset train_loader) in
  let B := batch_size train_loader in
  drop_last train_loader = true -> (0 < B)%nat -> (N mod B <> 0)%nat ->
  (forall k l, Permutation (permutation k l) l) ->
  exists (ep : epoch_log) (s' : state),
    train_one_epoch cast_input cast_label network criterion autograd opt_step
                    is_plateau plateau_step plain_step permutation
                    train_loader s = (Ok (reported ep), s') /\
    events s' = events s ++ epoch_calls ep /\
    undercounted N B ep.
Proof.
  intros N B Hdrop HB Hmod Hperm.
  destruct (dropped_samples N HB Hmod) as [Hless HN].
  unfold train_one_epoch.
  set (body := fun (running_avg_train_loss : R) '(x, y) => _).
  assert (Hbody : forall acc a s0,
             length (fst a) = B -> exists l s1,
               body acc a s0 = (Ok (acc + l * INR B), s1) /\
               events s1 = events s0 ++ step_calls l /\
               lr_scheduler s1 = lr_scheduler s0).
  { intros acc [x y] s0 Hx. simpl in Hx.
    unfold body, bind, x_to, y_to, log, optimizer_zero_grad,
      model_call, loss_fn, backward, optimizer_step, ret.
    simpl. destruct (opt_step _ _) as [o ps]. simpl.
    rewrite length_map, Hx.
    eexists. eexists. split; [reflexivity|]. simpl.
    split; [now rewrite <- !app_assoc | reflexivity]. }
  unfold bind at 1. unfold iterate at 1.
  set (order := if shuffle train_loader then _ else _).
  assert (Horder : length order = N).
  { unfold order. destruct (shuffle train_loader); auto.
    now apply Permutation_length. }
  fold B. rewrite Hdrop.
  destruct (@batch_sampler_drop_last _ B order [] HB HB) as [Hfull Hcount].
  simpl in Hcount. rewrite Horder in Hcount.
  set (batches := map _ (batch_sampler B true [] order)).
  assert (HF : Forall (fun a => length (fst a) = B) batches).
  { unfold batches. apply Forall_forall. intros a Hin.
    apply in_map_iff in Hin. destruct Hin as (b & <- & Hb). simpl.
    rewrite length_map. rewrite Forall_forall in Hfull. auto. }
  unfold bind at 1.
  pose proof (@for_fold_running _ (fun a => length (fst a) = B) B body Hbody)
    as Hfold.
  match goal with
  | |- context [for_fold batches 0 body ?s0] =>
      destruct (Hfold batches 0 s0 HF) as (ls & s2 & H2 & Hlen & E2 & L2)
  end.
  rewrite Rplus_0_l in H2.
  set (total := Np.sum (map (fun l => l * INR B) ls)) in *.
  assert (EN : (N =? 0)%nat = false) by (apply Nat.eqb_neq; lia).
  assert (Hls : length ls = (N / B)%nat)
    by (rewrite Hlen; unfold batches; now rewrite length_map).
  assert (Hrun : exists scheduler_calls s',
             (let (o, w') := for_fold batches 0 body
                               (Session (parameters s) (optimizer s)
                                  (lr_scheduler s) (training s)
                                  (S (passes s)) (events s)) in
              match o with
              | Ok a =>
                  (running_avg_train_loss <-
                     py_div a (length (dataset train_loader)) ;;
                   scheduler_step is_plateau plateau_step plain_step
                     running_avg_train_loss ;;;
                   set_postfix_str running_avg_train_loss ;;;
                   ret running_avg_train_loss) w'
              | Raise e => (Raise e, w')
              end) = (Ok (total / INR N), s') /\
             events s' = events s ++ flat_map step_calls ls
                         ++ scheduler_calls ++ [EvPostfix (total / INR N)]).
  { simpl in E2.
    destruct (lr_scheduler s2) as [sc|] eqn:Esc;
      [destruct (is_plateau sc) eqn:Epl;
       [destruct (plateau_step sc (total / INR N) (optimizer s2))
          as [sc' o] eqn:Eps;
        exists [EvScheduler (Some (total / INR N))]
       |destruct (plain_step sc (optimizer s2)) as [sc' o] eqn:Epp;
        exists [EvScheduler None]]
      |exists []];
      eexists;
      (split;
       [ rewrite H2; unfold bind at 1; unfold py_div; fold N; rewrite EN;
         unfold ret at 1;
         unfold bind, scheduler_step, set_postfix_str, log, ret;
         rewrite Esc, ?Epl, ?Eps, ?Epp; reflexivity
       | simpl; now rewrite E2, <- !app_assoc ]). }
  destruct Hrun as (calls & s' & Hrun & Hev).
  exists (EpochLog ls calls (total / INR N)), s'.
  split; [exact Hrun|]. split; [exact Hev|].
  unfold undercounted, processed_total. simpl. fold total.
  split; [exact Hls|]. split; [reflexivity|].
  now apply average_undercount.
Qed.

(** C10.  With [drop_last] and a dataset whose length N is not a multiple
    of the batch size B, every epoch of [train] processes N / B batches of B
    samples and reports (sum over those batches of loss * B) / N: the
    (N / B) * B < N processed samples are fewer than the N of the
    denominator, so the reported value is strictly below the mean over the
    processed samples whenever that mean is positive. *)
Theorem running_average_counts_dropped_samples
    (train_loader : DataLoader input label) (n_epochs : nat) (s : state) :
  let N := length (dataset train_loader) in
  let B := batch_size train_loader in
  drop_last train_loader = true -> (0 < B)%nat -> (N mod B <> 0)%nat ->
  (forall k l, Permutation (permutation k l) l) ->
  exists (epochs : list epoch_log) (s' : state),
    train cast_input cast_label network criterion autograd opt_step
          is_plateau plateau_step plain_step permutation
          train_loader n_epochs s = (Ok tt, s') /\
    length epochs = n_epochs /\
    events s' = events s ++ flat_map epoch_calls epochs /\
    (N / B * B < N)%nat /\
    Forall (undercounted N B) epochs.
Proof.
  intros N B Hdrop HB Hmod Hperm. unfold train.
  set (body := fun epoch : nat => _).
  assert (Hbody : forall a s0, exists ep s1,
             body a s0 = (Ok tt, s1) /\
             events s1 = events s0 ++ epoch_calls ep /\ undercounted N B ep).
  { intros a s0. unfold body, bind.
    destruct (train_one_epoch_report train_loader s0 Hdrop HB Hmod Hperm)
      as (ep & s1 & H1 & E1 & U1).
    rewrite H1. exists ep, s1. auto. }
  destruct (for_each_events body epoch_calls (undercounted N B) Hbody
              (seq 0 n_epochs) s) as (eps & s' & H & Hlen & E & HF).
  exists eps, s'. split; [exact H|]. split; [now rewrite Hlen, length_seq|].
  split; [exact E|]. split; [|exact HF].
  apply (dropped_samples N HB Hmod).
Qed.

End TrainingFacts.

Lemma running_average_counts_dropped_samples_witness :
  exists (epochs : list epoch_log) (s' : session SGD unit),
    ToyRun.train Toy.loader 2 Toy.start = (Ok tt, s') /\
    length epochs = 2%nat /\
    events s' = events Toy.start ++ flat_map epoch_calls epochs /\
    (3 / 2 * 2 < 3)%nat /\
    Forall (undercounted 3 2) epochs.
Proof.
  apply (@running_average_counts_dropped_samples R R (list R)
           Toy.cast Toy.cast Toy.network Toy.criterion Toy.autograd
           SGD sgd_step unit ToyRun.is_plateau ToyRun.plateau_step
           ToyRun.plain_step Toy.no_shuffle Toy.loader 2%nat Toy.start).
  - reflexivity.
  - simpl. lia.
  - simpl. discriminate.
  - intros k l. apply Permutation_refl.
Defined.

(** The toy epoch: one batch of two samples is processed, its loss is 5/2,
    and the reported average is 5/3 where the mean over the two processed
    samples is 5/2. *)
Example toy_epoch_reports :
  fst (ToyRun.train_one_epoch Toy.loader Toy.start) = Ok (5 / 3).
Proof.
  unfold ToyRun.train_one_epoch, train_one_epoch, Toy.loader.
  unfold bind, iterate, py_div, scheduler_step, set_postfix_str, log, ret.
  simpl. unfold bind, x_to, y_to, log, optimizer_zero_grad, model_call,
    loss_fn, backward, optimizer_step, ret. simpl.
  destruct (sgd_step _ _) as [o ps]. simpl. f_equal.
  unfold Toy.criterion, Toy.mean, Toy.network, Toy.cast, Np.square1, Np.sum.
  simpl. field.
Qed.

Example toy_epoch_trace :
  events (snd (ToyRun.train_epoch Toy.loader Toy.start))
  = EvTrainMode :: batch_calls (5 / 2).
Proof.
  unfold ToyRun.train_epoch, train_epoch, Toy.loader.
  unfold bind, model_train, iterate. simpl.
  unfold bind, x_to, y_to, log, optimizer_zero_grad, model_call,
    loss_fn, backward, optimizer_step, set_postfix_str, log, ret. simpl.
  destruct (sgd_step _ _) as [o ps]. simpl. unfold batch_calls.
  assert (E : Toy.criterion [1 * Toy.cast 1; 1 * Toy.cast 2]
                            [Toy.cast 2; Toy.cast 4] = 5 / 2).
  { unfold Toy.criterion, Toy.mean, Toy.network, Toy.cast, Np.square1, Np.sum.
    simpl. field. }
  rewrite E. reflexivity.
Qed.

(** ** Characteristic polynomials of 4 x 4 matrices *)

Module SpectralFacts.

Import Np Spectral.

Lemma det4_times x y : det4 (times x y) = det4 x * det4 y.
Proof. unfold det4, det3, times. ring. Qed.

Lemma det4_ext x y :
  (forall i j, (i < 4)%nat -> (j < 4)%nat -> x i j = y i j) ->
  det4 x = det4 y.
Proof.
  intros H. unfold det4.
  rewrite !(H 0%nat), !(H 1%nat), !(H 2%nat), !(H 3%nat) by lia.
  reflexivity.
Qed.

(** det (t I - X) det (-t I - X) = det (t^2 I - X X) *)
Lemma charpoly_square x t :
  charpoly x t * charpoly x (- t)
  = det4 (fun i j => diag (t * t) i j - times x x i j).
Proof. unfold charpoly, det4, det3, diag, times. simpl. ring. Qed.

(** The characteristic polynomial is monic of degree 4 and the coefficient
    of t^3 is minus the trace. *)
Lemma charpoly_quartic x :
  exists e2 e3 e4, forall t,
    charpoly x t = t ^ 4 - tr4 x * t ^ 3 + e2 * t ^ 2 - e3 * t + e4.
Proof.
  exists ((charpoly x 1 + charpoly x (-1)) / 2 - 1 - charpoly x 0),
         ((charpoly x (-1) - charpoly x 1) / 2 - tr4 x),
         (charpoly x 0).
  intros t. unfold charpoly, det4, det3, diag, tr4. simpl. field.
Qed.

(** A cubic that vanishes at four points is zero. *)
Lemma cubic_zero u0 u1 u2 u3 r1 r2 r3 r4 :
  r1 < r2 -> r2 < r3 -> r3 < r4 ->
  u0 + u1 * r1 + u2 * r1 ^ 2 + u3 * r1 ^ 3 = 0 ->
  u0 + u1 * r2 + u2 * r2 ^ 2 + u3 * r2 ^ 3 = 0 ->
  u0 + u1 * r3 + u2 * r3 ^ 2 + u3 * r3 ^ 3 = 0 ->
  u0 + u1 * r4 + u2 * r4 ^ 2 + u3 * r4 ^ 3 = 0 ->
  u0 = 0 /\ u1 = 0 /\ u2 = 0 /\ u3 = 0.
Proof.
  intros H12 H23 H34 E1 E2 E3 E4.
  assert (A2 : u1 + u2 * (r1 + r2) + u3 * (r1 ^ 2 + r1 * r2 + r2 ^ 2) = 0).
  { apply (Rmult_eq_reg_l (r1 - r2)); [|lra]. rewrite Rmult_0_r.
    transitivity ((u0 + u1 * r1 + u2 * r1 ^ 2 + u3 * r1 ^ 3)
                  - (u0 + u1 * r2 + u2 * r2 ^ 2 + u3 * r2 ^ 3)); [ring|lra]. }
  assert (A3 : u1 + u2 * (r1 + r3) + u3 * (r1 ^ 2 + r1 * r3 + r3 ^ 2) = 0).
  { apply (Rmult_eq_reg_l (r1 - r3)); [|lra]. rewrite Rmult_0_r.
    transitivity ((u0 + u1 * r1 + u2 * r1 ^ 2 + u3 * r1 ^ 3)
                  - (u0 + u1 * r3 + u2 * r3 ^ 2 + u3 * r3 ^ 3)); [ring|lra]. }
  assert (A4 : u1 + u2 * (r1 + r4) + u3 * (r1 ^ 2 + r1 * r4 + r4 ^ 2) = 0).
  { apply (Rmult_eq_reg_l (r1 - r4)); [|lra]. rewrite Rmult_0_r.
    transitivity ((u0 + u1 * r1 + u2 * r1 ^ 2 + u3 * r1 ^ 3)
                  - (u0 + u1 * r4 + u2 * r4 ^ 2 + u3 * r4 ^ 3)); [ring|lra]. }
  assert (B3 : u2 + u3 * (r1 + r2 + r3) = 0).
  { apply (Rmult_eq_reg_l (r2 - r3)); [|lra]. rewrite Rmult_0_r.
    transitivity ((u1 + u2 * (r1 + r2) + u3 * (r1 ^ 2 + r1 * r2 + r2 ^ 2))
                  - (u1 + u2 * (r1 + r3) + u3 * (r1 ^ 2 + r1 * r3 + r3 ^ 2)));
      [ring|lra]. }
  assert (B4 : u2 + u3 * (r1 + r2 + r4) = 0).
  { apply (Rmult_eq_reg_l (r2 - r4)); [|lra]. rewrite Rmult_0_r.
    transitivity ((u1 + u2 * (r1 + r2) + u3 * (r1 ^ 2 + r1 * r2 + r2 ^ 2))
                  - (u1 + u2 * (r1 + r4) + u3 * (r1 ^ 2 + r1 * r4 + r4 ^ 2)));
      [ring|lra]. }
  assert (C : u3 = 0).
  { apply (Rmult_eq_reg_l (r3 - r4)); [|lra]. rewrite Rmult_0_r.
    transitivity ((u2 + u3 * (r1 + r2 + r3)) - (u2 + u3 * (r1 + r2 + r4)));
      [ring|lra]. }
  subst u3. assert (u2 = 0) by lra. subst u2. assert (u1 = 0) by lra. subst u1.
  repeat split; lra.
Qed.

(** A monic quartic with four roots: the coefficient of t^3 is minus their
    sum. *)
Lemma vieta4 e1 e2 e3 e4 r1 r2 r3 r4 :
  r1 < r2 -> r2 < r3 -> r3 < r4 ->
  (forall r, r = r1 \/ r = r2 \/ r = r3 \/ r = r4 ->
             r ^ 4 - e1 * r ^ 3 + e2 * r ^ 2 - e3 * r + e4 = 0) ->
  e1 = r1 + r2 + r3 + r4.
Proof.
  intros H12 H23 H34 Hroot.
  pose (s1 := r1 + r2 + r3 + r4).
  pose (s2 := r1 * r2 + r1 * r3 + r1 * r4 + r2 * r3 + r2 * r4 + r3 * r4).
  pose (s3 := r1 * r2 * r3 + r1 * r2 * r4 + r1 * r3 * r4 + r2 * r3 * r4).
  pose (s4 := r1 * r2 * r3 * r4).
  assert (Hprod : forall r, r = r1 \/ r = r2 \/ r = r3 \/ r = r4 ->
             r ^ 4 - s1 * r ^ 3 + s2 * r ^ 2 - s3 * r + s4 = 0).
  { intros r [->|[->|[->| ->]]]; unfold s1, s2, s3, s4; ring. }
  assert (Hdiff : forall r, r = r1 \/ r = r2 \/ r = r3 \/ r = r4 ->
             (e4 - s4) + (- (e3 - s3)) * r + (e2 - s2) * r ^ 2
             + (- (e1 - s1)) * r ^ 3 = 0).
  { intros r Hr. pose proof (Hroot r Hr). pose proof (Hprod r Hr). lra. }
  destruct (@cubic_zero (e4 - s4) (- (e3 - s3)) (e2 - s2) (- (e1 - s1))
              r1 r2 r3 r4) as (_ & _ & _ & H); auto 6.
  unfold s1 in H. lra.
Qed.

(** *** Roots by the intermediate value theorem *)

Lemma ivt_root (f : R -> R) a b :
  continuity f -> a < b -> f a * f b < 0 ->
  exists r, a <= r <= b /\ f r = 0.
Proof.
  intros Hc Hab Hsign.
  destruct (Rlt_le_dec (f a) 0) as [Ha|Ha].
  - assert (Hb : 0 < f b) by nra.
    destruct (IVT f a b Hc Hab Ha Hb) as (r & Hr & Hz). now exists r.
  - assert (Ha' : 0 < f a).
    { destruct (Rle_lt_or_eq_dec _ _ Ha) as [|E]; auto.
      rewrite <- E, Rmult_0_l in Hsign. lra. }
    assert (Hb : f b < 0) by nra.
    assert (Hc' : continuity (- f)%F) by now apply continuity_opp.
    assert (Hna : (- f)%F a < 0) by (unfold opp_fct; lra).
    assert (Hnb : 0 < (- f)%F b) by (unfold opp_fct; lra).
    destruct (IVT (- f)%F a b Hc' Hab Hna Hnb) as (r & Hr & Hz).
    exists r. split; auto. unfold opp_fct in Hz. lra.
Qed.

(** A continuous function without zero on the non-positive reals keeps its
    sign there. *)
Lemma same_sign_nonpositive (f : R -> R) s1 s2 :
  continuity f -> (forall s, s <= 0 -> f s <> 0) ->
  s1 <= 0 -> s2 <= 0 -> 0 < f s1 * f s2.
Proof.
  intros Hc Hnz H1 H2.
  assert (Hlt : forall u v, u < v -> v <= 0 -> 0 < f u * f v).
  { intros u v Huv Hv.
    destruct (Rlt_le_dec (f u * f v) 0) as [Hneg|Hpos].
    - destruct (@ivt_root f u v Hc Huv Hneg) as (r & Hr & Hz).
      exfalso. apply (Hnz r); [lra | exact Hz].
    - pose proof (Hnz u ltac:(lra)). pose proof (Hnz v Hv).
      destruct (Rle_lt_or_eq_dec _ _ Hpos) as [|E]; auto.
      symmetry in E. apply Rmult_integral in E. tauto. }
  destruct (Rtotal_order s1 s2) as [H|[->|H]].
  - now apply Hlt.
  - pose proof (Hnz s2 H2). nra.
  - rewrite Rmult_comm. now apply Hlt.
Qed.

(** If f(t) f(-t) = q(t) and q changes sign between a and b, then f has a
    root between a and b. *)
Lemma bracket_root (f q : R -> R) a b :
  continuity f -> (forall s, s <= 0 -> f s <> 0) ->
  (forall t, f t * f (- t) = q t) ->
  0 <= a -> a < b -> q a * q b < 0 ->
  exists r, a <= r <= b /\ f r = 0.
Proof.
  intros Hc Hnz Hq Ha Hab Hsign.
  pose proof (@same_sign_nonpositive f (- a) (- b) Hc Hnz ltac:(lra) ltac:(lra))
    as Hpos.
  rewrite <- (Hq a), <- (Hq b) in Hsign.
  apply (@ivt_root f a b Hc Hab). nra.
Qed.

(** *** Lists of rows and arrays of entries *)

Lemma mat4_eta (X : mat) : is_square 4 X -> X = mat4 (entry X).
Proof.
  intros [Hl HF].
  destruct X as [|r0 [|r1 [|r2 [|r3 [|? ?]]]]]; try discriminate.
  inversion HF as [|? ? H0 HF0]; subst.
  inversion HF0 as [|? ? H1 HF1]; subst.
  inversion HF1 as [|? ? H2 HF2]; subst.
  inversion HF2 as [|? ? H3 _]; subst.
  destruct r0 as [|? [|? [|? [|? [|? ?]]]]]; try discriminate.
  destruct r1 as [|? [|? [|? [|? [|? ?]]]]]; try discriminate.
  destruct r2 as [|? [|? [|? [|? [|? ?]]]]]; try discriminate.
  destruct r3 as [|? [|? [|? [|? [|? ?]]]]]; try discriminate.
  reflexivity.
Qed.

Lemma mat4_square f : is_square 4 (mat4 f).
Proof. split; [reflexivity | repeat constructor]. Qed.

Lemma entry_mat4 f i j : (i < 4)%nat -> (j < 4)%nat -> entry (mat4 f) i j = f i j.
Proof.
  intros Hi Hj.
  do 4 (try (destruct i as [|i])); try lia;
    do 4 (try (destruct j as [|j])); try lia; reflexivity.
Qed.

Lemma mat4_ext f g :
  (forall i j, (i < 4)%nat -> (j < 4)%nat -> f i j = g i j) ->
  mat4 f = mat4 g.
Proof.
  intros H. unfold mat4. simpl.
  rewrite !(H 0%nat), !(H 1%nat), !(H 2%nat), !(H 3%nat) by lia.
  reflexivity.
Qed.

Lemma mat4_inj f g i j :
  mat4 f = mat4 g -> (i < 4)%nat -> (j < 4)%nat -> f i j = g i j.
Proof.
  intros H Hi Hj.
  rewrite <- (entry_mat4 f Hi Hj), <- (entry_mat4 g Hi Hj). now rewrite H.
Qed.

Lemma Ok_inj {A} (a b : A) : Ok a = Ok b -> a = b.
Proof. intros H. congruence. Qed.

Lemma matmul_mat4 f g : matmul (mat4 f) (mat4 g) = Ok (mat4 (times f g)).
Proof. reflexivity. Qed.

(** *** The trace of a matrix with known characteristic product *)

Lemma charpoly_continuous x : continuity (charpoly x).
Proof.
  destruct (charpoly_quartic x) as (e2 & e3 & e4 & H).
  assert (Hc : continuity
                 (fun t => t ^ 4 - tr4 x * t ^ 3 + e2 * t ^ 2 - e3 * t + e4))
    by reg.
  intros t. specialize (Hc t).
  unfold continuity_pt, continue_in, limit1_in, limit_in in *.
  intros eps Heps. destruct (Hc eps Heps) as (alp & Halp & Hlim).
  exists alp. split; auto. intros u Hu. rewrite !H. now apply Hlim.
Qed.

(** If X has no eigenvalue s <= 0 and det(t I - X) det(-t I - X) = q(t)
    changes sign on four disjoint intervals of non-negative numbers, the
    trace of X lies between the sums of the end points. *)
Lemma trace_in_brackets x (q : R -> R) a1 b1 a2 b2 a3 b3 a4 b4 :
  (forall s, s <= 0 -> charpoly x s <> 0) ->
  (forall t, charpoly x t * charpoly x (- t) = q t) ->
  0 <= a1 -> a1 < b1 -> b1 < a2 -> a2 < b2 -> b2 < a3 -> a3 < b3 ->
  b3 < a4 -> a4 < b4 ->
  q a1 * q b1 < 0 -> q a2 * q b2 < 0 -> q a3 * q b3 < 0 -> q a4 * q b4 < 0 ->
  a1 + a2 + a3 + a4 <= tr4 x <= b1 + b2 + b3 + b4.
Proof.
  intros Hnz Hq H0 H1 H12 H2 H23 H3 H34 H4 S1 S2 S3 S4.
  pose proof (charpoly_continuous x) as Hc.
  destruct (@bracket_root (charpoly x) q a1 b1 Hc Hnz Hq) as (r1 & B1 & Z1);
    auto; try lra.
  destruct (@bracket_root (charpoly x) q a2 b2 Hc Hnz Hq) as (r2 & B2 & Z2);
    auto; try lra.
  destruct (@bracket_root (charpoly x) q a3 b3 Hc Hnz Hq) as (r3 & B3 & Z3);
    auto; try lra.
  destruct (@bracket_root (charpoly x) q a4 b4 Hc Hnz Hq) as (r4 & B4 & Z4);
    auto; try lra.
  destruct (charpoly_quartic x) as (e2 & e3 & e4 & H).
  assert (E : tr4 x = r1 + r2 + r3 + r4).
  { apply (@vieta4 (tr4 x) e2 e3 e4 r1 r2 r3 r4); try lra.
    intros r [->|[->|[->| ->]]]; rewrite <- H; assumption. }
  lra.
Qed.

End SpectralFacts.

(** ** Existence of the principal square root *)

Module MatrixPolyFacts.

Import Np Spectral SpectralFacts MatrixPoly.

Lemma det4_opp x : det4 (fun i j => - x i j) = det4 x.
Proof. unfold det4, det3. ring. Qed.

Lemma det4_diag_1 : det4 (diag 1) = 1.
Proof. unfold det4, det3, diag. simpl. ring. Qed.

Lemma mulmod_eval s1 s2 s3 s4 g h l :
  quartic s1 s2 s3 s4 l = 0 ->
  eval (mulmod s1 s2 s3 s4 g h) l = eval g l * eval h l.
Proof.
  intros Hl. unfold quartic in Hl.
  destruct g as [g0 g1 g2 g3], h as [h0 h1 h2 h3].
  unfold eval, mulmod. simpl.
  transitivity
    ((g0 + g1 * l + g2 * l ^ 2 + g3 * l ^ 3)
     * (h0 + h1 * l + h2 * l ^ 2 + h3 * l ^ 3)
     - ((g1 * h3 + g2 * h2 + g3 * h1)
        + (g2 * h3 + g3 * h2) * (l + s1)
        + g3 * h3 * (l ^ 2 + s1 * l + (s1 * s1 - s2)))
       * (l ^ 4 - s1 * l ^ 3 + s2 * l ^ 2 - s3 * l + s4)); [ring|].
  rewrite Hl. ring.
Qed.

Lemma quartic_continuous s1 s2 s3 s4 : continuity (quartic s1 s2 s3 s4).
Proof. unfold quartic. reg. Qed.

Section Lagrange.

Variables l1 l2 l3 l4 : R.
Hypothesis H12 : l1 < l2.
Hypothesis H23 : l2 < l3.
Hypothesis H34 : l3 < l4.

Lemma lagrange_at v1 v2 v3 v4 :
  let p := lagrange l1 l2 l3 l4 v1 v2 v3 v4 in
  eval p l1 = v1 /\ eval p l2 = v2 /\ eval p l3 = v3 /\ eval p l4 = v4.
Proof.
  unfold lagrange, eval. simpl.
  repeat split; field; repeat split; lra.
Qed.

Lemma cubic_unique p q :
  eval p l1 = eval q l1 -> eval p l2 = eval q l2 ->
  eval p l3 = eval q l3 -> eval p l4 = eval q l4 -> p = q.
Proof.
  destruct p as [a0 a1 a2 a3], q as [b0 b1 b2 b3]. unfold eval. simpl.
  intros E1 E2 E3 E4.
  destruct (@cubic_zero (a0 - b0) (a1 - b1) (a2 - b2) (a3 - b3) l1 l2 l3 l4)
    as (Z0 & Z1 & Z2 & Z3); auto; try lra.
  f_equal; lra.
Qed.

(** A monic quartic with roots l1, ..., l4 vanishes nowhere else. *)
Lemma quartic_roots s1 s2 s3 s4 u :
  quartic s1 s2 s3 s4 l1 = 0 -> quartic s1 s2 s3 s4 l2 = 0 ->
  quartic s1 s2 s3 s4 l3 = 0 -> quartic s1 s2 s3 s4 l4 = 0 ->
  quartic s1 s2 s3 s4 u = 0 -> u = l1 \/ u = l2 \/ u = l3 \/ u = l4.
Proof.
  unfold quartic. intros E1 E2 E3 E4 Eu.
  pose (t1 := l1 + l2 + l3 + l4).
  pose (t2 := l1 * l2 + l1 * l3 + l1 * l4 + l2 * l3 + l2 * l4 + l3 * l4).
  pose (t3 := l1 * l2 * l3 + l1 * l2 * l4 + l1 * l3 * l4 + l2 * l3 * l4).
  pose (t4 := l1 * l2 * l3 * l4).
  destruct (@cubic_zero (s4 - t4) (- (s3 - t3)) (s2 - t2) (- (s1 - t1))
              l1 l2 l3 l4) as (Z0 & Z1 & Z2 & Z3); auto;
    try (unfold t1, t2, t3, t4; lra).
  assert (F : (u - l1) * ((u - l2) * ((u - l3) * (u - l4))) = 0).
  { transitivity (u ^ 4 - t1 * u ^ 3 + t2 * u ^ 2 - t3 * u + t4);
      [unfold t1, t2, t3, t4; ring|].
    replace t1 with s1 by lra. replace t2 with s2 by lra.
    replace t3 with s3 by lra. replace t4 with s4 by lra. exact Eu. }
  apply Rmult_integral in F. destruct F as [F|F]; [left; lra|].
  apply Rmult_integral in F. destruct F as [F|F]; [right; left; lra|].
  apply Rmult_integral in F. destruct F as [F|F]; [right; right; left; lra|].
  right; right; right; lra.
Qed.

End Lagrange.

(** p(M) is the principal square root of M when p interpolates the square
    roots of the eigenvalues of M. *)
Section PrincipalRoot.

Variables M T2 T3 : mat.
Variables s1 s2 s3 s4 : R.
Variables l1 l2 l3 l4 : R.

Local Notation at_M := (poly_at M T2 T3).
Local Notation chi := (quartic s1 s2 s3 s4).

Hypothesis M_square : is_square 4 M.
Hypothesis poly_times : forall g h i j, (i < 4)%nat -> (j < 4)%nat ->
  times (at_M g) (at_M h) i j = at_M (mulmod s1 s2 s3 s4 g h) i j.
Hypothesis chi_of_square : forall x, mat4 (times x x) = M ->
  forall u, det4 (fun i j => diag u i j - times x x i j) = chi u.
Hypothesis l1_pos : 0 < l1.
Hypothesis H12 : l1 < l2.
Hypothesis H23 : l2 < l3.
Hypothesis H34 : l3 < l4.
Hypothesis root1 : chi l1 = 0.
Hypothesis root2 : chi l2 = 0.
Hypothesis root3 : chi l3 = 0.
Hypothesis root4 : chi l4 = 0.

Local Notation root_cubic := (MatrixPoly.root_cubic l1 l2 l3 l4).

Lemma at_M_identity i j : at_M (Cubic 0 1 0 0) i j = entry M i j.
Proof. unfold poly_at. simpl. ring. Qed.

Lemma at_M_one i j : at_M (Cubic 1 0 0 0) i j = diag 1 i j.
Proof. unfold poly_at. simpl. ring. Qed.

Lemma at_M_shift p r i j :
  at_M p i j + diag r i j = at_M (Cubic (k0 p + r) (k1 p) (k2 p) (k3 p)) i j.
Proof. unfold poly_at, diag. simpl. destruct (i =? j)%nat; ring. Qed.

Lemma root_cubic_squared :
  mulmod s1 s2 s3 s4 root_cubic root_cubic = Cubic 0 1 0 0.
Proof.
  destruct (lagrange_at H12 H23 H34 (sqrt l1) (sqrt l2) (sqrt l3) (sqrt l4))
    as (E1 & E2 & E3 & E4).
  apply (cubic_unique H12 H23 H34); rewrite mulmod_eval by assumption;
    unfold MatrixPoly.root_cubic; rewrite ?E1, ?E2, ?E3, ?E4; unfold eval; simpl;
    rewrite sqrt_sqrt by lra; ring.
Qed.

Lemma root_cubic_square : mat4 (times (at_M root_cubic) (at_M root_cubic)) = M.
Proof.
  rewrite (mat4_eta M_square) at 3. apply mat4_ext. intros i j Hi Hj.
  rewrite poly_times by assumption. rewrite root_cubic_squared.
  apply at_M_identity.
Qed.

(** p(M) + r I is invertible for r > 0. *)
Lemma shifted_root_invertible r :
  0 < r -> det4 (fun i j => at_M root_cubic i j + diag r i j) <> 0.
Proof.
  intros Hr.
  assert (P1 : 0 < sqrt l1) by (apply sqrt_lt_R0; lra).
  assert (P2 : 0 < sqrt l2) by (apply sqrt_lt_R0; lra).
  assert (P3 : 0 < sqrt l3) by (apply sqrt_lt_R0; lra).
  assert (P4 : 0 < sqrt l4) by (apply sqrt_lt_R0; lra).
  pose (c := Cubic (k0 root_cubic + r) (k1 root_cubic) (k2 root_cubic)
                   (k3 root_cubic)).
  pose (h := lagrange l1 l2 l3 l4 (/ (sqrt l1 + r)) (/ (sqrt l2 + r))
                      (/ (sqrt l3 + r)) (/ (sqrt l4 + r))).
  assert (Ec : forall l, eval c l = eval root_cubic l + r)
    by (intros l; unfold c, eval; simpl; ring).
  assert (Hch : mulmod s1 s2 s3 s4 c h = Cubic 1 0 0 0).
  { destruct (lagrange_at H12 H23 H34 (sqrt l1) (sqrt l2) (sqrt l3) (sqrt l4))
      as (E1 & E2 & E3 & E4).
    destruct (lagrange_at H12 H23 H34 (/ (sqrt l1 + r)) (/ (sqrt l2 + r))
                          (/ (sqrt l3 + r)) (/ (sqrt l4 + r)))
      as (F1 & F2 & F3 & F4).
    apply (cubic_unique H12 H23 H34); rewrite mulmod_eval by assumption;
      rewrite Ec; unfold h, MatrixPoly.root_cubic;
      rewrite ?E1, ?E2, ?E3, ?E4, ?F1, ?F2, ?F3, ?F4; unfold eval; simpl;
      field; lra. }
  assert (Hdet : det4 (at_M c) * det4 (at_M h) = 1).
  { rewrite <- det4_times.
    rewrite (@det4_ext _ (diag 1)); [apply det4_diag_1|].
    intros i j Hi Hj. rewrite poly_times by assumption. rewrite Hch.
    apply at_M_one. }
  rewrite (@det4_ext _ (at_M c)) by (intros i j _ _; apply at_M_shift).
  intros Z. rewrite Z in Hdet. lra.
Qed.

Theorem polynomial_principal_root :
  principal_root M (mat4 (at_M root_cubic)).
Proof.
  split; [apply mat4_square|]. split.
  { rewrite matmul_mat4. f_equal. apply root_cubic_square. }
  intros s Hs Hzero.
  assert (Hx : charpoly (entry (mat4 (at_M root_cubic))) s
               = charpoly (at_M root_cubic) s).
  { unfold charpoly. apply det4_ext. intros i j Hi Hj.
    now rewrite entry_mat4. }
  rewrite Hx in Hzero.
  pose proof (charpoly_square (at_M root_cubic) s) as Hsq.
  rewrite (chi_of_square root_cubic_square) in Hsq.
  rewrite Hzero, Rmult_0_l in Hsq. symmetry in Hsq.
  assert (Hneg : forall l, 0 < l -> s * s = l -> s = - sqrt l).
  { intros l Hl E.
    assert (E' : sqrt l = - s).
    { rewrite <- E. replace (s * s) with ((- s) * (- s)) by ring.
      apply sqrt_square. lra. }
    lra. }
  assert (Hone : forall l, 0 < l -> s * s = l -> False).
  { intros l Hl E. apply Hneg in E; [|exact Hl].
    apply (@shifted_root_invertible (sqrt l)); [apply sqrt_lt_R0; exact Hl|].
    rewrite <- det4_opp. rewrite <- Hzero. unfold charpoly.
    apply det4_ext. intros i j _ _. rewrite E. unfold diag.
    destruct (i =? j)%nat; ring. }
  destruct (quartic_roots H12 H23 H34 root1 root2 root3 root4 Hsq)
    as [E|[E|[E|E]]]; apply Hone in E; auto; lra.
Qed.

End PrincipalRoot.

End MatrixPolyFacts.

(** ** The two products of the script *)

Module ScriptFacts.

Import Np Spectral SpectralFacts MatrixPoly MatrixPolyFacts.

Ltac entry_value :=
  cbn [FidSpec.big_sum entry nth Test2b.sigma_real Test2b.sigma1
       Test2b.sigma2]; lra.

Lemma chi_1_of_square x :
  mat4 (times x x) = FidSpec.product 4 Test2b.sigma_real Test2b.sigma1 ->
  forall u, det4 (fun i j => diag u i j - times x x i j) = chi_1 u.
Proof.
  intros E u. change (FidSpec.product 4 Test2b.sigma_real Test2b.sigma1)
    with (mat4 (fun i j => FidSpec.big_sum 4 (fun k =>
            entry Test2b.sigma_real i k * entry Test2b.sigma1 k j))) in E.
  assert (H00 : times x x 0 0 = 0.1529)
    by (rewrite (mat4_inj E (i := 0) (j := 0)) by lia; entry_value).
  assert (H01 : times x x 0 1 = 0.046)
    by (rewrite (mat4_inj E (i := 0) (j := 1)) by lia; entry_value).
  assert (H02 : times x x 0 2 = 0.037)
    by (rewrite (mat4_inj E (i := 0) (j := 2)) by lia; entry_value).
  assert (H03 : times x x 0 3 = 0.017)
    by (rewrite (mat4_inj E (i := 0) (j := 3)) by lia; entry_value).
  assert (H10 : times x x 1 0 = 0.106)
    by (rewrite (mat4_inj E (i := 1) (j := 0)) by lia; entry_value).
  assert (H11 : times x x 1 1 = 0.0825)
    by (rewrite (mat4_inj E (i := 1) (j := 1)) by lia; entry_value).
  assert (H12 : times x x 1 2 = 0.07)
    by (rewrite (mat4_inj E (i := 1) (j := 2)) by lia; entry_value).
  assert (H13 : times x x 1 3 = 0.0345)
    by (rewrite (mat4_inj E (i := 1) (j := 3)) by lia; entry_value).
  assert (H20 : times x x 2 0 = 0.067)
    by (rewrite (mat4_inj E (i := 2) (j := 0)) by lia; entry_value).
  assert (H21 : times x x 2 1 = 0.07)
    by (rewrite (mat4_inj E (i := 2) (j := 1)) by lia; entry_value).
  assert (H22 : times x x 2 2 = 0.1425)
    by (rewrite (mat4_inj E (i := 2) (j := 2)) by lia; entry_value).
  assert (H23 : times x x 2 3 = 0.061)
    by (rewrite (mat4_inj E (i := 2) (j := 3)) by lia; entry_value).
  assert (H30 : times x x 3 0 = 0.028)
    by (rewrite (mat4_inj E (i := 3) (j := 0)) by lia; entry_value).
  assert (H31 : times x x 3 1 = 0.032)
    by (rewrite (mat4_inj E (i := 3) (j := 1)) by lia; entry_value).
  assert (H32 : times x x 3 2 = 0.056)
    by (rewrite (mat4_inj E (i := 3) (j := 2)) by lia; entry_value).
  assert (H33 : times x x 3 3 = 0.0429)
    by (rewrite (mat4_inj E (i := 3) (j := 3)) by lia; entry_value).
  unfold det4, det3, diag. simpl.
  rewrite H00, H01, H02, H03, H10, H11, H12, H13, H20, H21, H22, H23, H30, H31, H32, H33.
  unfold chi_1. lra.
Qed.

Lemma chi_1_bracket_1 :
  chi_1 (0.125662 * 0.125662) * chi_1 (0.1256622 * 0.1256622) < 0.
Proof. unfold chi_1. lra. Qed.

Lemma chi_1_bracket_2 :
  chi_1 (0.1604945 * 0.1604945) * chi_1 (0.1604946 * 0.1604946) < 0.
Proof. unfold chi_1. lra. Qed.

Lemma chi_1_bracket_3 :
  chi_1 (0.3254909 * 0.3254909) * chi_1 (0.325491 * 0.325491) < 0.
Proof. unfold chi_1. lra. Qed.

Lemma chi_1_bracket_4 :
  chi_1 (0.5227869 * 0.5227869) * chi_1 (0.522787 * 0.522787) < 0.
Proof. unfold chi_1. lra. Qed.

Lemma poly_times_1 g h i j :
  (i < 4)%nat -> (j < 4)%nat ->
  times (poly_at (FidSpec.product 4 Test2b.sigma_real Test2b.sigma1) square_1 cube_1 g)
        (poly_at (FidSpec.product 4 Test2b.sigma_real Test2b.sigma1) square_1 cube_1 h) i j
  = poly_at (FidSpec.product 4 Test2b.sigma_real Test2b.sigma1) square_1 cube_1
      (mulmod 0.4208 0.04511966 0.001357336 0.0000117775940625 g h) i j.
Proof.
  intros Hi Hj. destruct g as [g0 g1 g2 g3], h as [h0 h1 h2 h3].
  do 4 (try (destruct i as [|i])); try lia;
    do 4 (try (destruct j as [|j])); try lia;
    unfold times, poly_at, mulmod, diag, entry, square_1, cube_1,
      FidSpec.product, Test2b.sigma_real, Test2b.sigma1;
    cbv [FidSpec.big_sum entry nth map seq k0 k1 k2 k3 Nat.eqb]; lra.
Qed.

(** sigma_real @ sigma1 has a principal square root. *)
Lemma principal_root_1_exists :
  exists X, principal_root (FidSpec.product 4 Test2b.sigma_real Test2b.sigma1) X.
Proof.
  destruct (@ivt_root chi_1 (0.125662 * 0.125662) (0.1256622 * 0.1256622)
              (quartic_continuous _ _ _ _) ltac:(lra) chi_1_bracket_1)
    as (l1 & B1 & R1).
  destruct (@ivt_root chi_1 (0.1604945 * 0.1604945) (0.1604946 * 0.1604946)
              (quartic_continuous _ _ _ _) ltac:(lra) chi_1_bracket_2)
    as (l2 & B2 & R2).
  destruct (@ivt_root chi_1 (0.3254909 * 0.3254909) (0.325491 * 0.325491)
              (quartic_continuous _ _ _ _) ltac:(lra) chi_1_bracket_3)
    as (l3 & B3 & R3).
  destruct (@ivt_root chi_1 (0.5227869 * 0.5227869) (0.522787 * 0.522787)
              (quartic_continuous _ _ _ _) ltac:(lra) chi_1_bracket_4)
    as (l4 & B4 & R4).
  exists (mat4 (poly_at (FidSpec.product 4 Test2b.sigma_real Test2b.sigma1) square_1 cube_1
                        (root_cubic l1 l2 l3 l4))).
  apply (@polynomial_principal_root (FidSpec.product 4 Test2b.sigma_real Test2b.sigma1) square_1 cube_1
           0.4208 0.04511966 0.001357336 0.0000117775940625 l1 l2 l3 l4);
    try assumption; try lra.
  - apply NpFacts.product_square.
  - apply poly_times_1.
  - apply chi_1_of_square.
Qed.

(** The trace of a principal square root of sigma_real @ sigma1. *)
Lemma trace_of_root_1 (X : mat) :
  principal_root (FidSpec.product 4 Test2b.sigma_real Test2b.sigma1) X ->
  1.1344343 <= tr4 (entry X) <= 1.1344348.
Proof.
  intros (Hsq & Hmul & Hnz).
  rewrite (mat4_eta Hsq) in Hmul at 1 2. rewrite matmul_mat4 in Hmul.
  apply Ok_inj in Hmul. rename Hmul into E.
  assert (Hq : forall t, charpoly (entry X) t * charpoly (entry X) (- t)
                         = chi_1 (t * t))
    by (intros t; rewrite charpoly_square; apply chi_1_of_square, E).
  pose proof (@trace_in_brackets (entry X) (fun t => chi_1 (t * t))
                0.125662 0.1256622 0.1604945 0.1604946 0.3254909 0.325491 0.5227869 0.522787 Hnz Hq
                ltac:(lra) ltac:(lra) ltac:(lra) ltac:(lra) ltac:(lra)
                ltac:(lra) ltac:(lra) ltac:(lra)
                chi_1_bracket_1 chi_1_bracket_2
                chi_1_bracket_3 chi_1_bracket_4) as H.
  lra.
Qed.

Lemma chi_2_of_square x :
  mat4 (times x x) = FidSpec.product 4 Test2b.sigma_real Test2b.sigma2 ->
  forall u, det4 (fun i j => diag u i j - times x x i j) = chi_2 u.
Proof.
  intros E u. change (FidSpec.product 4 Test2b.sigma_real Test2b.sigma2)
    with (mat4 (fun i j => FidSpec.big_sum 4 (fun k =>
            entry Test2b.sigma_real i k * entry Test2b.sigma2 k j))) in E.
  assert (H00 : times x x 0 0 = 0.0877)
    by (rewrite (mat4_inj E (i := 0) (j := 0)) by lia; entry_value).
  assert (H01 : times x x 0 1 = 0.046)
    by (rewrite (mat4_inj E (i := 0) (j := 1)) by lia; entry_value).
  assert (H02 : times x x 0 2 = 0.031)
    by (rewrite (mat4_inj E (i := 0) (j := 2)) by lia; entry_value).
  assert (H03 : times x x 0 3 = 0.0135)
    by (rewrite (mat4_inj E (i := 0) (j := 3)) by lia; entry_value).
  assert (H10 : times x x 1 0 = 0.0605)
    by (rewrite (mat4_inj E (i := 1) (j := 0)) by lia; entry_value).
  assert (H11 : times x x 1 1 = 0.1075)
    by (rewrite (mat4_inj E (i := 1) (j := 1)) by lia; entry_value).
  assert (H12 : times x x 1 2 = 0.0575)
    by (rewrite (mat4_inj E (i := 1) (j := 2)) by lia; entry_value).
  assert (H13 : times x x 1 3 = 0.031)
    by (rewrite (mat4_inj E (i := 1) (j := 3)) by lia; entry_value).
  assert (H20 : times x x 2 0 = 0.046)
    by (rewrite (mat4_inj E (i := 2) (j := 0)) by lia; entry_value).
  assert (H21 : times x x 2 1 = 0.0775)
    by (rewrite (mat4_inj E (i := 2) (j := 1)) by lia; entry_value).
  assert (H22 : times x x 2 2 = 0.0975)
    by (rewrite (mat4_inj E (i := 2) (j := 2)) by lia; entry_value).
  assert (H23 : times x x 2 3 = 0.0455)
    by (rewrite (mat4_inj E (i := 2) (j := 3)) by lia; entry_value).
  assert (H30 : times x x 3 0 = 0.0175)
    by (rewrite (mat4_inj E (i := 3) (j := 0)) by lia; entry_value).
  assert (H31 : times x x 3 1 = 0.036)
    by (rewrite (mat4_inj E (i := 3) (j := 1)) by lia; entry_value).
  assert (H32 : times x x 3 2 = 0.036)
    by (rewrite (mat4_inj E (i := 3) (j := 2)) by lia; entry_value).
  assert (H33 : times x x 3 3 = 0.0477)
    by (rewrite (mat4_inj E (i := 3) (j := 3)) by lia; entry_value).
  unfold det4, det3, diag. simpl.
  rewrite H00, H01, H02, H03, H10, H11, H12, H13, H20, H21, H22, H23, H30, H31, H32, H33.
  unfold chi_2. lra.
Qed.

Lemma chi_2_bracket_1 :
  chi_2 (0.1565197 * 0.1565197) * chi_2 (0.1565198 * 0.1565198) < 0.
Proof. unfold chi_2. lra. Qed.

Lemma chi_2_bracket_2 :
  chi_2 (0.1849534 * 0.1849534) * chi_2 (0.1849535 * 0.1849535) < 0.
Proof. unfold chi_2. lra. Qed.

Lemma chi_2_bracket_3 :
  chi_2 (0.2460763 * 0.2460763) * chi_2 (0.2460764 * 0.2460764) < 0.
Proof. unfold chi_2. lra. Qed.

Lemma chi_2_bracket_4 :
  chi_2 (0.4702554 * 0.4702554) * chi_2 (0.4702556 * 0.4702556) < 0.
Proof. unfold chi_2. lra. Qed.

Lemma poly_times_2 g h i j :
  (i < 4)%nat -> (j < 4)%nat ->
  times (poly_at (FidSpec.product 4 Test2b.sigma_real Test2b.sigma2) square_2 cube_2 g)
        (poly_at (FidSpec.product 4 Test2b.sigma_real Test2b.sigma2) square_2 cube_2 h) i j
  = poly_at (FidSpec.product 4 Test2b.sigma_real Test2b.sigma2) square_2 cube_2
      (mulmod 0.3404 0.03076604 0.0010221946 0.00001122201 g h) i j.
Proof.
  intros Hi Hj. destruct g as [g0 g1 g2 g3], h as [h0 h1 h2 h3].
  do 4 (try (destruct i as [|i])); try lia;
    do 4 (try (destruct j as [|j])); try lia;
    unfold times, poly_at, mulmod, diag, entry, square_2, cube_2,
      FidSpec.product, Test2b.sigma_real, Test2b.sigma2;
    cbv [FidSpec.big_sum entry nth map seq k0 k1 k2 k3 Nat.eqb]; lra.
Qed.

(** sigma_real @ sigma2 has a principal square root. *)
Lemma principal_root_2_exists :
  exists X, principal_root (FidSpec.product 4 Test2b.sigma_real Test2b.sigma2) X.
Proof.
  destruct (@ivt_root chi_2 (0.1565197 * 0.1565197) (0.1565198 * 0.1565198)
              (quartic_continuous _ _ _ _) ltac:(lra) chi_2_bracket_1)
    as (l1 & B1 & R1).
  destruct (@ivt_root chi_2 (0.1849534 * 0.1849534) (0.1849535 * 0.1849535)
              (quartic_continuous _ _ _ _) ltac:(lra) chi_2_bracket_2)
    as (l2 & B2 & R2).
  destruct (@ivt_root chi_2 (0.2460763 * 0.2460763) (0.2460764 * 0.2460764)
              (quartic_continuous _ _ _ _) ltac:(lra) chi_2_bracket_3)
    as (l3 & B3 & R3).
  destruct (@ivt_root chi_2 (0.4702554 * 0.4702554) (0.4702556 * 0.4702556)
              (quartic_continuous _ _ _ _) ltac:(lra) chi_2_bracket_4)
    as (l4 & B4 & R4).
  exists (mat4 (poly_at (FidSpec.product 4 Test2b.sigma_real Test2b.sigma2) square_2 cube_2
                        (root_cubic l1 l2 l3 l4))).
  apply (@polynomial_principal_root (FidSpec.product 4 Test2b.sigma_real Test2b.sigma2) square_2 cube_2
           0.3404 0.03076604 0.0010221946 0.00001122201 l1 l2 l3 l4);
    try assumption; try lra.
  - apply NpFacts.product_square.
  - apply poly_times_2.
  - apply chi_2_of_square.
Qed.

(** The trace of a principal square root of sigma_real @ sigma2. *)
Lemma trace_of_root_2 (X : mat) :
  principal_root (FidSpec.product 4 Test2b.sigma_real Test2b.sigma2) X ->
  1.0578048 <= tr4 (entry X) <= 1.0578053.
Proof.
  intros (Hsq & Hmul & Hnz).
  rewrite (mat4_eta Hsq) in Hmul at 1 2. rewrite matmul_mat4 in Hmul.
  apply Ok_inj in Hmul. rename Hmul into E.
  assert (Hq : forall t, charpoly (entry X) t * charpoly (entry X) (- t)
                         = chi_2 (t * t))
    by (intros t; rewrite charpoly_square; apply chi_2_of_square, E).
  pose proof (@trace_in_brackets (entry X) (fun t => chi_2 (t * t))
                0.1565197 0.1565198 0.1849534 0.1849535 0.2460763 0.2460764 0.4702554 0.4702556 Hnz Hq
                ltac:(lra) ltac:(lra) ltac:(lra) ltac:(lra) ltac:(lra)
                ltac:(lra) ltac:(lra) ltac:(lra)
                chi_2_bracket_1 chi_2_bracket_2
                chi_2_bracket_3 chi_2_bracket_4) as H.
  lra.
Qed.

End ScriptFacts.

(** ** The run of the script *)

Lemma sigma_square (S : mat) :
  S = Test2b.sigma_real \/ S = Test2b.sigma1 \/ S = Test2b.sigma2 ->
  is_square 4 S.
Proof.
  intros [->|[->| ->]]; (split; [reflexivity | repeat constructor]).
Qed.

Lemma product_of_script (S : mat) :
  S = Test2b.sigma1 \/ S = Test2b.sigma2 ->
  matmul Test2b.sigma_real S = Ok (FidSpec.product 4 Test2b.sigma_real S).
Proof.
  intros H. apply NpFacts.matmul_square; apply sigma_square; tauto.
Qed.

(** The principal square root, chosen where it exists, meets the contract
    on the two products of the script. *)
Lemma sqrtm_ideal_principal_1 :
  principal_on_product sqrtm_ideal Test2b.sigma_real Test2b.sigma1.
Proof.
  intros P HP. rewrite product_of_script in HP by tauto.
  apply SpectralFacts.Ok_inj in HP. subst P. unfold sqrtm_ideal. cbn [root].
  apply epsilon_spec, ScriptFacts.principal_root_1_exists.
Qed.

Lemma sqrtm_ideal_principal_2 :
  principal_on_product sqrtm_ideal Test2b.sigma_real Test2b.sigma2.
Proof.
  intros P HP. rewrite product_of_script in HP by tauto.
  apply SpectralFacts.Ok_inj in HP. subst P. unfold sqrtm_ideal. cbn [root].
  apply epsilon_spec, ScriptFacts.principal_root_2_exists.
Qed.

(** C2.  With the hard-coded arrays, and [sqrtm] returning the principal
    square root of the two products sigma_real @ sigma1 and
    sigma_real @ sigma2, the script runs without raising; the first distance
    calculate_fid(mu_real, sigma_real, mu1, sigma1) is strictly less than the
    second, calculate_fid(mu_real, sigma_real, mu2, sigma2); [better] is
    "Set I"; and the three lines printed are the first distance shown as
    0.2811, the second shown as 0.3044, and (after a line break) "Based on
    FID score, Fake Image Set I is better". *)
Theorem script_output core :
  principal_on_product core Test2b.sigma_real Test2b.sigma1 ->
  principal_on_product core Test2b.sigma_real Test2b.sigma2 ->
  exists fid1 fid2 w,
    Test2b.script core Test2b.script_world
    = (Ok (fid1, fid2, "Set I"%string), w) /\
    fst (Test2b.fid1 core Test2b.script_world) = Ok fid1 /\
    fst (Test2b.fid2 core Test2b.script_world) = Ok fid2 /\
    fid1 < fid2 /\
    out w = [ "FID between Real and Fake Set I: 0.2811";
              "FID between Real and Fake Set II: 0.3044";
              String newline "Based on FID score, Fake Image Set I is better"
            ]%string.
Proof.
  intros H1 H2.
  specialize (H1 _ (product_of_script (or_introl eq_refl))).
  specialize (H2 _ (product_of_script (or_intror eq_refl))).
  pose proof (ScriptFacts.trace_of_root_1 H1) as T1.
  pose proof (ScriptFacts.trace_of_root_2 H2) as T2.
  destruct H1 as (Sq1 & _ & _), H2 as (Sq2 & _ & _).
  pose proof (fid_value_1 core Sq1) as V1.
  pose proof (fid_value_2 core Sq2) as V2.
  pose proof (script_fid1 core Sq1) as F1.
  pose proof (script_fid2 core Sq2) as F2.
  change (FidSpec.big_sum 4 (fun i => entry ?X i i)) with (Spectral.tr4 (entry X))
    in V1, V2, F1, F2.
  set (X1 := root (core (FidSpec.product 4 Test2b.sigma_real Test2b.sigma1))) in *.
  set (X2 := root (core (FidSpec.product 4 Test2b.sigma_real Test2b.sigma2))) in *.
  set (f1 := 2.55 - 2 * Spectral.tr4 (entry X1)) in *.
  set (f2 := 2.42 - 2 * Spectral.tr4 (entry X2)) in *.
  assert (B1 : 0.2811304 <= f1 <= 0.2811314) by (unfold f1; lra).
  assert (B2 : 0.3043894 <= f2 <= 0.3043904) by (unfold f2; lra).
  destruct (@calculate_fid_sim core Test2b.script_world 0 0 1 1
              Test2b.mu_real Test2b.sigma_real Test2b.mu1 Test2b.sigma1
              eq_refl eq_refl eq_refl eq_refl) as (w1 & E1 & R1).
  rewrite V1 in R1. destruct R1 as (a1 & R1 & ->).
  destruct (@calculate_fid_sim core w1 0 0 2 2
              Test2b.mu_real Test2b.sigma_real Test2b.mu2 Test2b.sigma2
              (@vec_at_extends _ _ 0%nat Test2b.mu_real E1 eq_refl)
              (@mat_at_extends _ _ 0%nat Test2b.sigma_real E1 eq_refl)
              (@vec_at_extends _ _ 2%nat Test2b.mu2 E1 eq_refl)
              (@mat_at_extends _ _ 2%nat Test2b.sigma2 E1 eq_refl))
    as (w2 & E2 & R2).
  rewrite V2 in R2. destruct R2 as (a2 & R2 & ->).
  assert (Hout : out w2 = []).
  { destruct E1 as (? & ? & _ & _ & O1), E2 as (? & ? & _ & _ & O2).
    now rewrite O2, O1. }
  assert (Hb : Test2b.better f1 f2 = "Set I"%string).
  { unfold Test2b.better. destruct (Rlt_dec f1 f2); [reflexivity | lra]. }
  exists f1, f2.
  eexists. repeat split; try assumption; try lra.
  - unfold Test2b.script, bind, print, ret. rewrite R1, R2.
    unfold Test2b.verdict. rewrite Hb. reflexivity.
  - cbn [out]. rewrite Hout.
    rewrite (@format_4f_shows f1 2811) by lra.
    rewrite (@format_4f_shows f2 3044) by lra.
    reflexivity.
Qed.

Lemma script_output_witness :
  principal_on_product sqrtm_ideal Test2b.sigma_real Test2b.sigma1 /\
  principal_on_product sqrtm_ideal Test2b.sigma_real Test2b.sigma2 /\
  exists fid1 fid2 w,
    Test2b.script sqrtm_ideal Test2b.script_world
    = (Ok (fid1, fid2, "Set I"%string), w) /\
    fst (Test2b.fid1 sqrtm_ideal Test2b.script_world) = Ok fid1 /\
    fst (Test2b.fid2 sqrtm_ideal Test2b.script_world) = Ok fid2 /\
    fid1 < fid2 /\
    out w = [ "FID between Real and Fake Set I: 0.2811";
              "FID between Real and Fake Set II: 0.3044";
              String newline "Based on FID score, Fake Image Set I is better"
            ]%string.
Proof.
  split; [exact sqrtm_ideal_principal_1|].
  split; [exact sqrtm_ideal_principal_2|].
  exact (script_output sqrtm_ideal_principal_1 sqrtm_ideal_principal_2).
Defined.

(** * Further properties of the two notebooks *)

(** ** The script, on any six arrays *)

Import Np.

Lemma script_run core w (a b1 b2 : vec) (A B1 B2 : mat) :
  vec_at w 0 a -> mat_at w 0 A -> vec_at w 1 b1 -> mat_at w 1 B1 ->
  vec_at w 2 b2 -> mat_at w 2 B2 ->
  exists w', extends w w' /\
    Test2b.script core w =
    match Test2b.fid_value core a A b1 B1, Test2b.fid_value core a A b2 B2 with
    | Ok f1, Ok f2 =>
        (Ok (f1, f2, Test2b.better f1 f2),
         World (vecs w') (mats w') (out w ++ script_lines f1 f2))
    | Ok _, Raise e => (Raise e, w')
    | Raise e, _ => (Raise e, w')
    end.
Proof.
  intros Ha HA Hb1 HB1 Hb2 HB2.
  destruct (calculate_fid_sim core Ha HA Hb1 HB1) as (w1 & E1 & R1).
  destruct (Test2b.fid_value core a A b1 B1) as [f1|e1].
  - destruct R1 as (x1 & R1 & ->).
    destruct (calculate_fid_sim core
                (vec_at_extends E1 Ha) (mat_at_extends E1 HA)
                (vec_at_extends E1 Hb2) (mat_at_extends E1 HB2))
      as (w2 & E2 & R2).
    assert (E : extends w w2) by eauto using extends_trans.
    exists w2. split; [exact E|].
    unfold Test2b.script, bind. rewrite R1.
    destruct (Test2b.fid_value core a A b2 B2) as [f2|e2].
    + destruct R2 as (x2 & R2 & ->). rewrite R2.
      unfold print, ret, script_lines. cbn [vecs mats out].
      destruct E as (nv & nm & _ & _ & O). rewrite O.
      now rewrite <- !app_assoc.
    + now rewrite R2.
  - exists w1. split; [exact E1|].
    unfold Test2b.script, bind. now rewrite R1.
Qed.

(** X1.  The script computes both distances before it prints anything: run
    on any six arrays it either returns the two distances and [better] and
    has printed exactly its three lines, or it raises the exception of the
    first failing [calculate_fid] call and has printed nothing. *)
Theorem script_all_or_nothing core w (a b1 b2 : vec) (A B1 B2 : mat) :
  vec_at w 0 a -> mat_at w 0 A -> vec_at w 1 b1 -> mat_at w 1 B1 ->
  vec_at w 2 b2 -> mat_at w 2 B2 ->
  match fst (Test2b.script core w) with
  | Ok (f1, f2, b) =>
      Test2b.fid_value core a A b1 B1 = Ok f1 /\
      Test2b.fid_value core a A b2 B2 = Ok f2 /\
      b = Test2b.better f1 f2 /\
      out (snd (Test2b.script core w))
      = out w ++ [ ("FID between Real and Fake Set I: " ++ format_4f f1)%string;
                   ("FID between Real and Fake Set II: " ++ format_4f f2)%string;
                   String newline (Test2b.verdict f1 f2) ]
  | Raise e =>
      out (snd (Test2b.script core w)) = out w /\
      (Test2b.fid_value core a A b1 B1 = Raise e \/
       (exists f1, Test2b.fid_value core a A b1 B1 = Ok f1) /\
       Test2b.fid_value core a A b2 B2 = Raise e)
  end.
Proof.
  intros Ha HA Hb1 HB1 Hb2 HB2.
  destruct (script_run core Ha HA Hb1 HB1 Hb2 HB2) as (w' & E & H).
  rewrite H. destruct E as (nv & nm & _ & _ & O).
  destruct (Test2b.fid_value core a A b1 B1) as [f1|e1];
    [destruct (Test2b.fid_value core a A b2 B2) as [f2|e2]|]; simpl; eauto.
Qed.

Lemma script_all_or_nothing_witness :
  match fst (Test2b.script sqrtm_entrywise tie_world) with
  | Ok (f1, f2, b) =>
      Test2b.fid_value sqrtm_entrywise [1; 2] [ [4; 0]; [0; 9] ] [0; 0] identity2
      = Ok f1 /\
      Test2b.fid_value sqrtm_entrywise [1; 2] [ [4; 0]; [0; 9] ] [0; 0] identity2
      = Ok f2 /\
      b = Test2b.better f1 f2 /\
      out (snd (Test2b.script sqrtm_entrywise tie_world))
      = out tie_world
        ++ [ ("FID between Real and Fake Set I: " ++ format_4f f1)%string;
             ("FID between Real and Fake Set II: " ++ format_4f f2)%string;
             String newline (Test2b.verdict f1 f2) ]
  | Raise e =>
      out (snd (Test2b.script sqrtm_entrywise tie_world)) = out tie_world /\
      (Test2b.fid_value sqrtm_entrywise [1; 2] [ [4; 0]; [0; 9] ] [0; 0] identity2
       = Raise e \/
       (exists f1,
           Test2b.fid_value sqrtm_entrywise [1; 2] [ [4; 0]; [0; 9] ] [0; 0]
                            identity2 = Ok f1) /\
       Test2b.fid_value sqrtm_entrywise [1; 2] [ [4; 0]; [0; 9] ] [0; 0] identity2
       = Raise e)
  end.
Proof.
  apply (@script_all_or_nothing sqrtm_entrywise tie_world
           [1; 2] [0; 0] [0; 0] [ [4; 0]; [0; 9] ] identity2 identity2);
    reflexivity.
Defined.

(** *** Diagonal covariances *)

Lemma big_sum_single n i (g : nat -> R) :
  (i < n)%nat ->
  FidSpec.big_sum n (fun k => if (i =? k)%nat then g k else 0) = g i.
Proof.
  revert i g. induction n as [|n IH]; intros i g Hi; [lia|].
  destruct i as [|i]; simpl.
  - rewrite NpFacts.big_sum_zero; [lra | reflexivity].
  - rewrite (IH i (fun k => g (S k))) by lia. lra.
Qed.

Lemma diag_of_square (d : vec) : is_square (length d) (diag_of d).
Proof.
  split.
  - unfold diag_of. now rewrite length_map, length_seq.
  - apply Forall_forall. intros row Hin. unfold diag_of in Hin.
    apply in_map_iff in Hin. destruct Hin as (i & <- & _).
    now rewrite length_map, length_seq.
Qed.

Lemma entry_diag_of (d : vec) i j :
  (i < length d)%nat -> (j < length d)%nat ->
  entry (diag_of d) i j = if (i =? j)%nat then nth i d 0 else 0.
Proof.
  intros Hi Hj. unfold entry, diag_of.
  rewrite NpFacts.nth_map_in with (d := 0%nat) by now rewrite length_seq.
  rewrite NpFacts.nth_map_in with (d := 0%nat) by now rewrite length_seq.
  now rewrite !seq_nth by assumption.
Qed.

Lemma product_diag_of (dA dB : vec) :
  length dA = length dB ->
  FidSpec.product (length dA) (diag_of dA) (diag_of dB)
  = diag_of (zip_with Rmult dA dB).
Proof.
  intros Hlen. unfold FidSpec.product, diag_of at 3.
  rewrite NpFacts.zip_with_length by exact Hlen.
  apply map_ext_in. intros i Hi. apply in_seq in Hi.
  apply map_ext_in. intros j Hj. apply in_seq in Hj.
  rewrite (@NpFacts.big_sum_ext _ _
             (fun k => if (i =? k)%nat
                       then nth i dA 0 * entry (diag_of dB) k j else 0)).
  - rewrite big_sum_single by lia.
    rewrite entry_diag_of by lia.
    destruct (i =? j)%nat; [|lra].
    now rewrite (NpFacts.nth_zip_with Rmult dA dB 0 0 0) by lia.
  - intros k Hk. rewrite entry_diag_of by lia.
    destruct (i =? k)%nat; lra.
Qed.

Lemma sqrtm_entrywise_diagonal : principal_on_diagonal sqrtm_entrywise.
Proof.
  intros d _. unfold sqrtm_entrywise, diag_of. cbn [root].
  rewrite length_map, map_map.
  apply map_ext. intros i. rewrite map_map. apply map_ext. intros j.
  destruct (i =? j)%nat; [|apply sqrt_0].
  destruct (Nat.lt_ge_cases i (length d)) as [Hi|Hi].
  - now rewrite NpFacts.nth_map_in with (d := 0).
  - rewrite !nth_overflow by (rewrite ?length_map; lia). apply sqrt_0.
Qed.

(** In exact arithmetic, for diagonal covariances the value is the squared
    distance of the means plus the squared distance of the entrywise roots
    of the diagonals. *)
Lemma fid_value_diagonal core (a b dA dB : vec) :
  length a = length b -> length dA = length dB ->
  Forall (fun x => 0 <= x) dA -> Forall (fun x => 0 <= x) dB ->
  principal_on_diagonal core ->
  Test2b.fid_value core a (diag_of dA) b (diag_of dB)
  = Ok (FidSpec.squared_distance a b
        + FidSpec.squared_distance (map sqrt dA) (map sqrt dB)).
Proof.
  intros Hab Hd HA HB Hcore.
  assert (Hpos : Forall (fun x => 0 <= x) (zip_with Rmult dA dB)).
  { clear Hd. revert dB HB. induction HA as [|x dA Hx HA IH];
      intros dB HB; [constructor|].
    destruct HB as [|y dB Hy HB]; constructor; [nra | now apply IH]. }
  assert (HX : root (core (FidSpec.product (length dA) (diag_of dA) (diag_of dB)))
               = diag_of (map sqrt (zip_with Rmult dA dB)))
    by (rewrite product_diag_of by exact Hd; now apply Hcore).
  assert (Hlen : length (map sqrt (zip_with Rmult dA dB)) = length dA)
    by (rewrite length_map; now apply NpFacts.zip_with_length).
  rewrite (@FidFacts.fid_value_spec core (length dA)); auto.
  - f_equal. unfold FidSpec.fid. f_equal.
    unfold FidSpec.diagonal_sum, FidSpec.squared_distance.
    rewrite HX, length_map.
    apply NpFacts.big_sum_ext. intros i Hi.
    rewrite !entry_diag_of by (rewrite ?Hlen; lia).
    rewrite Nat.eqb_refl.
    rewrite (NpFacts.nth_map_in sqrt _ 0 0)
      by (rewrite NpFacts.zip_with_length; assumption).
    rewrite (NpFacts.nth_zip_with Rmult dA dB 0 0 0) by lia.
    rewrite (NpFacts.nth_map_in sqrt dA 0 0) by lia.
    rewrite (NpFacts.nth_map_in sqrt dB 0 0) by lia.
    assert (Hx : 0 <= nth i dA 0)
      by (rewrite Forall_forall in HA; apply HA, nth_In; lia).
    assert (Hy : 0 <= nth i dB 0)
      by (rewrite Forall_forall in HB; apply HB, nth_In; lia).
    rewrite sqrt_mult by assumption.
    pose proof (sqrt_sqrt _ Hx). pose proof (sqrt_sqrt _ Hy). nra.
  - apply diag_of_square.
  - rewrite Hd. apply diag_of_square.
  - rewrite HX, <- Hlen. apply diag_of_square.
Qed.

Lemma tie_world_value :
  Test2b.fid_value sqrtm_entrywise [1; 2] [ [4; 0]; [0; 9] ] [0; 0] identity2
  = Ok 10.
Proof.
  change [ [4; 0]; [0; 9] ] with (diag_of [4; 9]).
  change identity2 with (diag_of [1; 1]).
  rewrite fid_value_diagonal;
    try reflexivity; try apply sqrtm_entrywise_diagonal;
    try (repeat constructor; lra).
  f_equal. unfold FidSpec.squared_distance. simpl.
  replace 4 with (2 * 2) by lra. replace 9 with (3 * 3) by lra.
  rewrite !sqrt_square by lra. rewrite sqrt_1. lra.
Qed.

(** X2.  A tie goes to Set II: the script says "Set I" only when the first
    distance is strictly smaller.  When the two fake sets hold equal arrays
    and the distance can be computed, [better] is "Set II" and the last line
    printed is "Based on FID score, Fake Image Set II is better". *)
Theorem script_tie core w (a b : vec) (A B : mat) (f : R) :
  vec_at w 0 a -> mat_at w 0 A -> vec_at w 1 b -> mat_at w 1 B ->
  vec_at w 2 b -> mat_at w 2 B ->
  Test2b.fid_value core a A b B = Ok f ->
  fst (Test2b.script core w) = Ok (f, f, "Set II"%string) /\
  last (out (snd (Test2b.script core w))) ""%string
  = String newline "Based on FID score, Fake Image Set II is better".
Proof.
  intros Ha HA Hb1 HB1 Hb2 HB2 Hf.
  destruct (script_run core Ha HA Hb1 HB1 Hb2 HB2) as (w' & E & H).
  rewrite H, Hf.
  assert (Hb : Test2b.better f f = "Set II"%string).
  { unfold Test2b.better. destruct (Rlt_dec f f); [lra | reflexivity]. }
  cbn [fst snd out]. rewrite Hb. split; [reflexivity|].
  unfold script_lines, Test2b.verdict. rewrite Hb.
  match goal with
  | |- last (?o ++ [?x; ?y; ?z]) _ = _ =>
      change (o ++ [x; y; z]) with (o ++ ([x; y] ++ [z]));
      rewrite app_assoc, last_last
  end.
  reflexivity.
Qed.

Lemma script_tie_witness :
  fst (Test2b.script sqrtm_entrywise tie_world) = Ok (10, 10, "Set II"%string) /\
  last (out (snd (Test2b.script sqrtm_entrywise tie_world))) ""%string
  = String newline "Based on FID score, Fake Image Set II is better".
Proof.
  apply (@script_tie sqrtm_entrywise tie_world
           [1; 2] [0; 0] [ [4; 0]; [0; 9] ] identity2 10);
    try reflexivity.
  exact tie_world_value.
Defined.

(** ** More on [calculate_fid] *)

Lemma subtract1_stretch (a : vec) (b0 : R) :
  subtract1 a [b0] = subtract1 a (repeat b0 (length a)).
Proof.
  assert (Hmap : forall l : vec,
             map (fun x => x - b0) l
             = zip_with Rminus l (repeat b0 (length l))).
  { induction l as [|x l IH]; simpl; [reflexivity | now rewrite IH]. }
  unfold subtract1.
  rewrite (@NpFacts.elementwise1_same_length Rminus a (repeat b0 (length a)))
    by now rewrite repeat_length.
  unfold elementwise1, broadcast.
  destruct a as [|x [|y l]].
  - reflexivity.
  - reflexivity.
  - cbn [length Nat.eqb].
    rewrite (NpFacts.sequence_map_Ok (fun x => x - b0)). now rewrite Hmap.
Qed.

(** X4.  A one-element mean is not rejected: numpy stretches it along the
    other mean, so [calculate_fid] returns (or raises) what it does when
    every entry of that mean is the one number. *)
Theorem calculate_fid_stretches_mean core w rm rs xm xm' xs
    (a : vec) (b0 : R) (A B : mat) :
  vec_at w rm a -> mat_at w rs A -> mat_at w xs B ->
  vec_at w xm [b0] -> vec_at w xm' (repeat b0 (length a)) ->
  fst (Test2b.calculate_fid core rm rs xm xs w)
  = fst (Test2b.calculate_fid core rm rs xm' xs w).
Proof.
  intros Ha HA HB Hb Hb'.
  rewrite (FidFacts.sim_same_result (calculate_fid_sim core Ha HA Hb HB)).
  rewrite (FidFacts.sim_same_result (calculate_fid_sim core Ha HA Hb' HB)).
  unfold Test2b.fid_value. now rewrite subtract1_stretch.
Qed.

Lemma calculate_fid_stretches_mean_witness :
  fst (Test2b.calculate_fid sqrtm_entrywise 0 0 1 1 stretch_world)
  = fst (Test2b.calculate_fid sqrtm_entrywise 0 0 2 1 stretch_world).
Proof.
  apply (@calculate_fid_stretches_mean sqrtm_entrywise stretch_world
           0%nat 0%nat 1%nat 2%nat 1%nat [1; 2] 3 [ [4; 0]; [0; 9] ] identity2);
    reflexivity.
Defined.

(** ** [print_tensor_info] *)

(** X6.  [print_tensor_info] accepts any object and never raises: it prints
    the name and a rule of 20 dashes; for an object that is not a tensor
    (a tuple, an int, None) it reads no attribute and prints "It is
    <type name>!"; for a tensor it prints shape, dtype, device and
    requires_grad; and it ends with 20 equal signs and a line break.
    Nothing but standard output changes. *)
Theorem print_tensor_info_any_object (name : string) (o : Inspect.object)
    (w : world) :
  Inspect.print_tensor_info name o w
  = (Ok tt,
     World (vecs w) (mats w)
       (out w
        ++ [name; "--------------------"%string]
        ++ match o with
           | Inspect.Other type_name =>
               [ ("It is " ++ type_name ++ "!")%string ]
           | Inspect.Tensor t =>
               [ ("shape: " ++ Inspect.str_Size (Inspect.shape t))%string;
                 ("dtype: " ++ Inspect.dtype t)%string;
                 ("device: " ++ Inspect.device t)%string;
                 ("requires_grad: "
                  ++ (if Inspect.requires_grad t then "True" else "False"))%string ]
           end
        ++ [ String.append "====================" (String newline "") ])).
Proof.
  destruct o as [t|n]; unfold Inspect.print_tensor_info, bind, print, ret;
    cbn [Inspect.isinstance_Tensor negb Inspect.getattr Inspect.type_name_of
         vecs mats out fst snd]; unfold ret; cbn [vecs mats out];
    rewrite <- !app_assoc; reflexivity.
Qed.

Example print_tensor_info_sample :
  out (snd (Inspect.print_tensor_info "x"
              (Inspect.Tensor
                 (Inspect.TensorInfo [1; 16; 16]%nat "torch.float32" "cpu" false))
              (World [] [] [])))
  = [ "x"; "--------------------"; "shape: torch.Size([1, 16, 16])";
      "dtype: torch.float32"; "device: cpu"; "requires_grad: False";
      String.append "====================" (String newline "") ]%string.
Proof. reflexivity. Qed.

(** ** The data viewer *)

Module VizFacts.

Import Viz.

Lemma getitem_in_range {A} (l : list A) (i : Z) :
  (0 <= i < Z.of_nat (length l))%Z ->
  exists a, getitem l i = Return a /\ nth_error l (Z.to_nat i) = Some a.
Proof.
  intros Hi. unfold getitem.
  destruct (Z.ltb_spec i 0) as [Hneg|_]; [lia|].
  destruct (Z.leb_spec 0 i) as [_|Hneg]; [|lia].
  destruct (Z.ltb_spec i (Z.of_nat (length l))) as [_|Hbig]; [|lia].
  cbn [andb].
  destruct (nth_error l (Z.to_nat i)) as [a|] eqn:E; [now exists a|].
  apply nth_error_None in E. lia.
Qed.

(** Once an image and axes exist, [update] on a valid index shows that
    sample and keeps the rest of the object. *)
Lemma update_shows (self : ImageDataViz) (i : Z) t old :
  (0 <= i < Z.of_nat (length (data self)))%Z ->
  img self = Some old -> ax self = Some (Axes t false) ->
  exists self',
    update i self = (Return tt, self') /\
    displays self' (Z.to_nat i) /\
    data self' = data self /\ index self' = index self /\
    (exists old' t', img self' = Some old' /\ ax self' = Some (Axes t' false)).
Proof.
  intros Hi Himg Hax.
  destruct (@getitem_in_range _ (data self) i Hi) as ([x y] & Hget & Hnth).
  unfold update, mbind, data_getitem. rewrite Hget.
  unfold img_set_data. rewrite Himg.
  unfold ax_set_title. cbn [ax]. rewrite Hax.
  eexists. split; [reflexivity|]. cbn [axis_on].
  split; [|split; [reflexivity|split; [reflexivity|]]];
    [|do 2 eexists; split; reflexivity].
  exists x, y. cbn [data img ax]. auto.
Qed.

Lemma drag_shows (positions : list Z) :
  forall (self : ImageDataViz) k t old,
    Forall (fun i => (0 <= i < Z.of_nat (length (data self)))%Z) positions ->
    img self = Some old -> ax self = Some (Axes t false) ->
    displays self k ->
    exists self',
      drag positions self = (Return tt, self') /\
      displays self' (Z.to_nat (last positions (Z.of_nat k))).
Proof.
  induction positions as [|i ps IH]; intros self k t old HF Himg Hax Hk.
  - exists self. split; [reflexivity|]. simpl. now rewrite Nat2Z.id.
  - inversion HF as [|? ? Hi HF']; subst.
    set (self0 := snd (slide_to i self)).
    destruct (@update_shows self0 i t old Hi Himg Hax)
      as (self1 & Hup & Hshow & Hdata & _ & old1 & t1 & Himg1 & Hax1).
    assert (HF1 : Forall (fun j => (0 <= j < Z.of_nat (length (data self1)))%Z) ps)
      by (rewrite Hdata; exact HF').
    destruct (IH self1 (Z.to_nat i) t1 old1 HF1 Himg1 Hax1 Hshow)
      as (self2 & Hdrag & Hlast).
    exists self2. split.
    + cbn [drag]. unfold mbind at 1. unfold slide_to at 1.
      unfold mbind at 1. fold self0.
      change (Object (data self) (n_samples self)
                (Slider i (min (index self)) (max (index self))
                   (step (index self)) (description (index self)))
                (fig self) (ax self) (img self)) with self0.
      rewrite Hup. exact Hdrag.
    + rewrite Z2Nat.id in Hlast by lia.
      destruct ps as [|j ps']; [exact Hlast|].
      change (last (i :: j :: ps') (Z.of_nat k))
        with (last (j :: ps') (Z.of_nat k)).
      assert (Hl : forall d d', last (j :: ps') d = last (j :: ps') d').
      { clear. revert j. induction ps' as [|a l IH]; intros j d d';
          [reflexivity|]. apply (IH a). }
      rewrite (Hl _ i). exact Hlast.
Qed.

End VizFacts.

(** X7.  [update] needs the image and the axes that only [show] creates: on
    a viewer that was constructed but not shown, [update] never completes.
    It raises IndexError when the index is out of range and AttributeError
    ('ImageDataViz' object has no attribute 'img') otherwise, and leaves the
    object as it was. *)
Theorem update_before_show IntSlider (data : list (Viz.ndarray * Z))
    (self : Viz.ImageDataViz) (i : Z) :
  Viz.init IntSlider data = Viz.Return self ->
  Viz.update i self
  = (match Viz.getitem data i with
     | Viz.Return _ => Viz.Raised (Viz.no_attribute "img")
     | Viz.Raised e => Viz.Raised e
     end, self).
Proof.
  unfold Viz.init. destruct (IntSlider _ _ _ _ _) as [s|e]; [|discriminate].
  intros H. injection H as <-.
  unfold Viz.update, Viz.mbind, Viz.data_getitem. cbn [Viz.data].
  destruct (Viz.getitem data i) as [[x y]|e]; reflexivity.
Qed.

Lemma update_before_show_witness :
  Viz.init Viz.int_slider Viz.two_samples
  = Viz.Return (Viz.Object Viz.two_samples 2
                  (Viz.Slider 0 0 1 1 "Index") None None None) /\
  Viz.update 1 (Viz.Object Viz.two_samples 2
                  (Viz.Slider 0 0 1 1 "Index") None None None)
  = (match Viz.getitem Viz.two_samples 1 with
     | Viz.Return _ => Viz.Raised (Viz.no_attribute "img")
     | Viz.Raised e => Viz.Raised e
     end,
     Viz.Object Viz.two_samples 2 (Viz.Slider 0 0 1 1 "Index") None None None).
Proof.
  split; [reflexivity|].
  apply (@update_before_show Viz.int_slider Viz.two_samples). reflexivity.
Defined.

(** X8.  The slider covers exactly the valid indices, 0 to n_samples - 1.
    On a non-empty dataset [show] completes and displays sample 0 with the
    axis switched off; after that, however the slider is dragged within its
    range, every [update] completes, and the image and the title "Label: y"
    on display are those of the sample at the slider's last position. *)
Theorem show_then_drag IntSlider interact (data : list (Viz.ndarray * Z))
    (self : Viz.ImageDataViz) (positions : list Z) :
  Viz.slider_range_kept IntSlider -> Viz.renders_once interact ->
  data <> [] ->
  Viz.init IntSlider data = Viz.Return self ->
  Forall (fun i => (Viz.min (Viz.index self) <= i <= Viz.max (Viz.index self))%Z)
         positions ->
  (Viz.min (Viz.index self) = 0
   /\ Viz.max (Viz.index self) = Z.of_nat (length data) - 1)%Z /\
  exists self1 self2,
    Viz.show interact self = (Viz.Return tt, self1) /\
    Viz.displays self1 0 /\
    Viz.drag positions self1 = (Viz.Return tt, self2) /\
    Viz.displays self2 (Z.to_nat (last positions 0%Z)).
Proof.
  intros Hslider Hinteract Hdata Hinit Hpos.
  assert (Hn : (0 < Z.of_nat (length data))%Z)
    by (destruct data; [congruence | simpl length; lia]).
  unfold Viz.init in Hinit.
  rewrite Hslider in Hinit by lia. injection Hinit as <-.
  cbn [Viz.index Viz.min Viz.max] in *.
  split; [split; reflexivity|].
  set (self := Viz.Object data (Z.of_nat (length data))
                 (Viz.Slider 0 0 (Z.of_nat (length data) - 1) 1 "Index")
                 None None None).
  destruct (@VizFacts.getitem_in_range _ data 0%Z ltac:(lia))
    as ([x0 y0] & Hget & Hnth).
  set (image0 := Viz.numpy (Viz.squeeze (Viz.moveaxis_0_last x0))).
  set (shown := Viz.Object data (Z.of_nat (length data)) (Viz.index self)
                  (Some tt) (Some (Viz.Axes ("Label: " ++ Viz.str_int y0) false))
                  (Some image0)).
  destruct (@VizFacts.update_shows shown 0%Z
              ("Label: " ++ Viz.str_int y0)%string image0
              ltac:(cbn [Viz.data shown]; lia) eq_refl eq_refl)
    as (self1 & Hup & Hshow & Hdata1 & Hindex1 & old1 & t1 & Himg1 & Hax1).
  assert (Hrun : Viz.show interact self = (Viz.Return tt, self1)).
  { unfold Viz.show, Viz.mbind, Viz.subplots, Viz.data_getitem.
    cbn [Viz.data self]. rewrite Hget.
    unfold Viz.ax_imshow, Viz.ax_axis_off, Viz.ax_set_title, Viz.get_index.
    cbn [Viz.ax Viz.data Viz.n_samples Viz.index Viz.fig Viz.img Viz.title
         Viz.axis_on].
    apply Hinteract. exact Hup. }
  assert (HF : Forall (fun i => (0 <= i < Z.of_nat (length (Viz.data self1)))%Z)
                      positions).
  { rewrite Hdata1. cbn [Viz.data shown].
    eapply Forall_impl; [|exact Hpos]. cbn beta. intros i Hi. lia. }
  destruct (@VizFacts.drag_shows positions self1 0%nat t1 old1 HF Himg1 Hax1 Hshow)
    as (self2 & Hdrag & Hlast).
  exists self1, self2. auto.
Qed.

Lemma show_then_drag_witness :
  (Viz.min (Viz.Slider 0 0 1 1 "Index") = 0
   /\ Viz.max (Viz.Slider 0 0 1 1 "Index")
      = Z.of_nat (length Viz.two_samples) - 1)%Z /\
  exists self1 self2,
    Viz.show Viz.interact_once
             (Viz.Object Viz.two_samples 2 (Viz.Slider 0 0 1 1 "Index")
                         None None None)
    = (Viz.Return tt, self1) /\
    Viz.displays self1 0 /\
    Viz.drag [1; 0; 1]%Z self1 = (Viz.Return tt, self2) /\
    Viz.displays self2 (Z.to_nat (last [1; 0; 1]%Z 0%Z)).
Proof.
  apply (@show_then_drag Viz.int_slider Viz.interact_once Viz.two_samples
           (Viz.Object Viz.two_samples 2 (Viz.Slider 0 0 1 1 "Index")
                       None None None) [1; 0; 1]%Z).
  - intros v lo hi st d H. unfold Viz.int_slider.
    destruct (Z.ltb_spec hi lo) as [Hlt|_]; [lia|].
    now rewrite Z.min_l, Z.max_r by lia.
  - intros f s self self' H. exact H.
  - discriminate.
  - reflexivity.
  - repeat constructor; simpl; lia.
Defined.

(** X9.  The array handed to matplotlib, x.moveaxis(0, -1).squeeze(), for a
    sample x of shape (C, H, W) with H and W other than 1: a grayscale
    sample (C = 1) becomes the H x W array of its single channel, and a
    sample with several channels becomes H x W x C with the channel last. *)
Theorem image_layout (x : Viz.ndarray) (c h w : nat) :
  Viz.shape x = [c; h; w] -> h <> 1%nat -> w <> 1%nat ->
  let image := Viz.numpy (Viz.squeeze (Viz.moveaxis_0_last x)) in
  (c = 1%nat ->
   Viz.shape image = [h; w] /\
   forall i j, Viz.at_index image [i; j] = Viz.at_index x [0; i; j]%nat) /\
  (c <> 1%nat ->
   Viz.shape image = [h; w; c] /\
   forall i j k, Viz.at_index image [i; j; k] = Viz.at_index x [k; i; j]).
Proof.
  intros Hx Hh Hw. apply Nat.eqb_neq in Hh, Hw.
  unfold Viz.numpy, Viz.squeeze, Viz.moveaxis_0_last. rewrite Hx.
  cbn [Viz.shape Viz.at_index app filter Viz.unsqueezed].
  rewrite Hh, Hw. cbn [negb].
  split; intros Hc.
  - subst c. cbn [Nat.eqb negb]. split; reflexivity.
  - apply Nat.eqb_neq in Hc. rewrite Hc. cbn [negb]. split; reflexivity.
Qed.

Lemma image_layout_witness :
  let image := Viz.numpy (Viz.squeeze (Viz.moveaxis_0_last (Viz.gray 1))) in
  (1%nat = 1%nat ->
   Viz.shape image = [2; 2]%nat /\
   forall i j, Viz.at_index image [i; j]
               = Viz.at_index (Viz.gray 1) [0; i; j]%nat) /\
  (1%nat <> 1%nat ->
   Viz.shape image = [2; 2; 1]%nat /\
   forall i j k, Viz.at_index image [i; j; k]
                 = Viz.at_index (Viz.gray 1) [k; i; j]).
Proof.
  apply (@image_layout (Viz.gray 1) 1 2 2); [reflexivity | lia | lia].
Defined.

(** ** More on the training loops *)

Import Torch Week2.

(** Without [drop_last] the batches are the sample order cut into pieces of
    at most [B] samples, none of them empty. *)
Lemma batch_sampler_keeps_all {A} (B : nat) (l batch : list A) :
  (0 < B)%nat -> (length batch < B)%nat ->
  concat (batch_sampler B false batch l) = batch ++ l /\
  Forall (fun b => (0 < length b <= B)%nat) (batch_sampler B false batch l).
Proof.
  intros HB. revert batch. induction l as [|x l IH]; intros batch Hk; simpl.
  - destruct (length batch =? 0)%nat eqn:E.
    + apply Nat.eqb_eq in E. destruct batch; [|discriminate].
      split; [reflexivity | constructor].
    + apply Nat.eqb_neq in E. simpl. rewrite !app_nil_r.
      split; [reflexivity|]. constructor; [lia | constructor].
  - assert (Hlen : length (batch ++ [x]) = S (length batch))
      by (rewrite length_app; simpl; lia).
    destruct (length (batch ++ [x]) =? B)%nat eqn:E.
    + apply Nat.eqb_eq in E. destruct (IH [] HB) as [Hc HF].
      split; [simpl; rewrite Hc, <- app_assoc; reflexivity|].
      constructor; [lia | exact HF].
    + apply Nat.eqb_neq in E.
      destruct (IH (batch ++ [x])) as [Hc HF]; [lia|].
      split; [rewrite Hc, <- app_assoc; reflexivity | exact HF].
Qed.

Lemma list_sum_lengths {A} (bs : list (list A)) :
  list_sum (map (@length A) bs) = length (concat bs).
Proof.
  induction bs as [|b bs IH]; simpl; [reflexivity|].
  now rewrite length_app, IH.
Qed.

Lemma weighted_total_cons l ls k sizes :
  weighted_total (l :: ls) (k :: sizes) = l * INR k + weighted_total ls sizes.
Proof. reflexivity. Qed.

Lemma weighted_total_bounds (m M : R) (ls : list R) (sizes : list nat) :
  length sizes = length ls ->
  Forall (fun l => m <= l <= M) ls ->
  m * INR (list_sum sizes) <= weighted_total ls sizes <= M * INR (list_sum sizes).
Proof.
  revert sizes. induction ls as [|l ls IH]; intros [|k sizes] Hlen HF;
    try discriminate.
  - unfold weighted_total. simpl. lra.
  - inversion HF as [|? ? Hl HF']; subst.
    rewrite weighted_total_cons. simpl list_sum. rewrite plus_INR.
    assert (Hk : 0 <= INR k) by apply pos_INR.
    destruct (IH sizes) as [H1 H2]; [simpl in Hlen; lia | exact HF' |].
    split; nra.
Qed.

Section MoreTrainingFacts.

Variables input label logits : Type.
Variable cast_input : input -> input.
Variable cast_label : label -> label.
Variable network : list tensor -> list input -> logits.
Variable criterion : logits -> list label -> R.
Variable autograd : list tensor -> list input -> list label -> list tensor.
Variable opt : Type.
Variable opt_step : opt -> list param -> opt * list param.
Variable sched : Type.
Variable is_plateau : sched -> bool.
Variable plateau_step : sched -> R -> opt -> sched * opt.
Variable plain_step : sched -> opt -> sched * opt.
Variable permutation : nat -> list (input * label) -> list (input * label).

Local Notation state := (session opt sched) (only parsing).

(** One epoch of [train] on a non-empty dataset, from any state. *)
Lemma train_one_epoch_runs (L : DataLoader input label) (s : state) :
  (0 < length (dataset L))%nat ->
  exists (ls : list R) (s' : state),
    train_one_epoch cast_input cast_label network criterion autograd opt_step
                    is_plateau plateau_step plain_step permutation L s
    = (Ok (weighted_total ls (map (@length _) (batches_of permutation L (passes s)))
           / INR (length (dataset L))), s') /\
    length ls = length (batches_of permutation L (passes s)) /\
    events s'
    = events s ++ flat_map step_calls ls
      ++ scheduler_call is_plateau (lr_scheduler s)
           (weighted_total ls (map (@length _) (batches_of permutation L (passes s)))
            / INR (length (dataset L)))
      ++ [EvPostfix
            (weighted_total ls (map (@length _) (batches_of permutation L (passes s)))
             / INR (length (dataset L)))] /\
    (batches_of permutation L (passes s) = [] -> parameters s' = parameters s) /\
    (class_kept is_plateau plateau_step plain_step ->
     option_map is_plateau (lr_scheduler s')
     = option_map is_plateau (lr_scheduler s)).
Proof.
  intros HN. unfold train_one_epoch.
  set (body := fun (running_avg_train_loss : R) '(x, y) => _).
  assert (Hbody : forall acc x y (s0 : state), exists l s1,
             body acc (x, y) s0 = (Ok (acc + l * INR (length x)), s1) /\
             events s1 = events s0 ++ step_calls l /\
             lr_scheduler s1 = lr_scheduler s0).
  { intros acc x y s0.
    unfold body, bind, x_to, y_to, log, optimizer_zero_grad,
      model_call, loss_fn, backward, optimizer_step, ret.
    simpl. destruct (opt_step _ _) as [o ps]. simpl.
    rewrite length_map.
    eexists. eexists. split; [reflexivity|]. simpl.
    split; [now rewrite <- !app_assoc | reflexivity]. }
  assert (Hloop : forall batches acc (s0 : state), exists ls s1,
             for_fold batches acc body s0
             = (Ok (acc + weighted_total ls
                            (map (fun b => length (fst b)) batches)), s1) /\
             length ls = length batches /\
             events s1 = events s0 ++ flat_map step_calls ls /\
             lr_scheduler s1 = lr_scheduler s0 /\
             (batches = [] -> parameters s1 = parameters s0)).
  { clearbody body.
    induction batches as [|[x y] batches IH]; intros acc s0.
    - exists [], s0. simpl. unfold ret, weighted_total. simpl.
      rewrite Rplus_0_r, app_nil_r. auto.
    - destruct (Hbody acc x y s0) as (l & s1 & H1 & E1 & L1).
      destruct (IH (acc + l * INR (length x)) s1)
        as (ls & s2 & H2 & Hlen & E2 & L2 & _).
      exists (l :: ls), s2. simpl for_fold. unfold bind. rewrite H1, H2.
      split.
      { f_equal. f_equal. simpl map. rewrite weighted_total_cons.
        simpl fst. lra. }
      split; [simpl; now rewrite Hlen|].
      split; [simpl; now rewrite E2, E1, <- !app_assoc|].
      split; [congruence | discriminate]. }
  unfold bind at 1. unfold iterate at 1.
  fold (batches_of permutation L (passes s)).
  set (bs := batches_of permutation L (passes s)).
  set (s0 := Session (parameters s) (optimizer s) (lr_scheduler s) (training s)
                     (S (passes s)) (events s)).
  destruct (Hloop (map (fun b => (map fst b, map snd b)) bs) 0 s0)
    as (ls & s2 & H2 & Hlen & E2 & L2 & P2).
  rewrite Rplus_0_l, map_map in H2.
  rewrite (map_ext (fun b : list (input * label) =>
                      length (fst (map fst b, map snd b)))
                   (@length _)) in H2
    by (intros b; simpl; apply length_map).
  rewrite length_map in Hlen.
  set (total := weighted_total ls (map (@length _) bs)) in *.
  set (r := total / INR (length (dataset L))).
  assert (EN : (length (dataset L) =? 0)%nat = false)
    by (apply Nat.eqb_neq; lia).
  unfold bind at 1. rewrite H2.
  unfold bind at 1. unfold py_div. rewrite EN. unfold ret at 1.
  fold r.
  change (events s0) with (events s) in E2.
  change (lr_scheduler s0) with (lr_scheduler s) in L2.
  change (parameters s0) with (parameters s) in P2.
  unfold bind, scheduler_step, set_postfix_str, log, ret, scheduler_call.
  rewrite L2.
  destruct (lr_scheduler s) as [sc|] eqn:Esc;
    [destruct (is_plateau sc) eqn:Epl;
     [destruct (plateau_step sc r (optimizer s2)) as [sc' o] eqn:Eps
     |destruct (plain_step sc (optimizer s2)) as [sc' o] eqn:Epp]|];
    exists ls; eexists;
    (split; [reflexivity|]); (split; [exact Hlen|]);
    (split; [simpl; now rewrite E2, <- !app_assoc|]);
    (split;
     [intros Hbs; simpl; apply P2; now rewrite Hbs|]).
  - intros [Hk _]. simpl. f_equal.
    specialize (Hk sc r (optimizer s2)). rewrite Eps in Hk. simpl in Hk.
    congruence.
  - intros [_ Hk]. simpl. f_equal.
    specialize (Hk sc (optimizer s2)). rewrite Epp in Hk. simpl in Hk.
    congruence.
  - intros _. simpl. now rewrite L2.
Qed.

(** The epochs of [train], one after the other, under an invariant. *)
Lemma train_epochs (L : DataLoader input label) (Inv : state -> Prop)
    (good : epoch_log -> Prop) :
  (forall s0 : state, Inv s0 -> exists ep s1,
      train_one_epoch cast_input cast_label network criterion autograd
        opt_step is_plateau plateau_step plain_step permutation L s0
      = (Ok (reported ep), s1) /\
      events s1 = events s0 ++ epoch_calls ep /\ good ep /\ Inv s1) ->
  forall n_epochs (s : state), Inv s ->
    exists (epochs : list epoch_log) (s' : state),
      train cast_input cast_label network criterion autograd opt_step
            is_plateau plateau_step plain_step permutation L n_epochs s
      = (Ok tt, s') /\
      length epochs = n_epochs /\
      events s' = events s ++ flat_map epoch_calls epochs /\
      Forall good epochs /\ Inv s'.
Proof.
  intros Hepoch n_epochs. unfold train. generalize 0%nat as first.
  induction n_epochs as [|n IH]; intros first s HI.
  - exists [], s. simpl. unfold ret. rewrite app_nil_r. auto.
  - destruct (Hepoch s HI) as (ep & s1 & H1 & E1 & G1 & I1).
    destruct (IH (S first) s1 I1) as (eps & s2 & H2 & Hlen & E2 & G2 & I2).
    exists (ep :: eps), s2. simpl seq. simpl for_each.
    unfold bind at 1. unfold bind at 1. rewrite H1. unfold ret at 1.
    rewrite H2.
    split; [reflexivity|]. split; [simpl; now rewrite Hlen|].
    split; [simpl; now rewrite E2, E1, <- app_assoc|].
    split; [now constructor | exact I2].
Qed.

(** *** The model's mode *)

Lemma keeps_mode_refl (s : state) : keeps_mode s s.
Proof.
  split; [reflexivity|]. exists []. rewrite app_nil_r. split; [reflexivity|].
  intros [].
Qed.

Lemma keeps_mode_trans (s1 s2 s3 : state) :
  keeps_mode s1 s2 -> keeps_mode s2 s3 -> keeps_mode s1 s3.
Proof.
  intros [T1 (c1 & E1 & N1)] [T2 (c2 & E2 & N2)].
  split; [congruence|]. exists (c1 ++ c2).
  split; [now rewrite E2, E1, app_assoc|].
  intros H. apply in_app_or in H. tauto.
Qed.

Lemma keeps_mode_bind {A B} (m : St state A) (k : A -> St state B) s :
  keeps_mode s (snd (m s)) ->
  (forall a s1, keeps_mode s1 (snd (k a s1))) ->
  keeps_mode s (snd (bind m k s)).
Proof.
  intros Hm Hk. unfold bind. destruct (m s) as [[a|e] s1]; simpl in *.
  - eapply keeps_mode_trans; [exact Hm | apply Hk].
  - exact Hm.
Qed.

Lemma keeps_mode_for_each {A} (body : A -> St state unit) :
  (forall a s, keeps_mode s (snd (body a s))) ->
  forall xs s, keeps_mode s (snd (for_each xs body s)).
Proof.
  intros Hbody. induction xs as [|a xs IH]; intros s; simpl.
  - apply keeps_mode_refl.
  - apply keeps_mode_bind; [apply Hbody | intros _ s1; apply IH].
Qed.

Lemma keeps_mode_for_fold {A} (body : R -> A -> St state R) :
  (forall acc a s, keeps_mode s (snd (body acc a s))) ->
  forall xs acc s, keeps_mode s (snd (for_fold xs acc body s)).
Proof.
  intros Hbody. induction xs as [|a xs IH]; intros acc s; simpl.
  - apply keeps_mode_refl.
  - apply keeps_mode_bind; [apply Hbody | intros acc' s1; apply IH].
Qed.

Lemma keeps_mode_call (s : state) (e : event) ps o sc :
  e <> EvTrainMode ->
  keeps_mode s (Session ps o sc (training s) (passes s) (events s ++ [e])).
Proof.
  intros He. split; [reflexivity|]. exists [e]. split; [reflexivity|].
  intros [H|[]]. congruence.
Qed.

Lemma keeps_mode_silent (s : state) ps o sc k :
  keeps_mode s (Session ps o sc (training s) k (events s)).
Proof.
  split; [reflexivity|]. exists []. simpl. rewrite app_nil_r.
  split; [reflexivity | intros []].
Qed.

Ltac keeps_mode_step :=
  first [ apply keeps_mode_refl
        | apply keeps_mode_call; discriminate
        | apply keeps_mode_silent ].

Lemma keeps_mode_batch {A} (x : list input) (y : list label) (s : state)
    (rest : list input -> loss_tensor -> St state A) :
  (forall x0 l s1, keeps_mode s1 (snd (rest x0 l s1))) ->
  keeps_mode s
    (snd ((x <- x_to cast_input x ;;
           y <- y_to cast_label y ;;
           optimizer_zero_grad (sched:=sched) ;;;
           y_pred <- model_call network x ;;
           loss <- loss_fn criterion autograd y_pred y ;;
           backward loss ;;;
           optimizer_step opt_step (sched:=sched) ;;;
           rest x loss) s)).
Proof.
  intros Hrest.
  apply keeps_mode_bind;
    [unfold x_to, bind, log, ret; simpl; keeps_mode_step | intros x' s1].
  apply keeps_mode_bind;
    [unfold y_to, bind, log, ret; simpl; keeps_mode_step | intros y' s2].
  apply keeps_mode_bind;
    [unfold optimizer_zero_grad; simpl; keeps_mode_step | intros _ s3].
  apply keeps_mode_bind;
    [unfold model_call; simpl; keeps_mode_step | intros y_pred s4].
  apply keeps_mode_bind;
    [unfold loss_fn, bind, log, ret; simpl; keeps_mode_step | intros l s5].
  apply keeps_mode_bind;
    [unfold backward; simpl; keeps_mode_step | intros _ s6].
  apply keeps_mode_bind; [|intros _ s7; apply Hrest].
  unfold optimizer_step. destruct (opt_step _ _) as [o ps]. simpl.
  keeps_mode_step.
Qed.

(** X10.  [train_epoch] switches the model to training mode; [train] never
    does.  Whatever the loader and the number of epochs, and also when
    [train] raises, the model's mode after [train] is the mode before, and
    model.train() is not among the calls made: a model left in evaluation
    mode is trained in evaluation mode. *)
Theorem train_never_sets_train_mode (train_loader : DataLoader input label)
    (n_epochs : nat) (s : state) :
  let after_train :=
    snd (train cast_input cast_label network criterion autograd opt_step
               is_plateau plateau_step plain_step permutation
               train_loader n_epochs s) in
  let after_train_epoch :=
    snd (train_epoch cast_input cast_label network criterion autograd opt_step
                     permutation train_loader s) in
  training after_train = training s /\
  (exists calls, events after_train = events s ++ calls
                 /\ ~ In EvTrainMode calls) /\
  training after_train_epoch = true.
Proof.
  cbv zeta.
  assert (Htrain : keeps_mode s
            (snd (train cast_input cast_label network criterion autograd
                        opt_step is_plateau plateau_step plain_step
                        permutation train_loader n_epochs s))).
  { unfold train. apply keeps_mode_for_each. intros epoch s0.
    apply keeps_mode_bind; [|intros; apply keeps_mode_refl].
    unfold train_one_epoch.
    apply keeps_mode_bind;
      [unfold iterate; simpl; keeps_mode_step | intros batches s1].
    apply keeps_mode_bind.
    - apply keeps_mode_for_fold. intros acc [x y] s2.
      apply (@keeps_mode_batch R x y s2
               (fun x0 loss => ret (acc + item loss * INR (length x0)))).
      intros x0 l s3. apply keeps_mode_refl.
    - intros total s2.
      apply keeps_mode_bind.
      + unfold py_div. destruct (_ =? _)%nat; apply keeps_mode_refl.
      + intros r s3.
        apply keeps_mode_bind.
        * unfold scheduler_step.
          destruct (lr_scheduler s3) as [sc|]; [|apply keeps_mode_refl].
          destruct (is_plateau sc);
            [destruct (plateau_step _ _ _) | destruct (plain_step _ _)];
            simpl; keeps_mode_step.
        * intros _ s4.
          apply keeps_mode_bind; [|intros; apply keeps_mode_refl].
          unfold set_postfix_str, log. simpl. keeps_mode_step. }
  destruct Htrain as [Hmode Hcalls].
  split; [exact Hmode|]. split; [exact Hcalls|].
  unfold train_epoch.
  unfold bind at 1. unfold model_train at 1.
  set (s0 := Session (parameters s) (optimizer s) (lr_scheduler s) true
                     (passes s) (events s ++ [EvTrainMode])).
  assert (Hloop : keeps_mode s0
            (snd ((batch_pbar <- iterate permutation train_loader ;;
                   for_each batch_pbar (fun '(x, y) =>
                     x <- x_to cast_input x ;;
                     y <- y_to cast_label y ;;
                     optimizer_zero_grad (sched:=sched) ;;;
                     y_pred <- model_call network x ;;
                     loss <- loss_fn criterion autograd y_pred y ;;
                     backward loss ;;;
                     optimizer_step opt_step (sched:=sched) ;;;
                     set_postfix_str (item loss))) s0))).
  { apply keeps_mode_bind;
      [unfold iterate; simpl; keeps_mode_step | intros batches s1].
    apply keeps_mode_for_each. intros [x y] s2.
    apply (@keeps_mode_batch unit x y s2
             (fun _ loss => set_postfix_str (item loss))).
    intros x0 l s3.
    unfold set_postfix_str, log. simpl. keeps_mode_step. }
  destruct Hloop as [Hmode0 _]. exact Hmode0.
Qed.

(** *** Datasets that yield no batch *)

(** X11.  [train] divides by the size of the dataset without a guard: on an
    empty dataset the first epoch iterates over no batch and then raises
    ZeroDivisionError, before any call to the optimizer, the scheduler or
    the progress bar. *)
Theorem train_empty_dataset (train_loader : DataLoader input label)
    (n_epochs : nat) (s : state) :
  dataset train_loader = [] -> (0 < n_epochs)%nat ->
  (forall k l, Permutation (permutation k l) l) ->
  exists s' : state,
    train cast_input cast_label network criterion autograd opt_step
          is_plateau plateau_step plain_step permutation
          train_loader n_epochs s = (Raise ZeroDivisionError, s') /\
    parameters s' = parameters s /\ optimizer s' = optimizer s /\
    lr_scheduler s' = lr_scheduler s /\ events s' = events s.
Proof.
  intros Hdata Hn Hperm.
  destruct n_epochs as [|n]; [lia|].
  assert (Horder : (if shuffle train_loader
                    then permutation (passes s) (dataset train_loader)
                    else dataset train_loader) = []).
  { rewrite Hdata. destruct (shuffle train_loader); [|reflexivity].
    apply Permutation_nil. apply Permutation_sym, Hperm. }
  assert (Hnone : batch_sampler (batch_size train_loader)
                     (drop_last train_loader) [] (@nil (input * label)) = [])
    by (simpl; now rewrite orb_true_r).
  unfold train. simpl seq. simpl for_each.
  unfold train_one_epoch.
  unfold bind, iterate. rewrite Horder, Hnone, Hdata. simpl.
  eexists. split; [reflexivity|]. simpl. auto.
Qed.

(** X12.  With [drop_last] and fewer samples than one batch, no batch is
    ever yielded: [train] completes, every epoch makes no optimizer step
    and reports a running average of 0, and the parameters at the end are
    those at the start. *)
Theorem train_small_dataset (train_loader : DataLoader input label)
    (n_epochs : nat) (s : state) :
  drop_last train_loader = true ->
  (0 < length (dataset train_loader) < batch_size train_loader)%nat ->
  (forall k l, Permutation (permutation k l) l) ->
  exists (epochs : list epoch_log) (s' : state),
    train cast_input cast_label network criterion autograd opt_step
          is_plateau plateau_step plain_step permutation
          train_loader n_epochs s = (Ok tt, s') /\
    length epochs = n_epochs /\
    events s' = events s ++ flat_map epoch_calls epochs /\
    Forall (fun ep => losses ep = [] /\ reported ep = 0) epochs /\
    parameters s' = parameters s.
Proof.
  intros Hdrop [HN HB] Hperm.
  assert (Hnone : forall k, batches_of permutation train_loader k = []).
  { intros k. unfold batches_of. rewrite Hdrop.
    set (order := if shuffle train_loader then _ else _).
    assert (Horder : length order = length (dataset train_loader)).
    { unfold order. destruct (shuffle train_loader); auto.
      now apply Permutation_length. }
    destruct (@batch_sampler_drop_last _ (batch_size train_loader) order [])
      as [_ Hcount]; [lia | simpl; lia |].
    simpl in Hcount. rewrite Horder, Nat.div_small in Hcount by lia.
    now apply length_zero_iff_nil. }
  apply (train_epochs train_loader
           (fun s0 : state => parameters s0 = parameters s)
           (fun ep => losses ep = [] /\ reported ep = 0)); [|reflexivity].
  intros s0 Hs0.
  destruct (train_one_epoch_runs train_loader s0 HN)
    as (ls & s1 & Hrun & Hlen & Hev & Hpar & _).
  rewrite Hnone in Hrun, Hlen, Hev. specialize (Hpar (Hnone _)).
  destruct ls; [|discriminate].
  assert (Hr : weighted_total [] (map (@length (input * label)) [])
               / INR (length (dataset train_loader)) = 0)
    by (unfold weighted_total; simpl; unfold Rdiv; ring).
  rewrite Hr in Hrun, Hev.
  exists (EpochLog [] (scheduler_call is_plateau (lr_scheduler s0) 0) 0), s1.
  split; [exact Hrun|]. split; [exact Hev|].
  split; [split; reflexivity | congruence].
Qed.

(** *** The scheduler *)

Lemma scheduler_call_class (a b : option sched) (r : R) :
  option_map is_plateau a = option_map is_plateau b ->
  scheduler_call is_plateau a r = scheduler_call is_plateau b r.
Proof.
  destruct a as [sa|], b as [sb|]; simpl; intros H; try discriminate;
    [injection H as ->|]; reflexivity.
Qed.

(** X13.  In every epoch [train] steps the scheduler once, after the last
    optimizer step of the epoch and before the progress bar is updated: a
    ReduceLROnPlateau is given the running average the epoch reports, any
    other scheduler is stepped without argument, and with [lr_scheduler]
    None no call is made. *)
Theorem train_scheduler_calls (train_loader : DataLoader input label)
    (n_epochs : nat) (s : state) :
  (0 < length (dataset train_loader))%nat ->
  class_kept is_plateau plateau_step plain_step ->
  exists (epochs : list epoch_log) (s' : state),
    train cast_input cast_label network criterion autograd opt_step
          is_plateau plateau_step plain_step permutation
          train_loader n_epochs s = (Ok tt, s') /\
    length epochs = n_epochs /\
    events s' = events s ++ flat_map epoch_calls epochs /\
    Forall (fun ep =>
              scheduler_calls ep
              = match lr_scheduler s with
                | Some sc => if is_plateau sc
                             then [EvScheduler (Some (reported ep))]
                             else [EvScheduler None]
                | None => []
                end) epochs.
Proof.
  intros HN Hclass.
  destruct (train_epochs train_loader
              (fun s0 : state => option_map is_plateau (lr_scheduler s0)
                                 = option_map is_plateau (lr_scheduler s))
              (fun ep => scheduler_calls ep
                         = scheduler_call is_plateau (lr_scheduler s)
                                          (reported ep)))
    with (n_epochs := n_epochs) (s := s)
    as (eps & s' & Hrun & Hlen & Hev & Hgood & _); [|reflexivity|].
  - intros s0 Hs0.
    destruct (train_one_epoch_runs train_loader s0 HN)
      as (ls & s1 & Hrun & Hlen & Hev & _ & Hkept).
    eexists (EpochLog ls _ _), s1.
    split; [exact Hrun|]. split; [exact Hev|].
    split; [simpl; now apply scheduler_call_class|].
    rewrite (Hkept Hclass). exact Hs0.
  - exists eps, s'. auto.
Qed.

(** *** The running average when no sample is dropped *)

Lemma list_sum_constant (B : nat) (sizes : list nat) :
  Forall (fun k => k = B) sizes -> list_sum sizes = (length sizes * B)%nat.
Proof.
  induction 1 as [|k sizes Hk _ IH]; simpl; [reflexivity|]. lia.
Qed.

Lemma batch_sizes_cover (train_loader : DataLoader input label) (k : nat) :
  (0 < batch_size train_loader)%nat ->
  drop_last train_loader = false
  \/ (length (dataset train_loader) mod batch_size train_loader = 0)%nat ->
  (forall k l, Permutation (permutation k l) l) ->
  list_sum (map (@length _) (batches_of permutation train_loader k))
  = length (dataset train_loader) /\
  Forall (fun n => (0 < n <= batch_size train_loader)%nat)
         (map (@length _) (batches_of permutation train_loader k)).
Proof.
  intros HB Hall Hperm. unfold batches_of.
  set (order := if shuffle train_loader then _ else _).
  assert (Horder : length order = length (dataset train_loader)).
  { unfold order. destruct (shuffle train_loader); auto.
    now apply Permutation_length. }
  destruct (drop_last train_loader) eqn:Hdrop.
  - destruct Hall as [Hf|Hmod]; [discriminate|].
    destruct (@batch_sampler_drop_last _ (batch_size train_loader) order [] HB HB)
      as [Hfull Hcount].
    simpl in Hcount. rewrite Horder in Hcount.
    assert (Hsizes : Forall (fun n => n = batch_size train_loader)
                       (map (@length _)
                            (batch_sampler (batch_size train_loader) true []
                                           order))).
    { apply Forall_forall. intros n Hin. apply in_map_iff in Hin.
      destruct Hin as (b & <- & Hb). rewrite Forall_forall in Hfull. auto. }
    split.
    + rewrite (list_sum_constant Hsizes), length_map, Hcount.
      pose proof (Nat.div_mod_eq (length (dataset train_loader))
                                 (batch_size train_loader)). lia.
    + eapply Forall_impl; [|exact Hsizes]. cbn beta. intros n ->. lia.
  - destruct (@batch_sampler_keeps_all _ (batch_size train_loader) order [] HB HB)
      as [Hconcat Hbound].
    split.
    + rewrite list_sum_lengths, Hconcat. exact Horder.
    + apply Forall_forall. intros n Hin. apply in_map_iff in Hin.
      destruct Hin as (b & <- & Hb). rewrite Forall_forall in Hbound. auto.
Qed.

(** X14.  When no sample is dropped (without [drop_last], or when the
    batch size divides the size of the dataset) the batches of an epoch
    hold all N samples, and the running average [train] reports is the mean
    of the batch losses weighted by batch size: sum (loss * size) / N with
    the sizes adding up to N.  So it lies between the smallest and the
    largest batch loss of the epoch. *)
Theorem train_exact_average (train_loader : DataLoader input label)
    (n_epochs : nat) (s : state) :
  let N := length (dataset train_loader) in
  let B := batch_size train_loader in
  (0 < N)%nat -> (0 < B)%nat ->
  drop_last train_loader = false \/ (N mod B = 0)%nat ->
  (forall k l, Permutation (permutation k l) l) ->
  exists (epochs : list epoch_log) (s' : state),
    train cast_input cast_label network criterion autograd opt_step
          is_plateau plateau_step plain_step permutation
          train_loader n_epochs s = (Ok tt, s') /\
    length epochs = n_epochs /\
    events s' = events s ++ flat_map epoch_calls epochs /\
    Forall (fun ep =>
              exact_average N B ep /\
              forall m M, Forall (fun l => m <= l <= M) (losses ep) ->
                          m <= reported ep <= M) epochs.
Proof.
  intros N B HN HB Hall Hperm.
  destruct (train_epochs train_loader (fun _ : state => True)
              (fun ep => exact_average N B ep /\
                         forall m M, Forall (fun l => m <= l <= M) (losses ep) ->
                                     m <= reported ep <= M))
    with (n_epochs := n_epochs) (s := s)
    as (eps & s' & Hrun & Hlen & Hev & Hgood & _); [|exact I|].
  - intros s0 _.
    destruct (train_one_epoch_runs train_loader s0 HN)
      as (ls & s1 & Hrun & Hlen & Hev & _ & _).
    destruct (batch_sizes_cover train_loader (passes s0) HB Hall Hperm)
      as [Hsum Hsizes].
    set (sizes := map (@length _) (batches_of permutation train_loader (passes s0)))
      in *.
    assert (Hlen' : length sizes = length ls)
      by (unfold sizes; now rewrite length_map).
    exists (EpochLog ls (scheduler_call is_plateau (lr_scheduler s0)
                           (weighted_total ls sizes / INR N))
                     (weighted_total ls sizes / INR N)), s1.
    split; [exact Hrun|]. split; [exact Hev|]. split; [|exact I].
    split.
    + exists sizes. simpl. auto.
    + simpl. intros m M HF.
      pose proof (@weighted_total_bounds m M ls sizes Hlen' HF) as [Hlo Hhi].
      fold N in Hsum. rewrite Hsum in Hlo, Hhi.
      assert (HNpos : 0 < INR N) by (apply lt_0_INR; exact HN).
      split.
      * apply Rmult_le_reg_r with (INR N); [exact HNpos|].
        unfold Rdiv. rewrite Rmult_assoc, Rinv_l by lra. lra.
      * apply Rmult_le_reg_r with (INR N); [exact HNpos|].
        unfold Rdiv. rewrite Rmult_assoc, Rinv_l by lra. lra.
  - exists eps, s'. auto.
Qed.

End MoreTrainingFacts.

Lemma train_empty_dataset_witness :
  exists s' : session SGD ToyRun2.scheduler,
    ToyRun2.train ToyRun2.loader_empty 1 ToyRun2.start
    = (Raise ZeroDivisionError, s') /\
    parameters s' = parameters ToyRun2.start /\
    optimizer s' = optimizer ToyRun2.start /\
    lr_scheduler s' = lr_scheduler ToyRun2.start /\
    events s' = events ToyRun2.start.
Proof.
  apply (@train_empty_dataset R R (list R)
           Toy.cast Toy.cast Toy.network Toy.criterion Toy.autograd
           SGD sgd_step ToyRun2.scheduler ToyRun2.is_plateau
           ToyRun2.plateau_step ToyRun2.plain_step Toy.no_shuffle
           ToyRun2.loader_empty 1%nat ToyRun2.start).
  - reflexivity.
  - lia.
  - intros k l. apply Permutation_refl.
Defined.

Lemma train_small_dataset_witness :
  exists (epochs : list epoch_log) (s' : session SGD ToyRun2.scheduler),
    ToyRun2.train ToyRun2.loader_small 2 ToyRun2.start = (Ok tt, s') /\
    length epochs = 2%nat /\
    events s' = events ToyRun2.start ++ flat_map epoch_calls epochs /\
    Forall (fun ep => losses ep = [] /\ reported ep = 0) epochs /\
    parameters s' = parameters ToyRun2.start.
Proof.
  apply (@train_small_dataset R R (list R)
           Toy.cast Toy.cast Toy.network Toy.criterion Toy.autograd
           SGD sgd_step ToyRun2.scheduler ToyRun2.is_plateau
           ToyRun2.plateau_step ToyRun2.plain_step Toy.no_shuffle
           ToyRun2.loader_small 2%nat ToyRun2.start).
  - reflexivity.
  - simpl. lia.
  - intros k l. apply Permutation_refl.
Defined.

Lemma train_scheduler_calls_witness :
  exists (epochs : list epoch_log) (s' : session SGD ToyRun2.scheduler),
    ToyRun2.train ToyRun2.loader_all 2 ToyRun2.start = (Ok tt, s') /\
    length epochs = 2%nat /\
    events s' = events ToyRun2.start ++ flat_map epoch_calls epochs /\
    Forall (fun ep => scheduler_calls ep = [EvScheduler (Some (reported ep))])
           epochs.
Proof.
  apply (@train_scheduler_calls R R (list R)
           Toy.cast Toy.cast Toy.network Toy.criterion Toy.autograd
           SGD sgd_step ToyRun2.scheduler ToyRun2.is_plateau
           ToyRun2.plateau_step ToyRun2.plain_step Toy.no_shuffle
           ToyRun2.loader_all 2%nat ToyRun2.start).
  - simpl. lia.
  - split; intros; reflexivity.
Defined.

Lemma train_exact_average_witness :
  exists (epochs : list epoch_log) (s' : session SGD ToyRun2.scheduler),
    ToyRun2.train ToyRun2.loader_all 2 ToyRun2.start = (Ok tt, s') /\
    length epochs = 2%nat /\
    events s' = events ToyRun2.start ++ flat_map epoch_calls epochs /\
    Forall (fun ep =>
              exact_average 3 2 ep /\
              forall m M, Forall (fun l => m <= l <= M) (losses ep) ->
                          m <= reported ep <= M) epochs.
Proof.
  apply (@train_exact_average R R (list R)
           Toy.cast Toy.cast Toy.network Toy.criterion Toy.autograd
           SGD sgd_step ToyRun2.scheduler ToyRun2.is_plateau
           ToyRun2.plateau_step ToyRun2.plain_step Toy.no_shuffle
           ToyRun2.loader_all 2%nat ToyRun2.start).
  - simpl. lia.
  - simpl. lia.
  - left. reflexivity.
  - intros k l. apply Permutation_refl.
Defined.

(** *** Gradients from before, and the two loops side by side *)

Lemma zero_grad_data (ps qs : list param) :
  map data ps = map data qs -> zero_grad ps = zero_grad qs.
Proof.
  intros H. unfold zero_grad.
  rewrite <- (map_map data (fun d => Param d None) ps).
  rewrite <- (map_map data (fun d => Param d None) qs).
  now rewrite H.
Qed.

Section TrainingComposition.

Variables input label logits : Type.
Variable cast_input : input -> input.
Variable cast_label : label -> label.
Variable network : list tensor -> list input -> logits.
Variable criterion : logits -> list label -> R.
Variable autograd : list tensor -> list input -> list label -> list tensor.
Variable opt : Type.
Variable opt_step : opt -> list param -> opt * list param.
Variable sched : Type.
Variable is_plateau : sched -> bool.
Variable plateau_step : sched -> R -> opt -> sched * opt.
Variable plain_step : sched -> opt -> sched * opt.
Variable permutation : nat -> list (input * label) -> list (input * label).

Local Notation state := (session opt sched) (only parsing).

(** X15.  [train_epoch] clears the gradients before every backward pass, so
    gradients left on the parameters from before the call have no effect:
    started from two sessions that agree on the parameter values, the
    optimizer and the loader's pass, it makes the same calls with the same
    losses and ends with the same parameter values and optimizer. *)
Theorem train_epoch_ignores_stale_gradients
    (train_loader : DataLoader input label) (s1 s2 : state) :
  map data (parameters s1) = map data (parameters s2) ->
  optimizer s1 = optimizer s2 -> passes s1 = passes s2 ->
  exists (calls : list event) (s1' s2' : state),
    train_epoch cast_input cast_label network criterion autograd opt_step
                permutation train_loader s1 = (Ok tt, s1') /\
    train_epoch cast_input cast_label network criterion autograd opt_step
                permutation train_loader s2 = (Ok tt, s2') /\
    events s1' = events s1 ++ calls /\ events s2' = events s2 ++ calls /\
    map data (parameters s1') = map data (parameters s2') /\
    optimizer s1' = optimizer s2'.
Proof.
  intros Hdata Hopt Hpass. unfold train_epoch.
  set (body := fun '(x, y) => _).
  assert (Hbody : forall x y (a b : state),
             map data (parameters a) = map data (parameters b) ->
             optimizer a = optimizer b ->
             exists calls a' b',
               body (x, y) a = (Ok tt, a') /\ body (x, y) b = (Ok tt, b') /\
               events a' = events a ++ calls /\
               events b' = events b ++ calls /\
               map data (parameters a') = map data (parameters b') /\
               optimizer a' = optimizer b').
  { intros x y a b Hd Ho.
    unfold body, bind, x_to, y_to, log, optimizer_zero_grad, model_call,
      loss_fn, backward, optimizer_step, set_postfix_str, log, ret.
    simpl. rewrite (zero_grad_data _ _ Hd), Ho.
    destruct (opt_step _ _) as [o ps]. simpl.
    eexists. eexists. eexists.
    split; [reflexivity|]. split; [reflexivity|]. simpl.
    rewrite <- !app_assoc. simpl.
    split; [reflexivity|]. split; [reflexivity|]. split; reflexivity. }
  assert (Hloop : forall batches (a b : state),
             map data (parameters a) = map data (parameters b) ->
             optimizer a = optimizer b ->
             exists calls a' b',
               for_each batches body a = (Ok tt, a') /\
               for_each batches body b = (Ok tt, b') /\
               events a' = events a ++ calls /\
               events b' = events b ++ calls /\
               map data (parameters a') = map data (parameters b') /\
               optimizer a' = optimizer b').
  { clearbody body.
    induction batches as [|[x y] batches IH]; intros a b Hd Ho.
    - exists [], a, b. simpl. unfold ret. rewrite !app_nil_r.
      repeat split; auto.
    - destruct (Hbody x y a b Hd Ho)
        as (c1 & a1 & b1 & Ha1 & Hb1 & Ea1 & Eb1 & Hd1 & Ho1).
      destruct (IH a1 b1 Hd1 Ho1)
        as (c2 & a2 & b2 & Ha2 & Hb2 & Ea2 & Eb2 & Hd2 & Ho2).
      exists (c1 ++ c2), a2, b2. simpl for_each. unfold bind.
      rewrite Ha1, Hb1, Ha2, Hb2.
      split; [reflexivity|]. split; [reflexivity|].
      split; [now rewrite Ea2, Ea1, app_assoc|].
      split; [now rewrite Eb2, Eb1, app_assoc | auto]. }
  unfold bind at 1. unfold model_train at 1.
  unfold bind at 1. unfold iterate at 1.
  unfold bind at 1. unfold model_train at 1.
  unfold bind at 1. unfold iterate at 1.
  cbn [passes parameters optimizer lr_scheduler training events].
  rewrite Hpass.
  match goal with
  | |- context [for_each ?bs body ?a] =>
      match goal with
      | |- context [for_each bs body ?b] =>
          tryif constr_eq a b then fail else
          destruct (Hloop bs a b Hdata Hopt)
            as (calls & a' & b' & Ha & Hb & Ea & Eb & Hd & Ho)
      end
  end.
  exists (EvTrainMode :: calls), a', b'.
  rewrite Ha, Hb. cbn [events] in Ea, Eb.
  split; [reflexivity|]. split; [reflexivity|].
  split; [now rewrite Ea, <- app_assoc|].
  split; [now rewrite Eb, <- app_assoc | auto].
Qed.

(** X16.  [train_epoch] puts the model in training mode and [train] does
    not, so the two can only agree on a model that is in training mode
    already.  From such a session, on a non-empty dataset (and with gradient
    recording on, as it is unless the caller switched it off), one epoch of
    [train] updates the model exactly as [train_epoch] does: both complete
    with the model in training mode and with the same parameters, and with
    the same optimizer when no scheduler is installed. *)
Theorem train_one_epoch_like_train_epoch
    (train_loader : DataLoader input label) (s : state) :
  (0 < length (dataset train_loader))%nat ->
  training s = true ->
  exists (a b : state),
    train_epoch cast_input cast_label network criterion autograd opt_step
                permutation train_loader s = (Ok tt, a) /\
    train cast_input cast_label network criterion autograd opt_step
          is_plateau plateau_step plain_step permutation
          train_loader 1 s = (Ok tt, b) /\
    training a = true /\ training b = true /\
    parameters a = parameters b /\
    (lr_scheduler s = None -> optimizer a = optimizer b).
Proof.
  intros HN Hmode. unfold train. simpl seq. simpl for_each.
  unfold train_epoch, train_one_epoch.
  set (body1 := fun '(x, y) => _).
  set (body2 := fun (running_avg_train_loss : R) '(x, y) => _).
  assert (Hbody : forall acc x y (a b : state),
             parameters a = parameters b -> optimizer a = optimizer b ->
             training a = training b ->
             exists acc' a' b',
               body1 (x, y) a = (Ok tt, a') /\
               body2 acc (x, y) b = (Ok acc', b') /\
               parameters a' = parameters b' /\ optimizer a' = optimizer b' /\
               training a' = training b' /\
               training b' = training b /\
               lr_scheduler b' = lr_scheduler b).
  { intros acc x y a b Hp Ho Ht.
    unfold body1, body2, bind, x_to, y_to, log, optimizer_zero_grad,
      model_call, loss_fn, backward, optimizer_step, set_postfix_str, log, ret.
    simpl. rewrite Hp, Ho.
    destruct (opt_step _ _) as [o ps]. simpl.
    eexists. eexists. eexists.
    split; [reflexivity|]. split; [reflexivity|]. simpl.
    repeat split; auto. }
  assert (Hloop : forall batches acc (a b : state),
             parameters a = parameters b -> optimizer a = optimizer b ->
             training a = training b ->
             exists acc' a' b',
               for_each batches body1 a = (Ok tt, a') /\
               for_fold batches acc body2 b = (Ok acc', b') /\
               parameters a' = parameters b' /\ optimizer a' = optimizer b' /\
               training a' = training b' /\
               training b' = training b /\
               lr_scheduler b' = lr_scheduler b).
  { clearbody body1 body2.
    induction batches as [|[x y] batches IH]; intros acc a b Hp Ho Ht.
    - exists acc, a, b. simpl. unfold ret. repeat split; auto.
    - destruct (Hbody acc x y a b Hp Ho Ht)
        as (acc1 & a1 & b1 & Ha1 & Hb1 & Hp1 & Ho1 & Ht1 & Hm1 & Hk1).
      destruct (IH acc1 a1 b1 Hp1 Ho1 Ht1)
        as (acc2 & a2 & b2 & Ha2 & Hb2 & Hp2 & Ho2 & Ht2 & Hm2 & Hk2).
      exists acc2, a2, b2. simpl for_each. simpl for_fold. unfold bind.
      rewrite Ha1, Hb1, Ha2, Hb2.
      split; [reflexivity|]. split; [reflexivity|].
      split; [exact Hp2|]. split; [exact Ho2|]. split; [exact Ht2|].
      split; congruence. }
  unfold bind at 1. unfold model_train at 1.
  unfold bind at 1. unfold iterate at 1.
  unfold bind at 1. unfold bind at 1. unfold bind at 1. unfold iterate at 1.
  unfold bind at 1.
  cbn [passes parameters optimizer lr_scheduler training events].
  match goal with
  | |- context [for_each ?bs body1 ?a] =>
      match goal with
      | |- context [for_fold bs 0 body2 ?b] =>
          destruct (Hloop bs 0 a b eq_refl eq_refl (eq_sym Hmode))
            as (total & a' & b' & Ha & Hb & Hp & Ho & Ht & Hm & Hk)
      end
  end.
  rewrite Ha, Hb. cbn [lr_scheduler training] in Hk, Hm, Ht.
  assert (Hb' : training b' = true) by congruence.
  assert (Ha' : training a' = true) by congruence.
  assert (EN : (length (dataset train_loader) =? 0)%nat = false)
    by (apply Nat.eqb_neq; lia).
  unfold bind, py_div. rewrite EN.
  unfold ret, scheduler_step, set_postfix_str, log. rewrite Hk.
  destruct (lr_scheduler s) as [sc|] eqn:Esc;
    [destruct (is_plateau sc);
     [destruct (plateau_step _ _ _) as [sc' o]
     |destruct (plain_step _ _) as [sc' o]]|];
    exists a'; eexists;
    (split; [reflexivity|]); (split; [reflexivity|]); simpl;
    (split; [exact Ha'|]); (split; [exact Hb'|]);
    (split; [exact Hp|]); intros H; try discriminate; exact Ho.
Qed.

End TrainingComposition.

Lemma train_epoch_ignores_stale_gradients_witness :
  exists (calls : list event) (s1' s2' : session SGD ToyRun2.scheduler),
    ToyRun2.train_epoch ToyRun2.loader_all ToyRun2.start = (Ok tt, s1') /\
    ToyRun2.train_epoch ToyRun2.loader_all ToyRun2.start_stale = (Ok tt, s2') /\
    events s1' = events ToyRun2.start ++ calls /\
    events s2' = events ToyRun2.start_stale ++ calls /\
    map data (parameters s1') = map data (parameters s2') /\
    optimizer s1' = optimizer s2'.
Proof.
  apply (@train_epoch_ignores_stale_gradients R R (list R)
           Toy.cast Toy.cast Toy.network Toy.criterion Toy.autograd
           SGD sgd_step ToyRun2.scheduler Toy.no_shuffle
           ToyRun2.loader_all ToyRun2.start ToyRun2.start_stale);
    reflexivity.
Defined.

Lemma train_one_epoch_like_train_epoch_witness :
  exists (a b : session SGD ToyRun2.scheduler),
    ToyRun2.train_epoch ToyRun2.loader_all ToyRun2.start_training
    = (Ok tt, a) /\
    ToyRun2.train ToyRun2.loader_all 1 ToyRun2.start_training
    = (Ok tt, b) /\
    training a = true /\ training b = true /\
    parameters a = parameters b /\
    (lr_scheduler ToyRun2.start_training = None ->
     optimizer a = optimizer b).
Proof.
  apply (@train_one_epoch_like_train_epoch R R (list R)
           Toy.cast Toy.cast Toy.network Toy.criterion Toy.autograd
           SGD sgd_step ToyRun2.scheduler ToyRun2.is_plateau
           ToyRun2.plateau_step ToyRun2.plain_step Toy.no_shuffle
           ToyRun2.loader_all ToyRun2.start_training).
  - simpl. lia.
  - reflexivity.
Defined.

(** *** Steps per epoch *)

(** Without [drop_last] there are ceil((collected + remaining) / B)
    batches. *)
Lemma batch_sampler_count_all {A} (B : nat) (l batch : list A) :
  (0 < B)%nat -> (length batch < B)%nat ->
  length (batch_sampler B false batch l)
  = ((length batch + length l + B - 1) / B)%nat.
Proof.
  intros HB. revert batch. induction l as [|x l IH]; intros batch Hk; simpl.
  - destruct (length batch =? 0)%nat eqn:E.
    + apply Nat.eqb_eq in E. rewrite E. simpl.
      symmetry. apply Nat.div_small. lia.
    + apply Nat.eqb_neq in E. simpl.
      replace (length batch + 0 + B - 1)%nat
        with (1 * B + (length batch - 1))%nat by lia.
      rewrite Nat.div_add_l by lia.
      rewrite (Nat.div_small (length batch - 1) B) by lia. reflexivity.
  - assert (Hlen : length (batch ++ [x]) = S (length batch))
      by (rewrite length_app; simpl; lia).
    destruct (length (batch ++ [x]) =? B)%nat eqn:E.
    + apply Nat.eqb_eq in E. simpl. rewrite (IH [] HB). simpl.
      replace (length batch + S (length l) + B - 1)%nat
        with (1 * B + (length l + B - 1))%nat by lia.
      now rewrite Nat.div_add_l by lia.
    + apply Nat.eqb_neq in E. rewrite (IH (batch ++ [x])) by lia.
      f_equal. lia.
Qed.

Section TrainEpochSteps.

Variables input label logits : Type.
Variable cast_input : input -> input.
Variable cast_label : label -> label.
Variable network : list tensor -> list input -> logits.
Variable criterion : logits -> list label -> R.
Variable autograd : list tensor -> list input -> list label -> list tensor.
Variable opt : Type.
Variable opt_step : opt -> list param -> opt * list param.
Variable sched : Type.
Variable permutation : nat -> list (input * label) -> list (input * label).

Local Notation state := (session opt sched) (only parsing).

(** X17.  One call of [train_epoch] processes floor(N / B) batches with
    [drop_last] and ceil(N / B) without, for N samples in batches of B, and
    makes the calls of one batch, with its one optimizer step, for each. *)
Theorem train_epoch_step_count (train_loader : DataLoader input label)
    (s : state) :
  let N := length (dataset train_loader) in
  let B := batch_size train_loader in
  (0 < B)%nat -> (forall k l, Permutation (permutation k l) l) ->
  exists (losses : list R) (s' : state),
    train_epoch cast_input cast_label network criterion autograd opt_step
                permutation train_loader s = (Ok tt, s') /\
    events s' = events s ++ EvTrainMode :: flat_map batch_calls losses /\
    length losses = (if drop_last train_loader then N / B
                     else (N + B - 1) / B)%nat.
Proof.
  intros N B HB Hperm. unfold train_epoch.
  set (body := fun '(x, y) => _).
  assert (Hbody : forall x y (s0 : state), exists l s1,
             body (x, y) s0 = (Ok tt, s1) /\
             events s1 = events s0 ++ batch_calls l).
  { intros x y s0. unfold body, bind, x_to, y_to, log, optimizer_zero_grad,
      model_call, loss_fn, backward, optimizer_step, set_postfix_str, log, ret.
    simpl. destruct (opt_step _ _) as [o ps]. simpl.
    eexists. eexists. split; [reflexivity|]. simpl.
    now rewrite <- !app_assoc. }
  assert (Hloop : forall batches (s0 : state), exists ls s1,
             for_each batches body s0 = (Ok tt, s1) /\
             length ls = length batches /\
             events s1 = events s0 ++ flat_map batch_calls ls).
  { clearbody body.
    induction batches as [|[x y] batches IH]; intros s0.
    - exists [], s0. simpl. unfold ret. now rewrite app_nil_r.
    - destruct (Hbody x y s0) as (l & s1 & H1 & E1).
      destruct (IH s1) as (ls & s2 & H2 & Hlen & E2).
      exists (l :: ls), s2. simpl for_each. unfold bind. rewrite H1, H2.
      split; [reflexivity|]. split; [simpl; now rewrite Hlen|].
      simpl flat_map. now rewrite E2, E1, <- app_assoc. }
  unfold bind at 1. unfold model_train at 1.
  unfold bind at 1. unfold iterate at 1.
  cbn [passes parameters optimizer lr_scheduler training events shuffle].
  set (order := if shuffle train_loader then _ else _).
  assert (Horder : length order = N).
  { unfold order. destruct (shuffle train_loader); auto.
    now apply Permutation_length. }
  match goal with
  | |- context [for_each ?bs body ?a] =>
      destruct (Hloop bs a) as (ls & s1 & H1 & Hlen & E1)
  end.
  exists ls, s1. split; [exact H1|].
  split; [cbn [events] in E1; now rewrite E1, <- app_assoc|].
  rewrite Hlen, length_map. fold B.
  destruct (drop_last train_loader).
  - destruct (@batch_sampler_drop_last _ B order [] HB HB) as [_ Hc].
    now rewrite Hc, Horder.
  - rewrite (@batch_sampler_count_all _ B order [] HB HB).
    now rewrite Horder.
Qed.

End TrainEpochSteps.

Lemma train_epoch_step_count_witness :
  exists (losses : list R) (s' : session SGD ToyRun2.scheduler),
    ToyRun2.train_epoch ToyRun2.loader_all ToyRun2.start = (Ok tt, s') /\
    events s'
    = events ToyRun2.start ++ EvTrainMode :: flat_map batch_calls losses /\
    length losses = ((3 + 2 - 1) / 2)%nat.
Proof.
  apply (@train_epoch_step_count R R (list R)
           Toy.cast Toy.cast Toy.network Toy.criterion Toy.autograd
           SGD sgd_step ToyRun2.scheduler Toy.no_shuffle
           ToyRun2.loader_all ToyRun2.start).
  - simpl. lia.
  - intros k l. apply Permutation_refl.
Defined.

(** ** The comparison cell before any backward pass *)

(** X18.  The cell that compares the manual update with [optimizer.step()]
    needs a gradient on the weight: when [model[1].weight.grad] is None (no
    backward pass has run) it raises AttributeError at [.grad.clone()],
    before [optimizer.step()] is reached, and the session is unchanged. *)
Theorem manual_update_cell_without_gradient (sched : Type)
    (s : session SGD sched) (w : tensor) :
  nth_error (parameters s) 0 = Some (Param w None) ->
  Week2Sgd.manual_update_cell s
  = (Raise (AttributeError "'NoneType' object has no attribute 'clone'"), s).
Proof.
  intros H. unfold Week2Sgd.manual_update_cell, bind, Week2Sgd.weight.
  rewrite H. reflexivity.
Qed.

Lemma manual_update_cell_without_gradient_witness :
  Week2Sgd.manual_update_cell ToyRun2.start
  = (Raise (AttributeError "'NoneType' object has no attribute 'clone'"),
     ToyRun2.start).
Proof.
  apply (@manual_update_cell_without_gradient ToyRun2.scheduler
           ToyRun2.start [1]).
  reflexivity.
Defined.

(** ** [calculate_fid] in binary64 *)

Import Floats.

(** C3, as the claim states it, fails in binary64: the mean 1 and the
    variance 2^-600 on both sides are identical distributions, the product
    of the variance with itself underflows to 0, its root is 0, and
    [calculate_fid] returns 2^-599, which is not zero. *)
Lemma calculate_fid_identical_underflow :
  F64.matmul [ [F64.tiny] ] [ [F64.tiny] ] = Ok [ [0%float] ] /\
  F64.calculate_fid F64.sqrtm_diagonal
    [1%float] [ [F64.tiny] ] [1%float] [ [F64.tiny] ] = Ok 0x1p-599%float /\
  PrimFloat.eqb 0x1p-599 0 = false.
Proof. repeat split. Qed.

(** X5.  In binary64 [calculate_fid] can return a negative number, also for
    positive variances and equal means: for the 1 x 1 covariances
    1.5000000000000195 and 1.500000000000018, with sqrtm returning the
    correctly rounded square root of their product, it returns -2^-51
    (about -4.44e-16). *)
Theorem calculate_fid_can_be_negative
    (scipy_sqrtm : list (list float) -> list (list float)) :
  scipy_sqrtm [ [(F64.variance_a * F64.variance_b)%float] ]
  = [ [PrimFloat.sqrt (F64.variance_a * F64.variance_b)] ] ->
  exists fid,
    F64.calculate_fid scipy_sqrtm [1%float] [ [F64.variance_a] ]
                      [1%float] [ [F64.variance_b] ] = Ok fid /\
    PrimFloat.eqb fid (-0x1p-51) = true /\
    PrimFloat.ltb fid 0 = true.
Proof.
  intros Hroot. unfold F64.calculate_fid, F64.sqrtm.
  change (F64.matmul [ [F64.variance_a] ] [ [F64.variance_b] ])
    with (Ok [ [(F64.variance_a * F64.variance_b)%float] ]).
  change (F64.subtract1 [1%float] [1%float]) with (Ok [0%float]).
  cbn [obind F64.squareb forallb length Nat.eqb andb].
  rewrite Hroot.
  exists (-0x1p-51)%float. repeat split.
Qed.

Lemma calculate_fid_can_be_negative_witness :
  exists fid,
    F64.calculate_fid F64.sqrtm_diagonal [1%float] [ [F64.variance_a] ]
                      [1%float] [ [F64.variance_b] ] = Ok fid /\
    PrimFloat.eqb fid (-0x1p-51) = true /\
    PrimFloat.ltb fid 0 = true.
Proof.
  apply (calculate_fid_can_be_negative F64.sqrtm_diagonal). reflexivity.
Defined.
